(** * goose: compile-time dependency injection

    A shallow embedding of [internal/goose/goose.go]: the merge of provider
    sets into one binding table ([buildProviderMap]), the depth-first
    resolution of a call plan ([solve]) and the emission of an injector
    function ([gen.inject], [zeroValue]).

    Go values are modelled as follows.
    - [types.Type] is an inductive type of finite type expressions and
      [types.Identical] is equality on it.
    - [typeutil.Map] is an association list keyed by identical types.
    - [int] and [token.Pos] are [Z]; slice lengths stay far below the
      word size, so no wrap-around is involved.
    - [error] values are an inductive type with one constructor per
      [fmt.Errorf] call of the source; [errorString] renders the text.
    - a Go panic is the outcome [Panic]. *)

From Stdlib Require Import ZArith String Ascii List Lia.
From Stdlib Require Import DecimalString DecimalPos DecimalZ.
From stdpp Require Import base list gmap strings sorting.

Set Warnings "-register-all".
Local Open Scope string_scope.
Local Open Scope list_scope.
Local Open Scope Z_scope.

(** Characters that have no literal spelling inside a string. *)
Definition dq : string := String (ascii_of_nat 34) EmptyString.
Definition tab : string := String (ascii_of_nat 9) EmptyString.
Definition nl : string := String (ascii_of_nat 10) EmptyString.

(** [%d] of [fmt]. *)
Definition itoa (z : Z) : string := NilZero.string_of_int (Z.to_int z).

(** ** The part of go/types the generator looks at *)

Module types.

Inductive BasicKind : Type :=
| Invalid
| Bool | Int | Int8 | Int16 | Int32 | Int64
| Uint | Uint8 | Uint16 | Uint32 | Uint64 | Uintptr
| Float32 | Float64 | Complex64 | Complex128
| String_ | UnsafePointer
| UntypedBool | UntypedInt | UntypedRune | UntypedFloat | UntypedComplex
| UntypedString | UntypedNil.

(** The [BasicInfo] flags. *)
Definition IsBoolean : Z := 1.
Definition IsInteger : Z := 2.
Definition IsUnsigned : Z := 4.
Definition IsFloat : Z := 8.
Definition IsComplex : Z := 16.
Definition IsString : Z := 32.
Definition IsUntyped : Z := 64.

(** The method [Info] of a basic type, as the table [types.Typ] gives it. *)
Definition Info (k : BasicKind) : Z :=
  match k with
  | Invalid => 0
  | Bool => IsBoolean
  | Int | Int8 | Int16 | Int32 | Int64 => IsInteger
  | Uint | Uint8 | Uint16 | Uint32 | Uint64 | Uintptr =>
      Z.lor IsInteger IsUnsigned
  | Float32 | Float64 => IsFloat
  | Complex64 | Complex128 => IsComplex
  | String_ => IsString
  | UnsafePointer => 0
  | UntypedBool => Z.lor IsBoolean IsUntyped
  | UntypedInt | UntypedRune => Z.lor IsInteger IsUntyped
  | UntypedFloat => Z.lor IsFloat IsUntyped
  | UntypedComplex => Z.lor IsComplex IsUntyped
  | UntypedString => Z.lor IsString IsUntyped
  | UntypedNil => IsUntyped
  end.

Definition BasicName (k : BasicKind) : string :=
  match k with
  | Invalid => "invalid type"
  | Bool => "bool" | Int => "int" | Int8 => "int8" | Int16 => "int16"
  | Int32 => "int32" | Int64 => "int64"
  | Uint => "uint" | Uint8 => "uint8" | Uint16 => "uint16"
  | Uint32 => "uint32" | Uint64 => "uint64" | Uintptr => "uintptr"
  | Float32 => "float32" | Float64 => "float64"
  | Complex64 => "complex64" | Complex128 => "complex128"
  | String_ => "string" | UnsafePointer => "Pointer"
  | UntypedBool => "untyped bool" | UntypedInt => "untyped int"
  | UntypedRune => "untyped rune" | UntypedFloat => "untyped float"
  | UntypedComplex => "untyped complex" | UntypedString => "untyped string"
  | UntypedNil => "untyped nil"
  end.

Inductive ChanDir : Type := SendRecv | SendOnly | RecvOnly.

(** The implementations of [types.Type].  A named type carries the path of
    its package ([None] for the universe), its name and its underlying
    type. *)
Inductive type : Type :=
| Basic (k : BasicKind)
| Array (len : Z) (elem : type)
| Slice (elem : type)
| Struct (fields : list (string * type))
| Pointer (elem : type)
| Tuple (vars : list type)
| Signature (params results : list type) (variadic : bool)
| Interface (methods : list (string * type))
| Map (key elem : type)
| Chan (dir : ChanDir) (elem : type)
| Named (pkg : option string) (name : string) (underlying : type).

Lemma BasicKind_eq_dec (a b : BasicKind) : {a = b} + {a <> b}.
Proof. decide equality. Defined.

Lemma ChanDir_eq_dec (a b : ChanDir) : {a = b} + {a <> b}.
Proof. decide equality. Defined.

Lemma type_eq_dec : forall a b : type, {a = b} + {a <> b}.
Proof.
  fix IH 1.
  decide equality;
    try apply Z.eq_dec; try apply BasicKind_eq_dec;
    try apply ChanDir_eq_dec; try apply Bool.bool_dec;
    try apply String.string_dec;
    try (apply List.list_eq_dec; try apply IH;
         decide equality; apply String.string_dec);
    try (decide equality; apply String.string_dec).
Defined.

#[global] Instance type_eq_decision : EqDecision type := type_eq_dec.

(** [types.Identical]. *)
Definition Identical (x y : type) : bool := bool_decide (x = y).

(** [Type.Underlying]: a named type answers with the type it was declared
    as, every other type with itself. *)
Fixpoint Underlying (t : type) : type :=
  match t with
  | Named _ _ u => Underlying u
  | _ => t
  end.

(** The text [types.TypeString] writes, cut at the places where it asks the
    qualifier about a package. *)
Inductive piece : Type :=
| Lit (s : string)
| Pkg (path : string).

Definition tuplePieces (f : type -> list piece) (ts : list type)
    (variadic : bool) : list piece :=
  [Lit "("] ++
  (fix go (first : bool) (ts : list type) : list piece :=
     match ts with
     | [] => []
     | t :: r =>
         (if first then [] else [Lit ", "]) ++
         match r, variadic, t with
         | [], true, Slice e => Lit "..." :: f e
         | _, _, _ => f t
         end ++ go false r
     end) true ts ++
  [Lit ")"].

Definition signaturePieces (f : type -> list piece) (ps rs : list type)
    (variadic : bool) : list piece :=
  tuplePieces f ps variadic ++
  match rs with
  | [] => []
  | [r] => Lit " " :: f r
  | _ => Lit " " :: tuplePieces f rs false
  end.

Fixpoint typePieces (t : type) : list piece :=
  match t with
  | Basic k =>
      match k with
      | UnsafePointer => [Lit "unsafe."; Lit (BasicName k)]
      | _ => [Lit (BasicName k)]
      end
  | Array n e => Lit ("[" +:+ itoa n +:+ "]") :: typePieces e
  | Slice e => Lit "[]" :: typePieces e
  | Struct fs =>
      [Lit "struct{"] ++
      (fix go (first : bool) (fs : list (string * type)) : list piece :=
         match fs with
         | [] => []
         | (n, ft) :: r =>
             (if first then [] else [Lit "; "]) ++
             [Lit n; Lit " "] ++ typePieces ft ++ go false r
         end) true fs ++
      [Lit "}"]
  | Pointer e => Lit "*" :: typePieces e
  | Tuple vs => tuplePieces typePieces vs false
  | Signature ps rs v => Lit "func" :: signaturePieces typePieces ps rs v
  | Interface ms =>
      [Lit "interface{"] ++
      (fix go (first : bool) (ms : list (string * type)) : list piece :=
         match ms with
         | [] => []
         | (n, mt) :: r =>
             (if first then [] else [Lit "; "]) ++
             [Lit n] ++
             match mt with
             | Signature ps rs v => signaturePieces typePieces ps rs v
             | _ => typePieces mt
             end ++ go false r
         end) true ms ++
      [Lit "}"]
  | Map k e => [Lit "map["] ++ typePieces k ++ [Lit "]"] ++ typePieces e
  | Chan d e =>
      match d with
      | SendRecv =>
          match e with
          | Chan RecvOnly _ => [Lit "chan ("] ++ typePieces e ++ [Lit ")"]
          | _ => Lit "chan " :: typePieces e
          end
      | SendOnly => Lit "chan<- " :: typePieces e
      | RecvOnly => Lit "<-chan " :: typePieces e
      end
  | Named p n _ =>
      match p with
      | Some path => [Pkg path; Lit n]
      | None => [Lit n]
      end
  end.

(** [types.TypeString t nil]: every package is written by its path. *)
Definition TypeString (t : type) : string :=
  foldr (fun p acc =>
           match p with
           | Lit s => s +:+ acc
           | Pkg path =>
               (if decide (path = EmptyString) then EmptyString
                else path +:+ ".") +:+ acc
           end) EmptyString (typePieces t).

(** [types.Universe.Lookup("error").Type()]. *)
Definition errorType : type :=
  Named None "error"
    (Interface [("Error", Signature [] [Basic String_] false)]).

End types.

Import types(type, Identical).

(** ** typeutil.Map *)

Module typeutil.

Definition Map (V : Type) : Type := list (type * V).

Fixpoint At {V : Type} (m : Map V) (key : type) : option V :=
  match m with
  | [] => None
  | (k, v) :: r => if Identical key k then Some v else At r key
  end.

(** [Set] keeps the position and the key of an entry it updates and appends
    a new one otherwise. *)
Fixpoint Set' {V : Type} (m : Map V) (key : type) (value : V) : Map V :=
  match m with
  | [] => [(key, value)]
  | (k, v) :: r =>
      if Identical key k then (k, value) :: r
      else (k, v) :: Set' r key value
  end.

End typeutil.

(** ** Data of the generator *)

Definition Pos : Type := Z.

(** [token.Pos.IsValid]. *)
Definition IsValid (p : Pos) : bool := negb (p =? 0).

Record providerSetRef : Type := {
  ref_importPath : string;
  ref_name : string
}.

#[export] Instance providerSetRef_eq_decision : EqDecision providerSetRef.
Proof. solve_decision. Defined.

Record providerInfo : Type := {
  provider_importPath : string;
  provider_funcName : string;
  provider_pos : Pos;
  provider_args : list type;
  provider_out : type;
  provider_hasErr : bool
}.

Record providerSetImport : Type := {
  import_ref : providerSetRef;
  import_pos : Pos
}.

Record providerSet : Type := {
  set_providers : list providerInfo;
  set_imports : list providerSetImport
}.

Record call : Type := {
  call_importPath : string;
  call_funcName : string;
  call_args : list Z;
  call_out : type;
  call_hasErr : bool
}.

(** One constructor for each error the source creates; [ErrFront] stands
    for an error of the front end ([findProviderSets]). *)
Inductive error : Type :=
| ErrNoReturnValues (name : string)
| ErrSecondReturnType (name : string) (t : type)
| ErrTooManyReturnValues (name : string)
| ErrProviderReturnsError (name : string) (out : type)
| ErrMultipleInputs (t : type)
| ErrInputConflicts (t : type) (funcName : string) (pos : Pos)
| ErrCycle (t : type)
| ErrNoProviderOutput (t : type)
| ErrNoProviderRequired (t : type) (parent : type)
| ErrBindingAddedByInjector (pos : Pos) (t : type) (prevPos : Pos)
| ErrBindingImportedBy (pos : Pos) (t : type) (from : providerSetRef)
    (prevPos : Pos)
| ErrNoSuchProviderSet (name : string) (importPath : string)
| ErrPackageNotFound (path : string)
| ErrAnalyzePackage (e : error)
| ErrAt (pos : Pos) (e : error)
| ErrFront (msg : string).

Inductive result (A : Type) : Type :=
| Ok (a : A)
| Err (e : error)
| Panic (msg : string).

Arguments Ok {A} a.
Arguments Err {A} e.
Arguments Panic {A} msg.

(** [providerSetRef.String]; [quote] is [strconv.Quote]. *)
Definition refString (quote : string -> string) (ref : providerSetRef)
    : string :=
  quote (ref_importPath ref) +:+ "." +:+ ref_name ref.

(** The message of an error; [position] renders a [token.Pos] the way
    [FileSet.Position] followed by [%v] does. *)
Fixpoint errorString (position : Pos -> string) (quote : string -> string)
    (e : error) : string :=
  match e with
  | ErrNoReturnValues name => "inject " +:+ name +:+ ": no return values"
  | ErrSecondReturnType name t =>
      "inject " +:+ name +:+ ": second return type is " +:+
      types.TypeString t +:+ "; must be error"
  | ErrTooManyReturnValues name =>
      "inject " +:+ name +:+ ": too many return values"
  | ErrProviderReturnsError name out =>
      "inject " +:+ name +:+ ": provider for " +:+ types.TypeString out +:+
      " returns error but injection not allowed to fail"
  | ErrMultipleInputs t =>
      "multiple inputs of the same type " +:+ types.TypeString t
  | ErrInputConflicts t funcName pos =>
      "input of " +:+ types.TypeString t +:+ " conflicts with provider " +:+
      funcName +:+ " at " +:+ position pos
  | ErrCycle t => "cycle for " +:+ types.TypeString t
  | ErrNoProviderOutput t =>
      "no provider found for " +:+ types.TypeString t +:+
      " (output of injector)"
  | ErrNoProviderRequired t parent =>
      "no provider found for " +:+ types.TypeString t +:+
      " (required by provider of " +:+ types.TypeString parent +:+ ")"
  | ErrBindingAddedByInjector pos t prevPos =>
      position pos +:+ ": multiple bindings for " +:+ types.TypeString t +:+
      " (added by injector, previous binding at " +:+ position prevPos +:+
      ")"
  | ErrBindingImportedBy pos t from prevPos =>
      position pos +:+ ": multiple bindings for " +:+ types.TypeString t +:+
      " (imported by " +:+ refString quote from +:+
      ", previous binding at " +:+ position prevPos +:+ ")"
  | ErrNoSuchProviderSet name importPath =>
      "no such provider set " +:+ name +:+ " in package " +:+
      quote importPath
  | ErrPackageNotFound path => "package " +:+ quote path +:+ " not found"
  | ErrAnalyzePackage e' =>
      "analyze package: " +:+ errorString position quote e'
  | ErrAt pos e' => position pos +:+ ": " +:+ errorString position quote e'
  | ErrFront msg => msg
  end.

(** ** The index of provider sets

    [mc_prog] is what [getpkg] and [findProviderSets] report for each
    package path of the loaded program: nothing when the package is not
    part of it, the error of [findProviderSets], or the provider sets the
    package declares, by name.  [providerSetCache.get] memoises exactly
    this, and its first error ends the run, so within a run it answers as
    the function [get] below. *)
Record providerSetCache : Type := {
  mc_prog : gmap string (error + gmap string providerSet);
  mc_fset : Pos -> string
}.

Definition get (mc : providerSetCache) (ref : providerSetRef)
    : result providerSet :=
  match mc_prog mc !! ref_importPath ref with
  | None => Err (ErrAnalyzePackage (ErrPackageNotFound (ref_importPath ref)))
  | Some (inl e) => Err e
  | Some (inr mods) =>
      match mods !! ref_name ref with
      | None => Err (ErrNoSuchProviderSet (ref_name ref) (ref_importPath ref))
      | Some mod_ => Ok mod_
      end
  end.

(** ** buildProviderMap *)

Record nextEnt : Type := {
  ent_to : providerSetRef;
  ent_from : providerSetRef;
  ent_pos : Pos
}.

(** The zero value of [providerSetRef], which [nextEnt{to: ref}] leaves in
    [from]. *)
Definition noRef : providerSetRef :=
  {| ref_importPath := EmptyString; ref_name := EmptyString |}.

(** The loop over [mod.providers]. *)
Fixpoint addProviders (curr : nextEnt) (pm : typeutil.Map providerInfo)
    (ps : list providerInfo) : result (typeutil.Map providerInfo) :=
  match ps with
  | [] => Ok pm
  | p :: ps' =>
      match typeutil.At pm (provider_out p) with
      | Some prev =>
          if bool_decide (ref_importPath (ent_from curr) ≠ EmptyString)
          then Err (ErrBindingAddedByInjector (provider_pos p)
                      (provider_out p) (provider_pos prev))
          else Err (ErrBindingImportedBy (provider_pos p) (provider_out p)
                      (ent_from curr) (provider_pos prev))
      | None => addProviders curr (typeutil.Set' pm (provider_out p) p) ps'
      end
  end.

(** The queue entries for [mod.imports]. *)
Definition importEntries (curr : nextEnt) (mod_ : providerSet) : list nextEnt :=
  map (fun imp => {| ent_to := import_ref imp; ent_from := ent_to curr;
                     ent_pos := import_pos imp |}) (set_imports mod_).

(** The loop [for len(next) > 0]; one unit of fuel for each test of its
    condition.  [visited] is kept in the order of insertion: an entry is
    added right before the one call of [mc.get] for it.  The loop answers
    with the final [visited] next to its outcome. *)
Fixpoint buildProviderMap_loop (fuel : nat) (mc : providerSetCache)
    (pm : typeutil.Map providerInfo) (visited : list providerSetRef)
    (next : list nextEnt)
    : option (list providerSetRef * result (typeutil.Map providerInfo)) :=
  match fuel with
  | O => None
  | S fuel' =>
      match next with
      | [] => Some (visited, Ok pm)
      | curr :: next' =>
          if bool_decide (ent_to curr ∈ visited)
          then buildProviderMap_loop fuel' mc pm visited next'
          else
            let visited' := visited ++ [ent_to curr] in
            match get mc (ent_to curr) with
            | Ok mod_ =>
                match addProviders curr pm (set_providers mod_) with
                | Ok pm' =>
                    buildProviderMap_loop fuel' mc pm' visited'
                      (next' ++ importEntries curr mod_)
                | Err e => Some (visited', Err e)
                | Panic msg => Some (visited', Panic msg)
                end
            | Err e =>
                Some (visited',
                      if IsValid (ent_pos curr) then Err (ErrAt (ent_pos curr) e)
                      else Err e)
            | Panic msg => Some (visited', Panic msg)
            end
      end
  end.

(** All provider sets of the program, with their references. *)
Definition allSets (mc : providerSetCache)
    : list (providerSetRef * providerSet) :=
  flat_map
    (fun '(path, r) =>
       match r with
       | inl _ => []
       | inr mods =>
           map (fun '(name, mod_) =>
                  ({| ref_importPath := path; ref_name := name |}, mod_))
             (map_to_list mods)
       end)
    (map_to_list (mc_prog mc)).

Definition importWeight (l : list (providerSetRef * providerSet)) : nat :=
  sum_list (map (fun rs => length (set_imports rs.2)) l).

(** Enough fuel for the loop: every root and every import directive of the
    program is queued at most once. *)
Definition buildProviderMap_fuel (mc : providerSetCache)
    (sets : list providerSetRef) : nat :=
  S (length sets + importWeight (allSets mc)).

Definition rootEntries (sets : list providerSetRef) : list nextEnt :=
  map (fun ref => {| ent_to := ref; ent_from := noRef; ent_pos := 0 |}) sets.

Definition buildProviderMap_run (mc : providerSetCache)
    (sets : list providerSetRef)
    : option (list providerSetRef * result (typeutil.Map providerInfo)) :=
  buildProviderMap_loop (buildProviderMap_fuel mc sets) mc [] []
    (rootEntries sets).

Definition buildProviderMap (mc : providerSetCache)
    (sets : list providerSetRef)
    : option (result (typeutil.Map providerInfo)) :=
  snd <$> buildProviderMap_run mc sets.

(** ** solve *)

(** The first loop of [solve]: the first given that is identical to an
    earlier one. *)
Fixpoint firstRepeated (earlier rest : list type) : option type :=
  match rest with
  | [] => None
  | g :: rest' =>
      if existsb (Identical g) earlier then Some g
      else firstRepeated (earlier ++ [g]) rest'
  end.

(** The second loop of [solve]: the givens take the first slots. *)
Fixpoint seedIndex (mc : providerSetCache)
    (providers : typeutil.Map providerInfo) (index : typeutil.Map Z)
    (i : Z) (given : list type) : result (typeutil.Map Z) :=
  match given with
  | [] => Ok index
  | g :: given' =>
      match typeutil.At providers g with
      | Some pp =>
          Err (ErrInputConflicts g (provider_funcName pp) (provider_pos pp))
      | None => seedIndex mc providers (typeutil.Set' index g i) (i + 1) given'
      end
  end.

(** The variables the closure [visit] shares with [solve]. *)
Record solveState : Type := {
  st_index : typeutil.Map Z;
  st_calls : list call
}.

(** The loop [for _, a := range p.args] of [visit]. *)
Fixpoint visitArgs (visit : list type -> solveState -> option (result solveState))
    (trail : list type) (args : list type) (st : solveState)
    : option (result solveState) :=
  match args with
  | [] => Some (Ok st)
  | a :: args' =>
      match visit (trail ++ [a]) st with
      | Some (Ok st') => visitArgs visit trail args' st'
      | other => other
      end
  end.

(** The loop that fills [args]; the type assertion [.(int)] panics on a
    type that has no slot. *)
Fixpoint argSlots (index : typeutil.Map Z) (args : list type)
    : result (list Z) :=
  match args with
  | [] => Ok []
  | a :: args' =>
      match typeutil.At index a with
      | None => Panic "interface conversion: interface {} is nil, not int"
      | Some i =>
          match argSlots index args' with
          | Ok l => Ok (i :: l)
          | Err e => Err e
          | Panic msg => Panic msg
          end
      end
  end.

(** The closure [visit]; one unit of fuel for each nested call.  A call on
    [append(trail, a)] reads its own trail only, so that the backing array
    two sibling calls may share is of no consequence. *)
Fixpoint visit (fuel : nat) (providers : typeutil.Map providerInfo)
    (ngiven : Z) (trail : list type) (st : solveState)
    : option (result solveState) :=
  match fuel with
  | O => None
  | S fuel' =>
      match last trail with
      | None => Some (Panic "index out of range")
      | Some typ =>
          match typeutil.At (st_index st) typ with
          | Some _ => Some (Ok st)
          | None =>
              if existsb (Identical typ) (removelast trail)
              then Some (Err (ErrCycle typ))
              else
                match typeutil.At providers typ with
                | None =>
                    if bool_decide (length trail = 1%nat)
                    then Some (Err (ErrNoProviderOutput typ))
                    else
                      match trail !! (length trail - 2)%nat with
                      | Some parent =>
                          Some (Err (ErrNoProviderRequired typ parent))
                      | None => Some (Panic "index out of range")
                      end
                | Some p =>
                    match visitArgs (visit fuel' providers ngiven) trail
                            (provider_args p) st with
                    | Some (Ok st') =>
                        match argSlots (st_index st') (provider_args p) with
                        | Ok args =>
                            Some (Ok
                              {| st_index :=
                                   typeutil.Set' (st_index st') typ
                                     (ngiven + Z.of_nat (length (st_calls st')));
                                 st_calls :=
                                   st_calls st' ++
                                   [{| call_importPath := provider_importPath p;
                                       call_funcName := provider_funcName p;
                                       call_args := args;
                                       call_out := typ;
                                       call_hasErr := provider_hasErr p |}]
                              |})
                        | Err e => Some (Err e)
                        | Panic msg => Some (Panic msg)
                        end
                    | other => other
                    end
                end
          end
      end
  end.

(** The resolution that follows the two checks of the givens. *)
Definition resolve (providers : typeutil.Map providerInfo)
    (given : list type) (index0 : typeutil.Map Z) (out : type)
    : option (result (list call)) :=
  match visit (S (length providers)) providers (Z.of_nat (length given))
          [out] {| st_index := index0; st_calls := [] |} with
  | None => None
  | Some (Ok st) => Some (Ok (st_calls st))
  | Some (Err e) => Some (Err e)
  | Some (Panic msg) => Some (Panic msg)
  end.

Definition solve (mc : providerSetCache) (out : type) (given : list type)
    (sets : list providerSetRef) : option (result (list call)) :=
  match firstRepeated [] given with
  | Some g => Some (Err (ErrMultipleInputs g))
  | None =>
      match buildProviderMap mc sets with
      | None => None
      | Some (Err e) => Some (Err e)
      | Some (Panic msg) => Some (Panic msg)
      | Some (Ok providers) =>
          match seedIndex mc providers [] 0 given with
          | Err e => Some (Err e)
          | Panic msg => Some (Panic msg)
          | Ok index0 => resolve providers given index0 out
          end
      end
  end.

(** ** The generator *)

Record gen : Type := {
  gen_currPackage : string;
  gen_buf : string;
  gen_imports : gmap string string;
  gen_n : Z
}.

Definition newGen (pkg : string) : gen :=
  {| gen_currPackage := pkg; gen_buf := EmptyString; gen_imports := ∅;
     gen_n := 0 |}.

(** A method of [*gen] changes the generator and answers, fails or
    panics. *)
Definition M (A : Type) : Type := gen -> gen * result A.

Definition ret {A : Type} (a : A) : M A := fun g => (g, Ok a).

Definition panic {A : Type} (msg : string) : M A := fun g => (g, Panic msg).

Definition bind {A B : Type} (m : M A) (k : A -> M B) : M B :=
  fun g =>
    match m g with
    | (g', Ok a) => k a g'
    | (g', Err e) => (g', Err e)
    | (g', Panic msg) => (g', Panic msg)
    end.

Notation "'let*' x ':=' m 'in' k" := (bind m (fun x => k))
  (at level 10, x name, m at level 100, k at level 200, only parsing).

(** [g.p], on the text [fmt] has formatted. *)
Definition p (s : string) : M unit :=
  fun g =>
    ({| gen_currPackage := gen_currPackage g;
        gen_buf := gen_buf g +:+ s;
        gen_imports := gen_imports g;
        gen_n := gen_n g |}, Ok tt).

(** A missing key of a Go map reads as the zero value. *)
Definition importName (g : gen) (path : string) : string :=
  default EmptyString (gen_imports g !! path).

Definition qualifyImport (path : string) : M string :=
  fun g =>
    if bool_decide (path = gen_currPackage g) then (g, Ok EmptyString)
    else if bool_decide (importName g path ≠ EmptyString)
    then (g, Ok (importName g path))
    else
      let name := "pkg" +:+ itoa (gen_n g) in
      ({| gen_currPackage := gen_currPackage g;
          gen_buf := gen_buf g;
          gen_imports := <[path := name]> (gen_imports g);
          gen_n := gen_n g + 1 |}, Ok name).

(** [g.qualifyPkg]; a package is its path. *)
Definition qualifyPkg (path : string) : M string := qualifyImport path.

Definition qualifiedID (path sym : string) : M string :=
  let* name := qualifyImport path in
  if bool_decide (name = EmptyString) then ret sym
  else ret (name +:+ "." +:+ sym).

(** [types.TypeString t qf] for a qualifier that is a method of the
    generator: the qualifier is asked in the order of writing. *)
Fixpoint writePieces (qf : string -> M string) (ps : list types.piece)
    : M string :=
  match ps with
  | [] => ret EmptyString
  | types.Lit s :: r =>
      let* rest := writePieces qf r in
      ret (s +:+ rest)
  | types.Pkg path :: r =>
      let* name := qf path in
      let* rest := writePieces qf r in
      ret ((if bool_decide (name = EmptyString) then EmptyString
            else name +:+ ".") +:+ rest)
  end.

Definition TypeString_qf (t : type) (qf : string -> M string) : M string :=
  writePieces qf (types.typePieces t).

Definition zeroValue (t : type) (qf : string -> M string) : M string :=
  match types.Underlying t with
  | types.Array _ _ | types.Struct _ =>
      let* s := TypeString_qf t qf in
      ret (s +:+ "{}")
  | types.Basic k =>
      let info := types.Info k in
      if negb (Z.land info types.IsBoolean =? 0) then ret "false"
      else if negb (Z.land info
                      (Z.lor (Z.lor types.IsInteger types.IsFloat)
                         types.IsComplex) =? 0)
      then ret "0"
      else if negb (Z.land info types.IsString =? 0) then ret (dq +:+ dq)
      else panic "unreachable"
  | types.Chan _ _ | types.Interface _ | types.Map _ _ | types.Pointer _
  | types.Signature _ _ _ | types.Slice _ => ret "nil"
  | _ => panic "unreachable"
  end.

(** A [*types.Var] of a signature. *)
Record var : Type := {
  var_name : string;
  var_type : type
}.

(** The signature of an injector function. *)
Record signature : Type := {
  sig_params : list var;
  sig_results : list var
}.

(** The [switch results.Len()] of [inject]: an error, or [returnsErr]. *)
Definition checkResults (name : string) (results : list var) : result bool :=
  match results with
  | [] => Err (ErrNoReturnValues name)
  | [_] => Ok false
  | [_; r1] =>
      if Identical (var_type r1) types.errorType then Ok true
      else Err (ErrSecondReturnType name (var_type r1))
  | _ => Err (ErrTooManyReturnValues name)
  end.

(** The loop of [inject] that looks for a call that may fail. *)
Fixpoint checkCalls (name : string) (returnsErr : bool) (calls : list call)
    : result unit :=
  match calls with
  | [] => Ok tt
  | c :: calls' =>
      if call_hasErr c && negb returnsErr
      then Err (ErrProviderReturnsError name (call_out c))
      else checkCalls name returnsErr calls'
  end.

(** The loop that writes the parameters, from index [i] on. *)
Fixpoint emitParams (i : Z) (params : list var) : M unit :=
  match params with
  | [] => ret tt
  | pi :: params' =>
      let* _ := if 0 <? i then p ", " else ret tt in
      let* ts := TypeString_qf (var_type pi) qualifyPkg in
      let* _ := p (var_name pi +:+ " " +:+ ts) in
      emitParams (i + 1) params'
  end.

(** The loop that writes the arguments of a call, from index [j] on. *)
Fixpoint emitArgs (params : list var) (j : Z) (args : list Z) : M unit :=
  match args with
  | [] => ret tt
  | a :: args' =>
      let* _ := if 0 <? j then p ", " else ret tt in
      let* _ :=
        if a <? Z.of_nat (length params)
        then
          if a <? 0 then panic "index out of range"
          else
            match params !! Z.to_nat a with
            | Some pa => p (var_name pa)
            | None => panic "index out of range"
            end
        else p ("v" +:+ itoa (a - Z.of_nat (length params))) in
      emitArgs params (j + 1) args'
  end.

(** The loop that writes the calls, from index [i] on. *)
Fixpoint emitCalls (params : list var) (zv : string) (i : Z)
    (calls : list call) : M unit :=
  match calls with
  | [] => ret tt
  | c :: calls' =>
      let* _ := p (tab +:+ "v" +:+ itoa i) in
      let* _ := if call_hasErr c then p ", err" else ret tt in
      let* id := qualifiedID (call_importPath c) (call_funcName c) in
      let* _ := p (" := " +:+ id +:+ "(") in
      let* _ := emitArgs params 0 (call_args c) in
      let* _ := p (")" +:+ nl) in
      let* _ :=
        if call_hasErr c
        then
          let* _ := p (tab +:+ "if err != nil {" +:+ nl) in
          let* _ := p (tab +:+ tab +:+ "return " +:+ zv +:+ ", err" +:+ nl) in
          p (tab +:+ "}" +:+ nl)
        else ret tt in
      emitCalls params zv (i + 1) calls'
  end.

(** The loop that returns the given of the output type. *)
Fixpoint emitReturnGiven (outType : type) (params : list var) : M unit :=
  match params with
  | [] => ret tt
  | pi :: params' =>
      if Identical outType (var_type pi)
      then p (tab +:+ "return " +:+ var_name pi)
      else emitReturnGiven outType params'
  end.

(** [inject] from its first [g.p] on. *)
Definition emit (name : string) (params : list var) (outType : type)
    (returnsErr : bool) (calls : list call) : M unit :=
  let* _ := p ("func " +:+ name +:+ "(") in
  let* _ := emitParams 0 params in
  let* ts := TypeString_qf outType qualifyPkg in
  let* _ :=
    if returnsErr then p (") (" +:+ ts +:+ ", error) {" +:+ nl)
    else p (") " +:+ ts +:+ " {" +:+ nl) in
  let* zv := zeroValue outType qualifyPkg in
  let* _ := emitCalls params zv 0 calls in
  let* _ :=
    match calls with
    | [] => emitReturnGiven outType params
    | _ => p (tab +:+ "return v" +:+ itoa (Z.of_nat (length calls) - 1))
    end in
  let* _ := if returnsErr then p ", nil" else ret tt in
  p (nl +:+ "}" +:+ nl).

Definition inject (mc : providerSetCache) (name : string) (sig : signature)
    (sets : list providerSetRef) (g : gen) : option (gen * result unit) :=
  match checkResults name (sig_results sig) with
  | Err e => Some (g, Err e)
  | Panic msg => Some (g, Panic msg)
  | Ok returnsErr =>
      match sig_results sig with
      | [] => Some (g, Panic "index out of range")
      | r0 :: _ =>
          let outType := var_type r0 in
          let given := map var_type (sig_params sig) in
          match solve mc outType given sets with
          | None => None
          | Some (Err e) => Some (g, Err e)
          | Some (Panic msg) => Some (g, Panic msg)
          | Some (Ok calls) =>
              match checkCalls name returnsErr calls with
              | Err e => Some (g, Err e)
              | Panic msg => Some (g, Panic msg)
              | Ok _ =>
                  Some (emit name (sig_params sig) outType returnsErr calls g)
              end
          end
      end
  end.

(** An injector function of the package: its name and position, its
    signature and the provider sets its [use] directives name. *)
Record injector : Type := {
  inj_name : string;
  inj_pos : Pos;
  inj_sig : signature;
  inj_sets : list providerSetRef
}.

(** The loop of [Generate] over the injector functions, on the one
    generator [g] of the run; the first error ends it. *)
Fixpoint Generate_loop (mc : providerSetCache) (fns : list injector)
    (g : gen) : option (gen * result unit) :=
  match fns with
  | [] => Some (g, Ok tt)
  | fn :: fns' =>
      match inject mc (inj_name fn) (inj_sig fn) (inj_sets fn) g with
      | None => None
      | Some (g', Ok _) => Generate_loop mc fns' g'
      | Some (g', Err e) => Some (g', Err (ErrAt (inj_pos fn) e))
      | Some (g', Panic msg) => Some (g', Panic msg)
      end
  end.

(** ** The part of package strings the front end uses

    A Go string is its sequence of bytes; a missing index is [None] where
    Go answers [-1]. *)

Module Strings.

Fixpoint IndexByte (s : string) (c : ascii) : option nat :=
  match s with
  | EmptyString => None
  | String a s' =>
      if Ascii.eqb a c then Some 0%nat else S <$> IndexByte s' c
  end.

Fixpoint LastIndexByte (s : string) (c : ascii) : option nat :=
  match s with
  | EmptyString => None
  | String a s' =>
      match LastIndexByte s' c with
      | Some i => Some (S i)
      | None => if Ascii.eqb a c then Some 0%nat else None
      end
  end.

Definition HasPrefix (s prefix : string) : bool := String.prefix prefix s.

(** [s[:n]] and [s[n:]], for [n] within the length of [s]. *)
Fixpoint take (n : nat) (s : string) : string :=
  match n, s with
  | S n', String a s' => String a (take n' s')
  | _, _ => EmptyString
  end.

Fixpoint drop (n : nat) (s : string) : string :=
  match n, s with
  | S n', String _ s' => drop n' s'
  | _, _ => s
  end.

(** [TrimLeft] for a cutset of ASCII characters. *)
Fixpoint TrimLeft (s cutset : string) : string :=
  match s with
  | EmptyString => EmptyString
  | String a s' =>
      match IndexByte cutset a with
      | Some _ => TrimLeft s' cutset
      | None => s
      end
  end.

(** [Contains]. *)
Definition Contains (s substr : string) : bool :=
  match String.index 0 substr s with
  | Some _ => true
  | None => false
  end.

End Strings.

(** ** Directives *)

Record directive : Type := {
  dir_pos : Pos;
  dir_kind : string;
  dir_line : string
}.

(** A comment group, by its text and its position. *)
Record commentGroup : Type := {
  cg_text : string;
  cg_pos : Pos
}.

Definition space : ascii := ascii_of_nat 32.
Definition newline : ascii := ascii_of_nat 10.
Definition dot : ascii := ascii_of_nat 46.

(** The cutset of [extractDirectives]: space, tab, carriage return and
    newline. *)
Definition blanks : string :=
  String space
    (String (ascii_of_nat 9)
       (String (ascii_of_nat 13) (String newline EmptyString))).

Definition directivePrefix : string := "goose:".

(** The loop of [extractDirectives]; one unit of fuel for each test of its
    condition.  [TrimSpace] is [strings.TrimSpace]. *)
Fixpoint extractDirectives_loop (TrimSpace : string -> string) (fuel : nat)
    (d : list directive) (text : string) (pos : Pos)
    : option (list directive) :=
  match fuel with
  | O => None
  | S fuel' =>
      if bool_decide (text = EmptyString) then Some d
      else
        let text := Strings.TrimLeft text blanks in
        if negb (Strings.HasPrefix text directivePrefix) then Some d
        else
          let line := Strings.drop (String.length directivePrefix) text in
          let '(line, text) :=
            match Strings.IndexByte line newline with
            | Some i => (Strings.take i line, Strings.drop (i + 1) line)
            | None => (line, EmptyString)
            end in
          let d :=
            match Strings.IndexByte line space with
            | Some i =>
                d ++ [{| dir_pos := pos;
                         dir_kind := Strings.take i line;
                         dir_line := TrimSpace (Strings.drop (i + 1) line) |}]
            | None =>
                d ++ [{| dir_pos := pos; dir_kind := line;
                         dir_line := EmptyString |}]
            end in
          extractDirectives_loop TrimSpace fuel' d text pos
  end.

Definition extractDirectives (TrimSpace : string -> string)
    (d : list directive) (cg : commentGroup) : option (list directive) :=
  extractDirectives_loop TrimSpace (S (String.length (cg_text cg))) d
    (cg_text cg) (cg_pos cg).

(** ** parseProviderSetRef *)

(** What a scope finds for an identifier: the name of an imported package,
    or another object. *)
Inductive object : Type :=
| PkgName (importedPath : string)
| OtherObject.

(** A scope, by its [LookupParent]; on the nil scope it finds nothing. *)
Definition Scope : Type := string -> Pos -> option object.

Definition LookupParent (s : option Scope) (name : string) (pos : Pos)
    : option object :=
  match s with
  | Some lookup => lookup name pos
  | None => None
  end.

(** The errors of the front end. *)
Inductive frontError : Type :=
| FErrBadImportPath (ref : string)
| FErrUnknownIdentifier (ref imp : string)
| FErrNotAPackage (ref imp : string)
| FErrNoScope (file : string)
| FErrAt (pos : Pos) (e : frontError)
| FErrNotImported (pos : Pos) (name path : string)
| FErrUnknownDirective (pos : Pos) (kind : string)
| FErrMultipleProvide (pos : Pos) (funcName : string)
| FErrNotFunction (pos : Pos)
| FErrSecondReturn (pos : Pos) (funcName : string)
| FErrWrongSignature (pos : Pos) (funcName : string)
| FErrMultipleParams (pos : Pos) (t : type)
| FErrMultipleProviders (pos : Pos) (setName : string) (t : type)
    (prevPos : Pos)
| FErrCannotUse (pos : Pos) (kind : string).

Inductive fresult (A : Type) : Type :=
| FOk (a : A)
| FErr (e : frontError)
| FPanic (msg : string).

Arguments FOk {A} a.
Arguments FErr {A} e.
Arguments FPanic {A} msg.

(** [Unquote] is [strconv.Unquote], [None] when it fails. *)
Definition parseProviderSetRef (Unquote : string -> option string)
    (ref : string) (s : option Scope) (pkg : string) (pos : Pos)
    : fresult providerSetRef :=
  match Strings.LastIndexByte ref dot with
  | None => FOk {| ref_importPath := pkg; ref_name := ref |}
  | Some i =>
      let imp := Strings.take i ref in
      let name := Strings.drop (i + 1) ref in
      if Strings.HasPrefix imp dq then
        match Unquote imp with
        | None => FErr (FErrBadImportPath ref)
        | Some path => FOk {| ref_importPath := path; ref_name := name |}
        end
      else
        match LookupParent s imp pos with
        | None => FErr (FErrUnknownIdentifier ref imp)
        | Some (PkgName path) =>
            FOk {| ref_importPath := path; ref_name := name |}
        | Some OtherObject => FErr (FErrNotAPackage ref imp)
        end
  end.

(** ** findProviderSets *)

(** A function declaration: its name, its position and the signature the
    type checker has for it. *)
Record funcDecl : Type := {
  fn_name : string;
  fn_pos : Pos;
  fn_sig : signature
}.

(** A declaration of a file: the comment groups the comment map has for it
    and, when it is a function declaration, the function. *)
Record decl : Type := {
  decl_comments : list commentGroup;
  decl_func : option funcDecl
}.

Record file : Type := {
  file_name : string;
  file_scope : option Scope;
  file_comments : list commentGroup;
  file_decls : list decl
}.

(** A type-checked package. *)
Record package : Type := {
  pkg_path : string;
  pkg_name : string;
  pkg_imports : list string;
  pkg_files : list file
}.

Definition implicitModuleName : string := "Module".

(** The front end ends with a value, an error or a panic, or runs out of
    fuel. *)
Definition front (A : Type) : Type := option (fresult A).

Definition fbind {A B : Type} (m : front A) (k : A -> front B) : front B :=
  match m with
  | Some (FOk a) => k a
  | Some (FErr e) => Some (FErr e)
  | Some (FPanic msg) => Some (FPanic msg)
  | None => None
  end.

Notation "'let+' x ':=' m 'in' k" := (fbind m (fun x => k))
  (at level 10, x name, m at level 100, k at level 200, only parsing).

(** A loop [for _, x := range l] over a state, left at the first error. *)
Fixpoint forEach {A S : Type} (f : S -> A -> front S) (l : list A) (s : S)
    : front S :=
  match l with
  | [] => Some (FOk s)
  | x :: l' => let+ s' := f s x in forEach f l' s'
  end.

(** The directives of the comment groups of a declaration. *)
Fixpoint extractAll (TrimSpace : string -> string) (d : list directive)
    (cgs : list commentGroup) : option (list directive) :=
  match cgs with
  | [] => Some d
  | cg :: cgs' =>
      match extractDirectives TrimSpace d cg with
      | Some d' => extractAll TrimSpace d' cgs'
      | None => None
      end
  end.

(** The case ["import"] of the first loop over the directives. *)
Definition importDirective (Unquote : string -> option string)
    (pkg : package) (f : file) (sets : gmap string providerSet)
    (d : directive) : fresult (gmap string providerSet) :=
  match file_scope f with
  | None => FErr (FErrNoScope (file_name f))
  | Some _ =>
      let '(name, spec) :=
        if Strings.HasPrefix (dir_line d) dq
        then (implicitModuleName, dir_line d)
        else
          match Strings.IndexByte (dir_line d) space with
          | Some i =>
              (Strings.take i (dir_line d), Strings.drop (i + 1) (dir_line d))
          | None => (implicitModuleName, dir_line d)
          end in
      match parseProviderSetRef Unquote spec (file_scope f) (pkg_path pkg)
              (dir_pos d) with
      | FErr e => FErr (FErrAt (dir_pos d) e)
      | FPanic msg => FPanic msg
      | FOk ref =>
          if bool_decide (ref_importPath ref ≠ pkg_path pkg) &&
             negb (bool_decide (ref_importPath ref ∈ pkg_imports pkg))
          then FErr (FErrNotImported (dir_pos d) name (ref_importPath ref))
          else
            match sets !! name with
            | Some mod_ =>
                if bool_decide (ref ∈ import_ref <$> set_imports mod_)
                then FOk sets
                else
                  FOk (<[name :=
                           {| set_providers := set_providers mod_;
                              set_imports :=
                                set_imports mod_ ++
                                [{| import_ref := ref;
                                    import_pos := dir_pos d |}] |}]> sets)
            | None =>
                FOk (<[name :=
                         {| set_providers := [];
                            set_imports :=
                              [{| import_ref := ref;
                                  import_pos := dir_pos d |}] |}]> sets)
            end
      end
  end.

(** The [switch d.kind] of the first loop. *)
Definition fileDirective (Unquote : string -> option string)
    (pkg : package) (f : file) (sets : gmap string providerSet)
    (d : directive) : front (gmap string providerSet) :=
  if bool_decide (dir_kind d = "provide") || bool_decide (dir_kind d = "use")
  then Some (FOk sets)
  else if bool_decide (dir_kind d = "import")
  then Some (importDirective Unquote pkg f sets d)
  else Some (FErr (FErrUnknownDirective (dir_pos d) (dir_kind d))).

(** The body of the loop over [f.Comments]. *)
Definition fileComment (TrimSpace : string -> string)
    (Unquote : string -> option string) (pkg : package) (f : file)
    (sets : gmap string providerSet) (c : commentGroup)
    : front (gmap string providerSet) :=
  match extractDirectives TrimSpace [] c with
  | None => None
  | Some directives => forEach (fileDirective Unquote pkg f) directives sets
  end.

(** The body of the loop that finds the name of the provider set of a
    declaration. *)
Definition provideDirective (fn : option funcDecl) (providerSetName : string)
    (d : directive) : front string :=
  if negb (bool_decide (dir_kind d = "provide")) then Some (FOk providerSetName)
  else if negb (bool_decide (providerSetName = EmptyString))
  then
    match fn with
    | Some fd => Some (FErr (FErrMultipleProvide (dir_pos d) (fn_name fd)))
    | None => Some (FPanic "nil pointer dereference")
    end
  else
    match fn with
    | None => Some (FErr (FErrNotFunction (dir_pos d)))
    | Some _ =>
        if bool_decide (dir_line d = EmptyString)
        then Some (FOk implicitModuleName)
        else Some (FOk (dir_line d))
    end.

(** The loops over the parameters: the earlier parameter that a later one
    repeats. *)
Fixpoint repeatedParam (earlier rest : list type) : option type :=
  match rest with
  | [] => None
  | g :: rest' =>
      match find (fun h => Identical g h) earlier with
      | Some h => Some h
      | None => repeatedParam (earlier ++ [g]) rest'
      end
  end.

(** The provider a function declares. *)
Definition providerOf (pkg : package) (fn : funcDecl) : fresult providerInfo :=
  let r := sig_results (fn_sig fn) in
  let hasErr :=
    match r with
    | [_] => FOk false
    | [_; r1] =>
        if Identical (var_type r1) types.errorType then FOk true
        else FErr (FErrSecondReturn (fn_pos fn) (fn_name fn))
    | _ => FErr (FErrWrongSignature (fn_pos fn) (fn_name fn))
    end in
  match hasErr with
  | FErr e => FErr e
  | FPanic msg => FPanic msg
  | FOk hasErr =>
      match r with
      | [] => FPanic "index out of range"
      | r0 :: _ =>
          let args := map var_type (sig_params (fn_sig fn)) in
          match repeatedParam [] args with
          | Some t => FErr (FErrMultipleParams (fn_pos fn) t)
          | None =>
              FOk {| provider_importPath := pkg_path pkg;
                     provider_funcName := fn_name fn;
                     provider_pos := fn_pos fn;
                     provider_args := args;
                     provider_out := var_type r0;
                     provider_hasErr := hasErr |}
          end
      end
  end.

(** The end of the loop over the declarations: the provider joins its
    set. *)
Definition addProvider (sets : gmap string providerSet)
    (providerSetName : string) (provider : providerInfo)
    : fresult (gmap string providerSet) :=
  match sets !! providerSetName with
  | Some mod_ =>
      match find (fun other =>
                    Identical (provider_out other) (provider_out provider))
              (set_providers mod_) with
      | Some other =>
          FErr (FErrMultipleProviders (provider_pos provider)
                  providerSetName (provider_out provider)
                  (provider_pos other))
      | None =>
          FOk (<[providerSetName :=
                   {| set_providers := set_providers mod_ ++ [provider];
                      set_imports := set_imports mod_ |}]> sets)
      end
  | None =>
      FOk (<[providerSetName :=
               {| set_providers := [provider]; set_imports := [] |}]> sets)
  end.

(** The body of the loop over [f.Decls]. *)
Definition fileDecl (TrimSpace : string -> string) (pkg : package)
    (sets : gmap string providerSet) (dc : decl)
    : front (gmap string providerSet) :=
  match extractAll TrimSpace [] (decl_comments dc) with
  | None => None
  | Some directives =>
      let+ providerSetName :=
        forEach (provideDirective (decl_func dc)) directives EmptyString in
      if bool_decide (providerSetName = EmptyString) then Some (FOk sets)
      else
        match decl_func dc with
        | None => Some (FPanic "nil pointer dereference")
        | Some fn =>
            match providerOf pkg fn with
            | FOk provider => Some (addProvider sets providerSetName provider)
            | FErr e => Some (FErr e)
            | FPanic msg => Some (FPanic msg)
            end
        end
  end.

(** The body of the loop over the files. *)
Definition fileSets (TrimSpace : string -> string)
    (Unquote : string -> option string) (pkg : package)
    (sets : gmap string providerSet) (f : file)
    : front (gmap string providerSet) :=
  let+ sets' :=
    forEach (fileComment TrimSpace Unquote pkg f) (file_comments f) sets in
  forEach (fileDecl TrimSpace pkg) (file_decls f) sets'.

Definition findProviderSets (TrimSpace : string -> string)
    (Unquote : string -> option string) (pkg : package)
    : front (gmap string providerSet) :=
  forEach (fileSets TrimSpace Unquote pkg) (pkg_files pkg) ∅.

(** ** frame *)

(** The order of [sort.Strings]. *)
Definition string_le (s1 s2 : string) : Prop := String.leb s1 s2 = true.

#[global] Instance string_le_dec (s1 s2 : string) : Decision (string_le s1 s2).
Proof. unfold string_le. apply _. Defined.

Definition sortStrings (l : list string) : list string :=
  merge_sort string_le l.

Definition frameHeader : string :=
  "// Code generated by goose. DO NOT EDIT." +:+ nl +:+ nl +:+
  "//+build !gooseinject" +:+ nl +:+ nl +:+ "package ".

(** The line of an import; [Quote] is [strconv.Quote], the [%q] of
    [fmt]. *)
Definition importLine (Quote : string -> string) (g : gen) (path : string)
    : string :=
  tab +:+ importName g path +:+ " " +:+ Quote path +:+ nl.

(** The import paths of the generator, sorted. *)
Definition framePaths (g : gen) : list string :=
  sortStrings (map_to_list (gen_imports g)).*1.

(** [frame] answers nothing ([nil]) for an empty buffer. *)
Definition frame (Quote : string -> string) (g : gen) (pkgName : string)
    : option string :=
  if bool_decide (gen_buf g = EmptyString) then None
  else
    Some (frameHeader +:+ pkgName +:+ nl +:+ nl +:+
          (if bool_decide (gen_imports g = ∅) then EmptyString
           else
             "import (" +:+ nl +:+
             String.concat EmptyString
               (map (importLine Quote g) (framePaths g)) +:+
             ")" +:+ nl +:+ nl) +:+
          gen_buf g).

(** ** Generate *)

Definition isInjectFile (f : file) : bool :=
  existsb (fun cg =>
             Strings.HasPrefix (cg_text cg) "+build" &&
             Strings.Contains (cg_text cg) "gooseinject")
    (file_comments f).

(** The errors of [Generate]: one of the directives of an injector, or
    one of [inject]. *)
Inductive genError : Type :=
| GFront (e : frontError)
| GInject (e : error).

Inductive gresult (A : Type) : Type :=
| GOk (a : A)
| GErr (e : genError)
| GPanic (msg : string).

Arguments GOk {A} a.
Arguments GErr {A} e.
Arguments GPanic {A} msg.

(** The body of the loop over the directives of an injector. *)
Definition useDirective (Unquote : string -> option string)
    (currPackage : string) (fileScope : option Scope)
    (sets : list providerSetRef) (d : directive)
    : front (list providerSetRef) :=
  if negb (bool_decide (dir_kind d = "use"))
  then Some (FErr (FErrCannotUse (dir_pos d) (dir_kind d)))
  else
    match parseProviderSetRef Unquote (dir_line d) fileScope currPackage
            (dir_pos d) with
    | FOk ref => Some (FOk (sets ++ [ref]))
    | FErr e => Some (FErr (FErrAt (dir_pos d) e))
    | FPanic msg => Some (FPanic msg)
    end.

(** The provider sets an injector function names. *)
Definition injectorOf (TrimSpace : string -> string)
    (Unquote : string -> option string) (currPackage : string) (f : file)
    (dc : decl) (fn : funcDecl) : front injector :=
  match extractAll TrimSpace [] (decl_comments dc) with
  | None => None
  | Some directives =>
      let+ sets :=
        forEach (useDirective Unquote currPackage (file_scope f))
          directives [] in
      Some (FOk {| inj_name := fn_name fn; inj_pos := fn_pos fn;
                   inj_sig := fn_sig fn; inj_sets := sets |})
  end.

(** The body of the loop over [f.Decls]. *)
Definition Generate_decl (TrimSpace : string -> string)
    (Unquote : string -> option string) (mc : providerSetCache) (f : file)
    (g : gen) (dc : decl) : option (gresult gen) :=
  match decl_func dc with
  | None => Some (GOk g)
  | Some fn =>
      match injectorOf TrimSpace Unquote (gen_currPackage g) f dc fn with
      | None => None
      | Some (FErr e) => Some (GErr (GFront e))
      | Some (FPanic msg) => Some (GPanic msg)
      | Some (FOk inj) =>
          match inject mc (inj_name inj) (inj_sig inj) (inj_sets inj) g with
          | None => None
          | Some (g', Ok _) => Some (GOk g')
          | Some (_, Err e) => Some (GErr (GInject (ErrAt (inj_pos inj) e)))
          | Some (_, Panic msg) => Some (GPanic msg)
          end
      end
  end.

Fixpoint Generate_decls (TrimSpace : string -> string)
    (Unquote : string -> option string) (mc : providerSetCache) (f : file)
    (dcs : list decl) (g : gen) : option (gresult gen) :=
  match dcs with
  | [] => Some (GOk g)
  | dc :: dcs' =>
      match Generate_decl TrimSpace Unquote mc f g dc with
      | Some (GOk g') => Generate_decls TrimSpace Unquote mc f dcs' g'
      | other => other
      end
  end.

Fixpoint Generate_files (TrimSpace : string -> string)
    (Unquote : string -> option string) (mc : providerSetCache)
    (fs : list file) (g : gen) : option (gresult gen) :=
  match fs with
  | [] => Some (GOk g)
  | f :: fs' =>
      if negb (isInjectFile f)
      then Generate_files TrimSpace Unquote mc fs' g
      else
        match Generate_decls TrimSpace Unquote mc f (file_decls f) g with
        | Some (GOk g') => Generate_files TrimSpace Unquote mc fs' g'
        | other => other
        end
  end.

(** [Generate] from the loaded package on, up to the source [frame]
    gives; [format.Source] is not part of the model. *)
Definition Generate (TrimSpace : string -> string)
    (Unquote : string -> option string) (Quote : string -> string)
    (mc : providerSetCache) (pkg : package)
    : option (gresult (option string)) :=
  match Generate_files TrimSpace Unquote mc (pkg_files pkg)
          (newGen (pkg_path pkg)) with
  | None => None
  | Some (GOk g) => Some (GOk (frame Quote g (pkg_name pkg)))
  | Some (GErr e) => Some (GErr e)
  | Some (GPanic msg) => Some (GPanic msg)
  end.

(** * An example program *)

Module Example.

Definition tA : type := types.Named (Some "a") "A" (types.Struct []).
Definition tB : type :=
  types.Named (Some "b") "B" (types.Pointer (types.Basic types.Int)).
Definition tC : type := types.Named (Some "a") "C" (types.Basic types.Int).
Definition tX : type := types.Named (Some "c") "X" (types.Basic types.Bool).
Definition tY : type := types.Named (Some "c") "Y" (types.Basic types.Bool).
Definition tZ : type := types.Named (Some "c") "Z" (types.Slice tA).

Definition provider (path funcName : string) (pos : Pos) (args : list type)
    (out : type) (hasErr : bool) : providerInfo :=
  {| provider_importPath := path; provider_funcName := funcName;
     provider_pos := pos; provider_args := args; provider_out := out;
     provider_hasErr := hasErr |}.

Definition ref (path name : string) : providerSetRef :=
  {| ref_importPath := path; ref_name := name |}.

Definition import (path name : string) (pos : Pos) : providerSetImport :=
  {| import_ref := ref path name; import_pos := pos |}.

Definition NewA : providerInfo := provider "a" "NewA" 10 [] tA false.
Definition NewB : providerInfo := provider "b" "NewB" 20 [tA] tB true.
Definition NewC : providerInfo := provider "a" "NewC" 30 [tB; tA] tC false.
Definition NewX : providerInfo := provider "c" "NewX" 40 [tY] tX false.
Definition NewY : providerInfo := provider "c" "NewY" 50 [tX] tY false.
Definition NewZ : providerInfo := provider "c" "NewZ" 60 [] tZ false.
Definition OtherA : providerInfo := provider "c" "OtherA" 70 [] tA false.

(** Package [a] and package [b] import each other's set; package [c] has
    a set with a cycle of providers, a set that imports itself, and two
    sets with a second provider of [A]. *)
Definition mc : providerSetCache :=
  {| mc_prog :=
       {[ "a" := inr {[ "Module" :=
                          {| set_providers := [NewA; NewC];
                             set_imports := [import "b" "Module" 11] |} ]};
          "b" := inr {[ "Module" :=
                          {| set_providers := [NewB];
                             set_imports := [import "a" "Module" 21] |} ]};
          "c" := inr {[ "Loop" :=
                          {| set_providers := [NewX; NewY];
                             set_imports := [] |};
                        "Self" :=
                          {| set_providers := [NewZ];
                             set_imports := [import "c" "Self" 61] |};
                        "Dup" :=
                          {| set_providers := [OtherA];
                             set_imports := [] |};
                        "Imp" :=
                          {| set_providers := [OtherA];
                             set_imports := [import "a" "Module" 71] |} ]}
       ]};
     mc_fset := fun pos => "goose.go:" +:+ itoa pos |}.

Definition callOf (p : providerInfo) (args : list Z) : call :=
  {| call_importPath := provider_importPath p;
     call_funcName := provider_funcName p;
     call_args := args;
     call_out := provider_out p;
     call_hasErr := provider_hasErr p |}.

(** The plan for [C]. *)
Definition planC : list call :=
  [callOf NewA []; callOf NewB [0]; callOf NewC [1; 0]].

(** The catalog of the set [Module] of package [a]. *)
Definition catalog : typeutil.Map providerInfo :=
  [(tA, NewA); (tC, NewC); (tB, NewB)].

Definition result_ (t : type) : var :=
  {| var_name := EmptyString; var_type := t |}.

Definition param (name : string) (t : type) : var :=
  {| var_name := name; var_type := t |}.

(** [func injectC() (a.C, error)], [func mustC() a.C],
    [func injectA() a.A], [func injectZ() c.Z] and
    [func keep(p unsafe.Pointer) unsafe.Pointer]. *)
Definition injectC : injector :=
  {| inj_name := "injectC"; inj_pos := 100;
     inj_sig := {| sig_params := [];
                   sig_results := [result_ tC; result_ types.errorType] |};
     inj_sets := [ref "a" "Module"] |}.

Definition mustC : injector :=
  {| inj_name := "mustC"; inj_pos := 110;
     inj_sig := {| sig_params := []; sig_results := [result_ tC] |};
     inj_sets := [ref "a" "Module"] |}.

Definition injectA : injector :=
  {| inj_name := "injectA"; inj_pos := 120;
     inj_sig := {| sig_params := []; sig_results := [result_ tA] |};
     inj_sets := [ref "a" "Module"] |}.

Definition injectZ : injector :=
  {| inj_name := "injectZ"; inj_pos := 130;
     inj_sig := {| sig_params := []; sig_results := [result_ tZ] |};
     inj_sets := [ref "c" "Self"] |}.

Definition keep : injector :=
  {| inj_name := "keep"; inj_pos := 140;
     inj_sig :=
       {| sig_params := [param "p" (types.Basic types.UnsafePointer)];
          sig_results := [result_ (types.Basic types.UnsafePointer)] |};
     inj_sets := [] |}.

End Example.

(** A second program: the set [Needs] has a provider whose first parameter
    has no provider. *)
Module Example2.

Definition NewC : providerInfo :=
  Example.provider "d" "NewC" 30 [Example.tB; Example.tA] Example.tC false.

Definition mc : providerSetCache :=
  {| mc_prog :=
       {[ "d" := inr {[ "Needs" :=
                          {| set_providers := [NewC];
                             set_imports := [] |} ]} ]};
     mc_fset := fun pos => "goose.go:" +:+ itoa pos |}.

Definition catalog : typeutil.Map providerInfo := [(Example.tC, NewC)].

End Example2.

(** A third program, from source text: a package with two providers in the
    set [Module], and a file of injectors.  The stand-ins for
    [strings.TrimSpace], [strconv.Unquote] and [strconv.Quote] agree with
    them on the texts of the example. *)
Module Example3.

Fixpoint trimRight (s : string) : string :=
  match s with
  | EmptyString => EmptyString
  | String a s' =>
      match trimRight s' with
      | EmptyString =>
          match Strings.IndexByte blanks a with
          | Some _ => EmptyString
          | None => String a EmptyString
          end
      | t => String a t
      end
  end.

Definition trimSpace (s : string) : string :=
  trimRight (Strings.TrimLeft s blanks).

Definition quote (s : string) : string := dq +:+ s +:+ dq.

Definition unquote (s : string) : option string :=
  if Strings.HasPrefix s dq && (2 <=? String.length s)%nat
  then
    let body := Strings.drop 1 s in
    let n := (String.length body - 1)%nat in
    if bool_decide (Strings.drop n body = dq)
    then Some (Strings.take n body) else None
  else None.

Definition tFoo : type := types.Named (Some "main") "Foo" (types.Struct []).
Definition tBar : type :=
  types.Named (Some "main") "Bar" (types.Basic types.Int).

Definition group (text : string) (pos : Pos) : commentGroup :=
  {| cg_text := text; cg_pos := pos |}.

Definition NewFoo : funcDecl :=
  {| fn_name := "NewFoo"; fn_pos := 20;
     fn_sig := {| sig_params := []; sig_results := [Example.result_ tFoo] |} |}.

Definition NewBar : funcDecl :=
  {| fn_name := "NewBar"; fn_pos := 40;
     fn_sig := {| sig_params := [Example.param "foo" tFoo];
                  sig_results := [Example.result_ tBar;
                                  Example.result_ types.errorType] |} |}.

Definition injectBar : funcDecl :=
  {| fn_name := "injectBar"; fn_pos := 120;
     fn_sig := {| sig_params := [];
                  sig_results := [Example.result_ tBar;
                                  Example.result_ types.errorType] |} |}.

Definition docFoo : commentGroup :=
  group ("goose:provide" +:+ nl +:+ "NewFoo makes a Foo.") 10.
Definition docBar : commentGroup := group ("goose:provide Module" +:+ nl) 30.
Definition docInject : commentGroup := group ("goose:use Module" +:+ nl) 110.

Definition providersFile : file :=
  {| file_name := "foo.go";
     file_scope := Some (fun _ _ => None);
     file_comments := [docFoo; docBar];
     file_decls :=
       [{| decl_comments := [docFoo]; decl_func := Some NewFoo |};
        {| decl_comments := [docBar]; decl_func := Some NewBar |}] |}.

Definition injectFile : file :=
  {| file_name := "inject.go";
     file_scope := Some (fun _ _ => None);
     file_comments := [group ("+build gooseinject" +:+ nl) 100; docInject];
     file_decls :=
       [{| decl_comments := [docInject]; decl_func := Some injectBar |}] |}.

Definition pkg : package :=
  {| pkg_path := "main"; pkg_name := "main"; pkg_imports := [];
     pkg_files := [providersFile; injectFile] |}.

Definition providerFoo : providerInfo :=
  Example.provider "main" "NewFoo" 20 [] tFoo false.
Definition providerBar : providerInfo :=
  Example.provider "main" "NewBar" 40 [tFoo] tBar true.

(** The sets of the package. *)
Definition sets : gmap string providerSet :=
  {[ "Module" := {| set_providers := [providerFoo; providerBar];
                    set_imports := [] |} ]}.

Definition mc : providerSetCache :=
  {| mc_prog := {[ "main" := inr sets ]};
     mc_fset := fun pos => "goose.go:" +:+ itoa pos |}.

(** The plan for [Bar]. *)
Definition planBar : list call :=
  [Example.callOf providerFoo []; Example.callOf providerBar [0]].

(** The declaration of [NewBar] and its directive. *)
Definition declBar : decl :=
  {| decl_comments := [docBar]; decl_func := Some NewBar |}.
Definition provideBar : directive :=
  {| dir_pos := 30; dir_kind := "provide"; dir_line := "Module" |}.

(** The set of the package. *)
Definition module_ : providerSet :=
  {| set_providers := [providerFoo; providerBar]; set_imports := [] |}.

(** A reference to a set of another package, and its text. *)
Definition setRef : providerSetRef := Example.ref "example.com/p" "Set".
Definition setText : string := quote "example.com/p" +:+ ".Set".

End Example3.

(** A package [main] with two injectors over the sets of [Example.mc]:
    [injectC] uses the set [Module] of package [a], [injectZ] the set
    [Self] of package [c]. *)
Module Example4.

Definition useA : commentGroup :=
  Example3.group ("goose:use " +:+ Example3.quote "a" +:+ ".Module" +:+ nl) 99.
Definition useC : commentGroup :=
  Example3.group ("goose:use " +:+ Example3.quote "c" +:+ ".Self" +:+ nl) 129.

Definition injectC : funcDecl :=
  {| fn_name := "injectC"; fn_pos := 100;
     fn_sig := inj_sig Example.injectC |}.
Definition injectZ : funcDecl :=
  {| fn_name := "injectZ"; fn_pos := 130;
     fn_sig := inj_sig Example.injectZ |}.

Definition injectFile : file :=
  {| file_name := "inject.go";
     file_scope := Some (fun _ _ => None);
     file_comments :=
       [Example3.group ("+build gooseinject" +:+ nl) 1; useA; useC];
     file_decls :=
       [{| decl_comments := [useA]; decl_func := Some injectC |};
        {| decl_comments := []; decl_func := None |};
        {| decl_comments := [useC]; decl_func := Some injectZ |}] |}.

(** A file without the build tag, with an [import] directive. *)
Definition importA : commentGroup :=
  Example3.group
    ("goose:import Extra " +:+ Example3.quote "a" +:+ ".Module" +:+ nl) 5.
Definition importDir : directive :=
  {| dir_pos := 5; dir_kind := "import";
     dir_line := "Extra " +:+ Example3.quote "a" +:+ ".Module" |}.

Definition otherFile : file :=
  {| file_name := "main.go";
     file_scope := Some (fun _ _ => None);
     file_comments := [importA];
     file_decls := [{| decl_comments := []; decl_func := Some injectZ |}] |}.

Definition pkg : package :=
  {| pkg_path := "main"; pkg_name := "main"; pkg_imports := ["a"; "c"];
     pkg_files := [otherFile; injectFile] |}.

(** The sets of the package. *)
Definition sets : gmap string providerSet :=
  {[ "Extra" := {| set_providers := [];
                   set_imports := [Example.import "a" "Module" 5] |} ]}.

(** The source [Generate] gives for the package. *)
Definition source : option string :=
  Eval vm_compute in
    match Generate Example3.trimSpace Example3.unquote Example3.quote
            Example.mc pkg with
    | Some (GOk src) => src
    | _ => None
    end.

(** The generator at the end of the loop of [Generate]. *)
Definition generator : gen :=
  Eval vm_compute in
    match Generate_files Example3.trimSpace Example3.unquote Example.mc
            (pkg_files pkg) (newGen (pkg_path pkg)) with
    | Some (GOk g) => g
    | _ => newGen (pkg_path pkg)
    end.

End Example4.

(** * Specification *)

(** The namespace the arguments of a call index: the givens, then the
    outputs of the calls. *)
Definition slots (given : list type) (calls : list call) : list type :=
  given ++ (call_out <$> calls).

Definition slot (given : list type) (calls : list call) (a : Z)
    : option type :=
  if a <? 0 then None else slots given calls !! Z.to_nat a.

(** [index] is the inverse of [slot]. *)
Definition index_inv (given : list type) (st : solveState) : Prop :=
  forall t a,
    typeutil.At (st_index st) t = Some a <->
    slot given (st_calls st) a = Some t.

(** A call, with the calls before it, runs a provider of the catalog on
    the slots of the provider's argument types. *)
Definition call_ok (providers : typeutil.Map providerInfo)
    (given : list type) (prior : list call) (c : call) : Prop :=
  exists p,
    typeutil.At providers (call_out c) = Some p /\
    call_importPath c = provider_importPath p /\
    call_funcName c = provider_funcName p /\
    call_hasErr c = provider_hasErr p /\
    Forall2 (fun t a => slot given prior a = Some t)
      (provider_args p) (call_args c).

Definition plan_ok (providers : typeutil.Map providerInfo)
    (given : list type) (calls : list call) : Prop :=
  forall k c, calls !! k = Some c -> call_ok providers given (take k calls) c.

(** The invariant of the resolution. *)
Definition solve_inv (providers : typeutil.Map providerInfo)
    (given : list type) (st : solveState) : Prop :=
  index_inv given st /\ plan_ok providers given (st_calls st).

Definition extends (st st' : solveState) : Prop :=
  exists more, st_calls st' = st_calls st ++ more.

(** What a successful call of [visit] on [trail] establishes: the type it
    was called for has a slot, and no type above it on the trail has got
    one. *)
Definition visit_post (providers : typeutil.Map providerInfo)
    (given : list type) (trail : list type) (st st' : solveState) : Prop :=
  solve_inv providers given st' /\ extends st st' /\
  (forall typ, last trail = Some typ ->
               is_Some (typeutil.At (st_index st') typ)) /\
  (forall t, t ∈ removelast trail ->
             typeutil.At (st_index st) t = None ->
             typeutil.At (st_index st') t = None).

(** A map from types to slots that is the inverse of the lookup in [l]. *)
Definition inverse_of (l : list type) (idx : typeutil.Map Z) : Prop :=
  forall t a,
    typeutil.At idx t = Some a <-> 0 <= a /\ l !! Z.to_nat a = Some t.

(** The errors [visit] creates. *)
Definition resolution_error (e : error) : Prop :=
  match e with
  | ErrCycle _ | ErrNoProviderOutput _ | ErrNoProviderRequired _ _ => True
  | _ => False
  end.

(** The import directives of the provider sets not yet visited. *)
Definition unvisitedWeight (mc : providerSetCache)
    (visited : list providerSetRef) : nat :=
  importWeight (filter (fun rs => rs.1 ∉ visited) (allSets mc)).


(** No method used after the checks gives an error: it answers or
    panics. *)
Definition no_Err {A : Type} (m : M A) : Prop :=
  forall g g' e, m g <> (g', Err e).

(** The generator with an empty buffer, and with a text put before its
    buffer. *)
Definition clearBuf (g : gen) : gen :=
  {| gen_currPackage := gen_currPackage g;
     gen_buf := EmptyString;
     gen_imports := gen_imports g;
     gen_n := gen_n g |}.

Definition prependBuf (s : string) (g : gen) : gen :=
  {| gen_currPackage := gen_currPackage g;
     gen_buf := s +:+ gen_buf g;
     gen_imports := gen_imports g;
     gen_n := gen_n g |}.

(** A method that only appends to the buffer and reads nothing of it. *)
Definition framed {A : Type} (m : M A) : Prop :=
  forall g,
    m g = (prependBuf (gen_buf g) (m (clearBuf g)).1, (m (clearBuf g)).2).

(** The text a run of [Generate] over [fns] leaves in the buffer. *)
Definition emitted (mc : providerSetCache) (pkg : string)
    (fns : list injector) : option string :=
  match Generate_loop mc fns (newGen pkg) with
  | Some (g, Ok _) => Some (gen_buf g)
  | _ => None
  end.


(** The call at position [k] of [calls] is for the type [typ], or a later
    call runs a provider that takes its output. *)
Definition call_needed (providers : typeutil.Map providerInfo)
    (typ : type) (calls : list call) (k : nat) (c : call) : Prop :=
  call_out c = typ \/
  exists k' c' p',
    (k < k')%nat /\ calls !! k' = Some c' /\
    typeutil.At providers (call_out c') = Some p' /\
    call_out c ∈ provider_args p'.

(** The same for a call made for one of the types [args]. *)
Definition call_needed_by_args (providers : typeutil.Map providerInfo)
    (args : list type) (calls : list call) (k : nat) (c : call) : Prop :=
  call_out c ∈ args \/
  exists k' c' p',
    (k < k')%nat /\ calls !! k' = Some c' /\
    typeutil.At providers (call_out c') = Some p' /\
    call_out c ∈ provider_args p'.

(** The providers of the set [ref], none when the set cannot be fetched. *)
Definition providersOf (mc : providerSetCache) (ref : providerSetRef)
    : list providerInfo :=
  match get mc ref with
  | Ok mod_ => set_providers mod_
  | _ => []
  end.

(** The map that binds, in order, each provider under its output type. *)
Definition bindings (ps : list providerInfo) : typeutil.Map providerInfo :=
  map (fun p => (provider_out p, p)) ps.

(** The sets the roots [sets] lead to along the imports. *)
Inductive reachable (mc : providerSetCache) (sets : list providerSetRef)
    : providerSetRef -> Prop :=
| reachable_root ref :
    ref ∈ sets -> reachable mc sets ref
| reachable_import ref mod_ imp :
    reachable mc sets ref ->
    get mc ref = Ok mod_ ->
    imp ∈ set_imports mod_ ->
    reachable mc sets (import_ref imp).

(** The invariant of the loop of [buildProviderMap]. *)
Definition merge_inv (mc : providerSetCache) (sets : list providerSetRef)
    (pm : typeutil.Map providerInfo) (visited : list providerSetRef)
    (next : list nextEnt) : Prop :=
  pm = bindings (flat_map (providersOf mc) visited) /\
  NoDup (provider_out <$> flat_map (providersOf mc) visited) /\
  (forall r, r ∈ visited -> reachable mc sets r) /\
  (forall e, e ∈ next -> reachable mc sets (ent_to e)) /\
  (forall r, r ∈ sets -> r ∈ visited \/ r ∈ ent_to <$> next) /\
  (forall r mod_ imp,
      r ∈ visited -> get mc r = Ok mod_ -> imp ∈ set_imports mod_ ->
      import_ref imp ∈ visited \/ import_ref imp ∈ ent_to <$> next) /\
  (forall r, r ∈ visited -> exists mod_, get mc r = Ok mod_).

(** The alias table is in order: every alias is [pkg] followed by a number
    below the counter, no two paths share an alias, and the package of the
    generator has none. *)
Definition alias_ok (g : gen) : Prop :=
  0 <= gen_n g /\
  (forall path name,
      gen_imports g !! path = Some name ->
      exists k, 0 <= k < gen_n g /\ name = "pkg" +:+ itoa k) /\
  (forall p1 p2 name,
      gen_imports g !! p1 = Some name -> gen_imports g !! p2 = Some name ->
      p1 = p2) /\
  gen_imports g !! gen_currPackage g = None.

(** What a method of the generator may do to the alias table: it keeps the
    package, never lowers the counter, keeps every alias given so far and
    keeps the table in order. *)
Definition alias_step (g g' : gen) : Prop :=
  gen_currPackage g' = gen_currPackage g /\
  gen_n g <= gen_n g' /\
  (forall path name,
      gen_imports g !! path = Some name -> name <> EmptyString ->
      gen_imports g' !! path = Some name) /\
  (alias_ok g -> alias_ok g').

Definition alias_steps {A : Type} (m : M A) : Prop :=
  forall g g' r, m g = (g', r) -> alias_step g g'.

(** The types [zeroValue] has a value for. *)
Definition zeroValue_supported (t : type) : Prop :=
  match types.Underlying t with
  | types.Basic types.Invalid | types.Basic types.UnsafePointer
  | types.Basic types.UntypedNil | types.Tuple _ | types.Named _ _ _ => False
  | _ => True
  end.

(** A method of the generator that never panics. *)
Definition panic_free {A : Type} (m : M A) : Prop :=
  forall g g' msg, m g <> (g', Panic msg).

(** A directive of the comment group at [pos]: its kind has no space and no
    newline in it. *)
Definition directive_ok (pos : Pos) (d : directive) : Prop :=
  dir_pos d = pos /\
  Strings.IndexByte (dir_kind d) space = None /\
  Strings.IndexByte (dir_kind d) newline = None.

(** A provider of the package [pkg]: a function of one of its files
    declares it. *)
Definition provider_declared (pkg : package) (p : providerInfo) : Prop :=
  exists f dc fn,
    f ∈ pkg_files pkg /\ dc ∈ file_decls f /\ decl_func dc = Some fn /\
    providerOf pkg fn = FOk p.

(** What [findProviderSets] keeps for each provider set of [pkg]: no two
    providers of one output type, no import listed twice, providers that
    functions of the package declare, with parameters of distinct types,
    imports from the package itself or from a package it imports, and no
    set without a provider and without an import. *)
Definition set_ok (pkg : package) (mod_ : providerSet) : Prop :=
  NoDup (provider_out <$> set_providers mod_) /\
  NoDup (import_ref <$> set_imports mod_) /\
  Forall (fun p =>
            provider_declared pkg p /\ NoDup (provider_args p) /\
            provider_importPath p = pkg_path pkg)
    (set_providers mod_) /\
  Forall (fun imp =>
            ref_importPath (import_ref imp) = pkg_path pkg \/
            ref_importPath (import_ref imp) ∈ pkg_imports pkg)
    (set_imports mod_) /\
  (set_providers mod_ <> [] \/ set_imports mod_ <> []).

Definition sets_ok (pkg : package) (sets : gmap string providerSet) : Prop :=
  forall name mod_, sets !! name = Some mod_ -> set_ok pkg mod_.

(** The front end ends with a value or with an error. *)
Definition ends {A : Type} (r : front A) : Prop :=
  (exists a, r = Some (FOk a)) \/ (exists e, r = Some (FErr e)).

(** The index [mc] is the one of the program [prog]: the sets it holds for
    a package path are the ones [findProviderSets] gives for the package of
    the program with that path. *)
Definition cache_of (TrimSpace : string -> string)
    (Unquote : string -> option string) (prog : list package)
    (mc : providerSetCache) : Prop :=
  forall path sets,
    mc_prog mc !! path = Some (inr sets) ->
    exists pkg,
      pkg ∈ prog /\ pkg_path pkg = path /\
      findProviderSets TrimSpace Unquote pkg = Some (FOk sets).

(** A file of the package declares the function. *)
Definition declares (pkg : package) (fn : funcDecl) : Prop :=
  exists f dc,
    f ∈ pkg_files pkg /\ dc ∈ file_decls f /\ decl_func dc = Some fn.

(** The call [c], made after the calls [prior], fits the function [fn]: it
    names the function, passes for each parameter a slot that holds the type
    of the parameter, stands for the type of the first result, and handles
    an error exactly when the function has a second result. *)
Definition call_matches (given : list type) (prior : list call) (c : call)
    (fn : funcDecl) : Prop :=
  call_funcName c = fn_name fn /\
  Forall2 (fun v a => slot given prior a = Some (var_type v))
    (sig_params (fn_sig fn)) (call_args c) /\
  (exists r0, head (sig_results (fn_sig fn)) = Some r0 /\
              var_type r0 = call_out c) /\
  length (sig_results (fn_sig fn)) = (if call_hasErr c then 2 else 1)%nat.

(** The functions among the declarations [dcs] of the file [f], and the
    functions of the files [Generate] reads: the injector functions. *)
Definition funcDecls (f : file) (dcs : list decl)
    : list (file * decl * funcDecl) :=
  flat_map (fun dc =>
              match decl_func dc with
              | Some fn => [(f, dc, fn)]
              | None => []
              end) dcs.

Definition injectorDecls (fs : list file) : list (file * decl * funcDecl) :=
  flat_map (fun f => if isInjectFile f then funcDecls f (file_decls f) else [])
    fs.


(** The name of the provider set a [provide] directive puts a function
    in. *)
Definition providerSetName (d : directive) : string :=
  if bool_decide (dir_line d = EmptyString) then implicitModuleName
  else dir_line d.

(** The name and the reference text of an [import] directive. *)
Definition importSpec (d : directive) : string * string :=
  if Strings.HasPrefix (dir_line d) dq then (implicitModuleName, dir_line d)
  else
    match Strings.IndexByte (dir_line d) space with
    | Some i =>
        (Strings.take i (dir_line d), Strings.drop (i + 1) (dir_line d))
    | None => (implicitModuleName, dir_line d)
    end.

(** The provider sets only grow: a set stays, with its providers and its
    imports. *)
Definition grows (sets sets' : gmap string providerSet) : Prop :=
  forall name mod_,
    sets !! name = Some mod_ ->
    exists mod',
      sets' !! name = Some mod' /\
      set_providers mod_ ⊆ set_providers mod' /\
      set_imports mod_ ⊆ set_imports mod'.

(** [Generate] ends with a source or with an error. *)
Definition Generate_ended {A : Type} (r : option (gresult A)) : Prop :=
  (exists a, r = Some (GOk a)) \/ (exists e, r = Some (GErr e)).

(** * Properties *)

(** ** typeutil.Map *)

Lemma Identical_spec (x y : type) : Identical x y = true <-> x = y.
Proof. unfold Identical. apply bool_decide_eq_true. Qed.

Lemma Identical_refl (x : type) : Identical x x = true.
Proof. by apply Identical_spec. Qed.

Lemma Identical_ne (x y : type) : x <> y -> Identical x y = false.
Proof. intros H. unfold Identical. by apply bool_decide_eq_false. Qed.

Section typeutil_facts.
Context {V : Type}.
Implicit Types (m : typeutil.Map V) (k : type) (v : V).

Lemma At_Set'_eq m k v : typeutil.At (typeutil.Set' m k v) k = Some v.
Proof.
  induction m as [|[k0 v0] m IH]; simpl.
  - by rewrite Identical_refl.
  - destruct (Identical k k0) eqn:E; simpl; rewrite E; auto.
Qed.

Lemma At_Set'_ne m k k' v :
  k <> k' -> typeutil.At (typeutil.Set' m k v) k' = typeutil.At m k'.
Proof.
  intros Hne. induction m as [|[k0 v0] m IH]; simpl.
  - rewrite Identical_ne; auto.
  - destruct (Identical k k0) eqn:E; simpl.
    + apply Identical_spec in E. subst k0.
      rewrite Identical_ne; auto.
    + by rewrite IH.
Qed.

Lemma At_Some_elem m k v : typeutil.At m k = Some v -> (k, v) ∈ m.
Proof.
  induction m as [|[k0 v0] m IH]; simpl; [done|].
  destruct (Identical k k0) eqn:E.
  - apply Identical_spec in E. intros [= ->]. subst. left.
  - intros H. right. auto.
Qed.

Lemma At_None_not_key m k : typeutil.At m k = None -> k ∉ m.*1.
Proof.
  induction m as [|[k0 v0] m IH]; simpl.
  - intros _. apply not_elem_of_nil.
  - destruct (Identical k k0) eqn:E; [done|].
    intros H. apply not_elem_of_cons. split; [|auto].
    intros ->. by rewrite Identical_refl in E.
Qed.

Lemma At_is_Some_key m k : is_Some (typeutil.At m k) <-> k ∈ m.*1.
Proof.
  split.
  - intros [v Hv]. apply At_Some_elem in Hv.
    apply list_elem_of_fmap. by exists (k, v).
  - intros Hk. destruct (typeutil.At m k) eqn:E; [eauto|].
    by apply At_None_not_key in E.
Qed.
End typeutil_facts.

(** ** The slots of a plan *)

Lemma slots_length given calls :
  length (slots given calls) = (length given + length calls)%nat.
Proof. unfold slots. by rewrite length_app, length_fmap. Qed.

Lemma slots_snoc given calls c :
  slots given (calls ++ [c]) = slots given calls ++ [call_out c].
Proof. unfold slots. by rewrite fmap_app, app_assoc. Qed.

Lemma slot_Some_range given calls a t :
  slot given calls a = Some t ->
  0 <= a < Z.of_nat (length given) + Z.of_nat (length calls).
Proof.
  unfold slot. destruct (Z.ltb_spec a 0); [done|].
  intros H'. apply lookup_lt_Some in H'. rewrite slots_length in H'. lia.
Qed.

Lemma slot_app given calls more a t :
  slot given calls a = Some t -> slot given (calls ++ more) a = Some t.
Proof.
  unfold slot, slots. destruct (a <? 0); [done|].
  rewrite fmap_app, app_assoc. apply lookup_app_l_Some.
Qed.

Lemma slot_given given calls i t :
  given !! i = Some t -> slot given calls (Z.of_nat i) = Some t.
Proof.
  intros H. unfold slot, slots.
  destruct (Z.ltb_spec (Z.of_nat i) 0); [lia|].
  rewrite Nat2Z.id. by apply lookup_app_l_Some.
Qed.

Lemma index_inv_step given st typ :
  index_inv given st ->
  typeutil.At (st_index st) typ = None ->
  forall c, call_out c = typ ->
  index_inv given
    {| st_index :=
         typeutil.Set' (st_index st) typ
           (Z.of_nat (length given) + Z.of_nat (length (st_calls st)));
       st_calls := st_calls st ++ [c] |}.
Proof.
  intros Hinv Hnone c Hc t a. simpl.
  unfold slot. rewrite slots_snoc, Hc.
  set (v := Z.of_nat (length given) + Z.of_nat (length (st_calls st))).
  assert (Hlen : Z.of_nat (length (slots given (st_calls st))) = v).
  { rewrite slots_length. lia. }
  destruct (decide (typ = t)) as [<-|Hne].
  - rewrite At_Set'_eq. split.
    + intros [= <-]. destruct (Z.ltb_spec v 0); [lia|].
      rewrite <- Hlen, Nat2Z.id.
      by rewrite lookup_app_r, Nat.sub_diag.
    + destruct (Z.ltb_spec a 0); [done|].
      rewrite lookup_app_Some. intros [Hl|[Hge Hr]].
      * assert (slot given (st_calls st) a = Some typ) as Hs.
        { unfold slot. destruct (Z.ltb_spec a 0); [lia|done]. }
        apply Hinv in Hs. congruence.
      * apply list_lookup_singleton_Some in Hr as [Hz _].
        f_equal. lia.
  - rewrite At_Set'_ne by done. rewrite (Hinv t a). unfold slot.
    destruct (Z.ltb_spec a 0); [done|].
    rewrite lookup_app_Some. split; [auto|].
    intros [Hl|[_ Hr]]; [done|].
    apply list_lookup_singleton_Some in Hr as [_ ?]. congruence.
Qed.

Lemma index_inv_mono given st st' t a :
  index_inv given st -> index_inv given st' ->
  (exists more, st_calls st' = st_calls st ++ more) ->
  typeutil.At (st_index st) t = Some a ->
  typeutil.At (st_index st') t = Some a.
Proof.
  intros H H' [more Hm] Hat. apply H'. rewrite Hm.
  apply slot_app. by apply H.
Qed.

Lemma plan_ok_snoc providers given calls c :
  plan_ok providers given calls ->
  call_ok providers given calls c ->
  plan_ok providers given (calls ++ [c]).
Proof.
  intros Hp Hc k c' Hk.
  apply lookup_app_Some in Hk as [Hk|[Hge Hk]].
  - rewrite take_app_le by (apply lookup_lt_Some in Hk; lia). by apply Hp.
  - apply list_lookup_singleton_Some in Hk as [Hz <-].
    assert (k = length calls) as -> by lia.
    by rewrite take_app_length.
Qed.

Lemma argSlots_ok idx args :
  Forall (fun t => is_Some (typeutil.At idx t)) args ->
  exists l, argSlots idx args = Ok l /\
            Forall2 (fun t a => typeutil.At idx t = Some a) args l.
Proof.
  induction 1 as [|t args [a Ha] _ (l & Hl & HF)]; simpl.
  - exists []. by split.
  - rewrite Ha, Hl. exists (a :: l). split; [done|]. by constructor.
Qed.

(** ** The invariant of [visit] *)

Lemma existsb_Identical (x : type) (l : list type) :
  existsb (Identical x) l = true <-> x ∈ l.
Proof.
  rewrite existsb_exists. split.
  - intros (y & Hy & E). apply Identical_spec in E. subst y.
    by apply list_elem_of_In.
  - intros H. exists x. split; [by apply list_elem_of_In|].
    apply Identical_refl.
Qed.

Lemma existsb_Identical_false (x : type) (l : list type) :
  existsb (Identical x) l = false <-> x ∉ l.
Proof.
  rewrite <- existsb_Identical. by destruct (existsb (Identical x) l).
Qed.

Section visit_facts.
Variable providers : typeutil.Map providerInfo.
Variable given : list type.

Local Abbreviation solve_inv := (solve_inv providers given).
Local Abbreviation visit_post := (visit_post providers given).

Lemma extends_refl st : extends st st.
Proof. exists []. by rewrite app_nil_r. Qed.

Lemma extends_trans st1 st2 st3 :
  extends st1 st2 -> extends st2 st3 -> extends st1 st3.
Proof.
  intros [m1 H1] [m2 H2]. exists (m1 ++ m2).
  by rewrite H2, H1, app_assoc.
Qed.

Lemma resolved_mono st st' t :
  solve_inv st -> solve_inv st' -> extends st st' ->
  is_Some (typeutil.At (st_index st) t) ->
  is_Some (typeutil.At (st_index st') t).
Proof.
  intros [H _] [H' _] He [a Ha]. exists a.
  by apply (index_inv_mono given st st').
Qed.

Lemma visitArgs_post
    (f : list type -> solveState -> option (result solveState)) :
  (forall trail st st',
      solve_inv st -> f trail st = Some (Ok st') ->
      visit_post trail st st') ->
  forall args trail st st',
    solve_inv st -> visitArgs f trail args st = Some (Ok st') ->
    solve_inv st' /\ extends st st' /\
    Forall (fun t => is_Some (typeutil.At (st_index st') t)) args /\
    (forall t, t ∈ trail ->
               typeutil.At (st_index st) t = None ->
               typeutil.At (st_index st') t = None).
Proof.
  intros Hf. induction args as [|a args IH]; intros trail st st' Hst; simpl.
  - intros [= <-]. split; [done|]. split; [apply extends_refl|].
    split; [constructor|auto].
  - destruct (f (trail ++ [a]) st) as [[st1| |]|] eqn:E; try done.
    intros Hrest.
    destruct (Hf _ _ _ Hst E) as (Hst1 & He1 & Hres & Hkeep1).
    destruct (IH _ _ _ Hst1 Hrest) as (Hst' & He2 & Hall & Hkeep2).
    split; [done|]. split; [by eapply extends_trans|]. split.
    + constructor; [|done].
      apply (resolved_mono st1 st'); auto.
      apply Hres. by rewrite last_snoc.
    + intros t Ht Hnone. apply Hkeep2; [done|]. apply Hkeep1; [|done].
      by rewrite removelast_last.
Qed.

Lemma visit_post_holds fuel :
  forall trail st st',
    solve_inv st ->
    visit fuel providers (Z.of_nat (length given)) trail st = Some (Ok st') ->
    visit_post trail st st'.
Proof.
  induction fuel as [|fuel IH]; intros trail st st' Hst; simpl; [done|].
  destruct (last trail) as [typ|] eqn:Hlast; [|done].
  destruct (typeutil.At (st_index st) typ) as [a|] eqn:Hidx.
  { intros [= <-]. split; [done|]. split; [apply extends_refl|].
    split; [|auto]. intros typ' ?. simplify_eq. eauto. }
  destruct (existsb (Identical typ) (removelast trail)) eqn:Hcyc; [done|].
  destruct (typeutil.At providers typ) as [p|] eqn:Hp.
  2:{ case_bool_decide; [done|].
      by destruct (trail !! (length trail - 2)%nat). }
  destruct (visitArgs _ trail (provider_args p) st) as [[st1| |]|] eqn:E;
    try done.
  destruct (visitArgs_post _ IH _ _ _ _ Hst E)
    as (Hst1 & He1 & Hall & Hkeep).
  destruct (argSlots_ok _ _ Hall) as (l & -> & HF).
  intros [= <-].
  apply last_Some in Hlast as [init ->].
  rewrite removelast_last in Hcyc.
  apply existsb_Identical_false in Hcyc.
  assert (Hnone : typeutil.At (st_index st1) typ = None).
  { apply Hkeep; [set_solver|done]. }
  destruct Hst1 as [Hinv1 Hplan1].
  split; [split|]; simpl.
  - by apply index_inv_step.
  - apply plan_ok_snoc; [done|]. exists p. simpl.
    repeat split; try done.
    eapply Forall2_impl; [exact HF|]. intros t b Hb. by apply Hinv1.
  - split; [|split]; simpl.
    + destruct He1 as [more Hm]. exists (more ++ [{|
        call_importPath := provider_importPath p;
        call_funcName := provider_funcName p;
        call_args := l; call_out := typ;
        call_hasErr := provider_hasErr p |}]).
      simpl. by rewrite Hm, app_assoc.
    + intros typ' Hl. rewrite last_snoc in Hl. simplify_eq.
      rewrite At_Set'_eq. eauto.
    + intros t Ht Hn. rewrite removelast_last in Ht.
      assert (typ <> t) by (intros <-; done).
      rewrite At_Set'_ne by done. apply Hkeep; [set_solver|done].
Qed.
End visit_facts.

(** ** The checks of the givens *)

Lemma firstRepeated_elem earlier rest g :
  firstRepeated earlier rest = Some g -> g ∈ rest.
Proof.
  revert earlier. induction rest as [|x rest IH]; intros earlier; simpl.
  - done.
  - destruct (existsb (Identical x) earlier).
    + intros [= ->]. left.
    + intros H. right. eauto.
Qed.

Lemma firstRepeated_None earlier rest :
  firstRepeated earlier rest = None <->
  NoDup rest /\ forall g, g ∈ rest -> g ∉ earlier.
Proof.
  revert earlier. induction rest as [|x rest IH]; intros earlier; simpl.
  - split; [|done]. intros _. split; [constructor|]. by intros g ?%elem_of_nil.
  - destruct (existsb (Identical x) earlier) eqn:E.
    + apply existsb_Identical in E. split; [done|].
      intros [_ H]. destruct (H x); [left|done].
    + apply existsb_Identical_false in E. rewrite IH. split.
      * intros [Hnd Hdis]. split.
        -- constructor; [|done]. intros Hx. apply (Hdis x Hx).
           apply elem_of_app. right. left.
        -- intros g [->|Hg]%elem_of_cons; [done|].
           intros Hin. apply (Hdis g Hg). apply elem_of_app. by left.
      * intros [Hnd Hdis]. apply NoDup_cons in Hnd as [Hx Hnd].
        split; [done|]. intros g Hg [Hin|Hin]%elem_of_app.
        -- apply (Hdis g); [by right|done].
        -- apply list_elem_of_singleton in Hin. by subst.
Qed.

Lemma firstRepeated_NoDup given :
  firstRepeated [] given = None <-> NoDup given.
Proof.
  rewrite firstRepeated_None. split; [by intros []|].
  intros H. split; [done|]. intros g _. apply not_elem_of_nil.
Qed.

Lemma inverse_of_snoc l idx typ :
  inverse_of l idx ->
  typeutil.At idx typ = None ->
  inverse_of (l ++ [typ]) (typeutil.Set' idx typ (Z.of_nat (length l))).
Proof.
  intros Hinv Hnone t a.
  destruct (decide (typ = t)) as [<-|Hne].
  - rewrite At_Set'_eq. split.
    + intros [= <-]. split; [lia|].
      by rewrite Nat2Z.id, lookup_app_r, Nat.sub_diag.
    + intros [Ha [Hl|[Hge Hr]]%lookup_app_Some].
      * assert (typeutil.At idx typ = Some a) by (by apply Hinv). congruence.
      * apply list_lookup_singleton_Some in Hr as [Hz _]. f_equal. lia.
  - rewrite At_Set'_ne by done. rewrite (Hinv t a).
    rewrite lookup_app_Some. split; [intros []; auto|].
    intros [Ha [Hl|[_ Hr]]]; [done|].
    apply list_lookup_singleton_Some in Hr as [_ ?]. congruence.
Qed.

Lemma inverse_of_None l idx t :
  inverse_of l idx -> t ∉ l -> typeutil.At idx t = None.
Proof.
  intros Hinv Ht. destruct (typeutil.At idx t) as [a|] eqn:E; [|done].
  apply Hinv in E as [_ E]. apply list_elem_of_lookup_2 in E. done.
Qed.

Lemma seedIndex_Ok mc providers :
  forall given done idx,
    inverse_of done idx ->
    NoDup (done ++ given) ->
    (forall g, g ∈ given -> typeutil.At providers g = None) ->
    exists idx',
      seedIndex mc providers idx (Z.of_nat (length done)) given = Ok idx' /\
      inverse_of (done ++ given) idx'.
Proof.
  induction given as [|g given IH]; intros done idx Hinv Hnd Hfree; simpl.
  - exists idx. by rewrite app_nil_r.
  - rewrite Hfree by left.
    assert (g ∉ done).
    { apply NoDup_app in Hnd as (_ & Hd & _). intros Hg.
      apply (Hd g Hg). left. }
    destruct (IH (done ++ [g])
                (typeutil.Set' idx g (Z.of_nat (length done)))) as (idx' & E & H').
    + apply inverse_of_snoc; [done|]. by apply inverse_of_None with done.
    + by rewrite <- app_assoc.
    + intros g' Hg'. apply Hfree. by right.
    + exists idx'. rewrite <- app_assoc in H'. split; [|done].
      rewrite <- E. f_equal. rewrite length_app. simpl. lia.
Qed.

Lemma seedIndex_Err mc providers :
  forall given idx i g,
    g ∈ given -> is_Some (typeutil.At providers g) ->
    exists g' pp,
      g' ∈ given /\ typeutil.At providers g' = Some pp /\
      seedIndex mc providers idx i given =
        Err (ErrInputConflicts g' (provider_funcName pp) (provider_pos pp)).
Proof.
  induction given as [|x given IH]; intros idx i g Hg Hsome; simpl.
  - by apply elem_of_nil in Hg.
  - destruct (typeutil.At providers x) as [pp|] eqn:E.
    + exists x, pp. split; [left|done].
    + apply elem_of_cons in Hg as [->|Hg].
      * rewrite E in Hsome. by destruct Hsome.
      * destruct (IH (typeutil.Set' idx x i) (i + 1) g Hg Hsome)
          as (g' & pp & ? & ? & ?).
        exists g', pp. split; [by right|done].
Qed.

Lemma inverse_of_nil : inverse_of [] [].
Proof. intros t a. simpl. split; [done|]. by intros [_ ?]. Qed.

Lemma inverse_of_index_inv given idx :
  inverse_of given idx ->
  index_inv given {| st_index := idx; st_calls := [] |}.
Proof.
  intros H t a. simpl. unfold slot, slots. simpl. rewrite app_nil_r.
  rewrite (H t a). destruct (Z.ltb_spec a 0); [|tauto].
  split; [lia|done].
Qed.

(** ** Successful runs of [solve] *)

Lemma seedIndex_Ok_free mc providers given idx i idx' :
  seedIndex mc providers idx i given = Ok idx' ->
  forall g, g ∈ given -> typeutil.At providers g = None.
Proof.
  intros E g Hg.
  destruct (typeutil.At providers g) as [pp|] eqn:Hp; [|done].
  destruct (seedIndex_Err mc providers given idx i g Hg) as (? & ? & _ & _ & E').
  - by rewrite Hp.
  - congruence.
Qed.

Lemma solve_Ok mc out given sets calls :
  solve mc out given sets = Some (Ok calls) ->
  exists providers st,
    buildProviderMap mc sets = Some (Ok providers) /\
    NoDup given /\
    (forall g, g ∈ given -> typeutil.At providers g = None) /\
    solve_inv providers given st /\
    st_calls st = calls /\
    is_Some (typeutil.At (st_index st) out).
Proof.
  unfold solve.
  destruct (firstRepeated [] given) eqn:Hrep; [done|].
  apply firstRepeated_NoDup in Hrep.
  destruct (buildProviderMap mc sets) as [[providers| |]|]; try done.
  destruct (seedIndex mc providers [] 0 given) as [idx0| |] eqn:Hseed;
    try done.
  pose proof (seedIndex_Ok_free _ _ _ _ _ _ Hseed) as Hfree.
  destruct (seedIndex_Ok mc providers given [] [] inverse_of_nil Hrep Hfree)
    as (idx' & Hseed' & Hinv).
  change (seedIndex mc providers [] 0 given = Ok idx') in Hseed'.
  change ([] ++ given) with given in Hinv.
  rewrite Hseed in Hseed'. injection Hseed' as <-.
  unfold resolve.
  destruct (visit _ providers _ [out] _) as [[st| |]|] eqn:Hvisit; try done.
  intros [= <-].
  apply (visit_post_holds providers given) in Hvisit
    as (Hst & _ & Hout & _).
  - exists providers, st. repeat split; try done; try apply Hst.
    by apply Hout.
  - split; [by apply inverse_of_index_inv|]. intros k c Hk. done.
Qed.

Lemma index_inv_NoDup given st :
  index_inv given st -> NoDup (slots given (st_calls st)).
Proof.
  intros Hinv. apply NoDup_alt. intros i j t Hi Hj.
  assert (forall n, slots given (st_calls st) !! n = Some t ->
                    typeutil.At (st_index st) t = Some (Z.of_nat n)) as H.
  { intros n Hn. apply Hinv. unfold slot.
    destruct (Z.ltb_spec (Z.of_nat n) 0); [lia|]. by rewrite Nat2Z.id. }
  apply H in Hi, Hj. rewrite Hi in Hj. injection Hj. lia.
Qed.

Lemma slot_elem given calls a t :
  slot given calls a = Some t -> t ∈ given \/ t ∈ call_out <$> calls.
Proof.
  unfold slot, slots. destruct (a <? 0); [done|].
  intros H%list_elem_of_lookup_2. by apply elem_of_app.
Qed.

(** C1.  The plan [solve] returns is in topological order: the arguments of
    the call at position [k] are slots below [len(given) + k], that is
    givens or outputs of earlier calls. *)
Theorem solve_topological_order mc out given sets calls :
  solve mc out given sets = Some (Ok calls) ->
  forall k c,
    calls !! k = Some c ->
    Forall (fun a => 0 <= a < Z.of_nat (length given) + Z.of_nat k)
      (call_args c).
Proof.
  intros (providers & st & _ & _ & _ & [_ Hplan] & <- & _)%solve_Ok k c Hk.
  destruct (Hplan k c Hk) as (p & _ & _ & _ & _ & HF).
  pose proof (lookup_lt_Some _ _ _ Hk) as Hlt.
  induction HF as [|t a ts l Ha _ IH]; constructor; [|done].
  apply slot_Some_range in Ha. rewrite length_take in Ha. lia.
Qed.

(** C6.  A plan has no two calls for one type, and a type that the
    injector returns or a scheduled provider takes, unless it is given, is
    the output of exactly one call. *)
Theorem solve_materializes_once mc out given sets calls providers :
  solve mc out given sets = Some (Ok calls) ->
  buildProviderMap mc sets = Some (Ok providers) ->
  NoDup (call_out <$> calls) /\
  forall t,
    (t = out \/
     exists c p, c ∈ calls /\
                 typeutil.At providers (call_out c) = Some p /\
                 t ∈ provider_args p) ->
    t ∉ given ->
    exists k, (call_out <$> calls) !! k = Some t /\
              forall k', (call_out <$> calls) !! k' = Some t -> k' = k.
Proof.
  intros (providers' & st & Hpm & _ & _ & [Hinv Hplan] & <- & Hout)%solve_Ok
         Hpm'.
  rewrite Hpm in Hpm'. injection Hpm' as ->.
  pose proof (index_inv_NoDup _ _ Hinv) as Hnd.
  apply NoDup_app in Hnd as (_ & _ & Hnd).
  split; [done|].
  assert (forall t, t ∈ call_out <$> st_calls st ->
            exists k, (call_out <$> st_calls st) !! k = Some t /\
              forall k', (call_out <$> st_calls st) !! k' = Some t -> k' = k)
    as Honce.
  { intros t [k Hk]%list_elem_of_lookup_1. exists k. split; [done|].
    intros k' Hk'. by eapply NoDup_lookup. }
  intros t Hneeded Hng. apply Honce.
  destruct Hneeded as [->|(c & p & Hc & Hp & Ht)].
  - destruct Hout as [a Ha]. apply Hinv in Ha.
    by destruct (slot_elem _ _ _ _ Ha).
  - apply list_elem_of_lookup_1 in Hc as [k Hk].
    destruct (Hplan k c Hk) as (p' & Hp' & _ & _ & _ & HF).
    rewrite Hp in Hp'. injection Hp' as <-.
    apply list_elem_of_lookup_1 in Ht as [j Hj].
    destruct (Forall2_lookup_l _ _ _ _ _ HF Hj) as (a & _ & Ha).
    apply (slot_app _ _ (drop k (st_calls st))) in Ha.
    rewrite take_drop in Ha.
    by destruct (slot_elem _ _ _ _ Ha).
Qed.

(** ** The errors of the resolution *)

Lemma argSlots_no_Err idx args e : argSlots idx args <> Err e.
Proof.
  induction args as [|a args IH]; simpl; [done|].
  destruct (typeutil.At idx a); [|done].
  by destruct (argSlots idx args).
Qed.

Lemma visitArgs_Err
    (f : list type -> solveState -> option (result solveState)) :
  (forall trail st e, f trail st = Some (Err e) -> resolution_error e) ->
  forall args trail st e,
    visitArgs f trail args st = Some (Err e) -> resolution_error e.
Proof.
  intros Hf. induction args as [|a args IH]; intros trail st e; simpl.
  - done.
  - destruct (f (trail ++ [a]) st) as [[st1|e1|]|] eqn:E; try done.
    + apply IH.
    + intros [= <-]. by eapply Hf.
Qed.

Lemma visit_Err fuel providers ngiven :
  forall trail st e,
    visit fuel providers ngiven trail st = Some (Err e) ->
    resolution_error e.
Proof.
  induction fuel as [|fuel IH]; intros trail st e; simpl; [done|].
  destruct (last trail) as [typ|]; [|done].
  destruct (typeutil.At (st_index st) typ); [done|].
  destruct (existsb (Identical typ) (removelast trail)).
  { by intros [= <-]. }
  destruct (typeutil.At providers typ) as [p|].
  2:{ case_bool_decide; [by intros [= <-]|].
      destruct (trail !! (length trail - 2)%nat); [|done].
      by intros [= <-]. }
  destruct (visitArgs _ trail (provider_args p) st) as [[st1|e1|]|] eqn:E;
    try done.
  - destruct (argSlots (st_index st1) (provider_args p)) eqn:Ea; try done.
    by apply argSlots_no_Err in Ea.
  - intros [= <-]. by eapply visitArgs_Err.
Qed.

(** C4.  [solve] checks the givens first: a type given twice is an error,
    and so is a given type that the catalog binds, whatever output is
    asked for; when the givens are distinct and none of them is bound, no
    error of [solve] is one of these two. *)
Theorem solve_checks_givens mc out given sets :
  (forall i j g,
      i <> j -> given !! i = Some g -> given !! j = Some g ->
      exists g', g' ∈ given /\
                 solve mc out given sets = Some (Err (ErrMultipleInputs g'))) /\
  (forall providers g,
      buildProviderMap mc sets = Some (Ok providers) ->
      NoDup given ->
      g ∈ given -> is_Some (typeutil.At providers g) ->
      exists g' pp,
        g' ∈ given /\ typeutil.At providers g' = Some pp /\
        solve mc out given sets =
          Some (Err (ErrInputConflicts g' (provider_funcName pp)
                       (provider_pos pp)))) /\
  (forall providers e,
      buildProviderMap mc sets = Some (Ok providers) ->
      NoDup given ->
      (forall g, g ∈ given -> typeutil.At providers g = None) ->
      solve mc out given sets = Some (Err e) ->
      resolution_error e).
Proof.
  split; [|split].
  - intros i j g Hij Hi Hj. unfold solve.
    destruct (firstRepeated [] given) as [g'|] eqn:E.
    + exists g'. split; [by eapply firstRepeated_elem|done].
    + apply firstRepeated_NoDup in E.
      destruct Hij. by eapply NoDup_lookup.
  - intros providers g Hpm Hnd Hg Hsome. unfold solve.
    apply firstRepeated_NoDup in Hnd. rewrite Hnd, Hpm.
    destruct (seedIndex_Err mc providers given [] 0 g Hg Hsome)
      as (g' & pp & Hg' & Hpp & ->).
    by exists g', pp.
  - intros providers e Hpm Hnd Hfree. unfold solve.
    pose proof Hnd as Hrep. apply firstRepeated_NoDup in Hrep.
    rewrite Hrep, Hpm.
    destruct (seedIndex_Ok mc providers given [] [] inverse_of_nil Hnd Hfree)
      as (idx' & Hseed & _).
    change (seedIndex mc providers [] 0 given = Ok idx') in Hseed.
    rewrite Hseed. unfold resolve.
    destruct (visit _ providers _ [out] _) as [[st|e'|]|] eqn:Hvisit;
      try done.
    intros [= <-]. by eapply visit_Err.
Qed.

(** ** Cycles *)


Lemma visit_descend fuel providers ngiven trail typ st p a rest :
  last trail = Some typ ->
  typeutil.At (st_index st) typ = None ->
  typ ∉ removelast trail ->
  typeutil.At providers typ = Some p ->
  provider_args p = a :: rest ->
  forall e,
    visit fuel providers ngiven (trail ++ [a]) st = Some (Err e) ->
    visit (S fuel) providers ngiven trail st = Some (Err e).
Proof.
  intros Hlast Hnone Hfresh Hp Hargs e Hnested. simpl.
  apply existsb_Identical_false in Hfresh.
  rewrite Hlast, Hnone, Hfresh, Hp, Hargs. simpl. by rewrite Hnested.
Qed.


Lemma one_key_length {V : Type} (m : typeutil.Map V) a va :
  typeutil.At m a = Some va -> (1 <= length m)%nat.
Proof. destruct m; simpl; [done|lia]. Qed.


(** ** Termination of the merge *)

Lemma get_allSets mc ref mod_ :
  get mc ref = Ok mod_ -> (ref, mod_) ∈ allSets mc.
Proof.
  unfold get, allSets.
  destruct (mc_prog mc !! ref_importPath ref) as [[e|mods]|] eqn:Hpkg;
    try done.
  destruct (mods !! ref_name ref) as [m|] eqn:Hset; [|done].
  intros [= ->]. apply list_elem_of_In, in_flat_map.
  exists (ref_importPath ref, inr mods). split.
  - apply list_elem_of_In. by apply elem_of_map_to_list.
  - apply list_elem_of_In, list_elem_of_fmap.
    exists (ref_name ref, mod_). split; [by destruct ref|].
    by apply elem_of_map_to_list.
Qed.

Lemma importWeight_elem l ref mod_ :
  (ref, mod_) ∈ l -> (length (set_imports mod_) <= importWeight l)%nat.
Proof.
  unfold importWeight. induction l as [|x l IH]; intros H.
  - by apply elem_of_nil in H.
  - apply elem_of_cons in H as [<-|H]; simpl; [lia|].
    specialize (IH H). lia.
Qed.

Lemma importWeight_visit l visited ref mod_ :
  (ref, mod_) ∈ l -> ref ∉ visited ->
  (importWeight (filter (fun rs => rs.1 ∉ visited ++ [ref]) l) +
   length (set_imports mod_)
   <= importWeight (filter (fun rs => rs.1 ∉ visited) l))%nat.
Proof.
  intros Hin Hfresh. unfold importWeight.
  induction l as [|[r s] l IH].
  - by apply elem_of_nil in Hin.
  - assert (forall l',
      (sum_list
         (map (fun rs : providerSetRef * providerSet =>
                 length (set_imports rs.2))
            (filter (fun rs => rs.1 ∉ visited ++ [ref]) l'))
       <= sum_list
            (map (fun rs : providerSetRef * providerSet =>
                    length (set_imports rs.2))
               (filter (fun rs => rs.1 ∉ visited) l')))%nat) as Hmono.
    { induction l' as [|[r' s'] l' IH']; [done|].
      rewrite !filter_cons. simpl.
      destruct (decide (r' ∉ visited ++ [ref])) as [H1|H1];
        destruct (decide (r' ∉ visited)) as [H2|H2]; simpl; try lia.
      destruct H2. intros Hr. apply H1, elem_of_app. by left. }
    rewrite !filter_cons. simpl.
    apply elem_of_cons in Hin as [[= <- <-]|Hin].
    + destruct (decide (ref ∉ visited ++ [ref])) as [H1|H1]; [set_solver|].
      destruct (decide (ref ∉ visited)); [|done]. simpl.
      specialize (Hmono l). lia.
    + specialize (IH Hin).
      destruct (decide (r ∉ visited ++ [ref])) as [H1|H1];
        destruct (decide (r ∉ visited)) as [H2|H2]; simpl; try lia.
      destruct H2. set_solver.
Qed.

Lemma buildProviderMap_loop_cons fuel mc pm visited curr next :
  buildProviderMap_loop (S fuel) mc pm visited (curr :: next) =
  if bool_decide (ent_to curr ∈ visited)
  then buildProviderMap_loop fuel mc pm visited next
  else
    match get mc (ent_to curr) with
    | Ok mod_ =>
        match addProviders curr pm (set_providers mod_) with
        | Ok pm' =>
            buildProviderMap_loop fuel mc pm' (visited ++ [ent_to curr])
              (next ++ importEntries curr mod_)
        | Err e => Some (visited ++ [ent_to curr], Err e)
        | Panic msg => Some (visited ++ [ent_to curr], Panic msg)
        end
    | Err e =>
        Some (visited ++ [ent_to curr],
              if IsValid (ent_pos curr) then Err (ErrAt (ent_pos curr) e)
              else Err e)
    | Panic msg => Some (visited ++ [ent_to curr], Panic msg)
    end.
Proof. reflexivity. Qed.

Lemma buildProviderMap_loop_total mc :
  forall fuel pm visited next,
    (length next + unvisitedWeight mc visited < fuel)%nat ->
    exists r, buildProviderMap_loop fuel mc pm visited next = Some r.
Proof.
  induction fuel as [|fuel IH]; intros pm visited next Hfuel; [lia|].
  simpl. destruct next as [|curr next]; [eauto|].
  simpl in Hfuel. case_bool_decide as Hvis.
  - apply IH. lia.
  - destruct (get mc (ent_to curr)) as [mod_|e|msg] eqn:Hget; [|eauto..].
    destruct (addProviders curr pm (set_providers mod_)); [|eauto..].
    apply IH. rewrite length_app. unfold importEntries.
    rewrite length_map.
    pose proof (importWeight_visit (allSets mc) visited _ _
                  (get_allSets _ _ _ Hget) Hvis).
    unfold unvisitedWeight in *. lia.
Qed.

Lemma buildProviderMap_loop_NoDup mc :
  forall fuel pm visited next visited' r,
    NoDup visited ->
    buildProviderMap_loop fuel mc pm visited next = Some (visited', r) ->
    NoDup visited'.
Proof.
  induction fuel as [|fuel IH]; intros pm visited next visited' r Hnd;
    simpl; [done|].
  destruct next as [|curr next]; [by intros [= <- _]|].
  case_bool_decide as Hvis; [by apply IH|].
  assert (NoDup (visited ++ [ent_to curr])) as Hnd'.
  { apply NoDup_app. split; [done|]. split; [|apply NoDup_singleton].
    intros x Hx ->%list_elem_of_singleton. done. }
  destruct (get mc (ent_to curr)) as [mod_|e|msg].
  - destruct (addProviders curr pm (set_providers mod_)).
    + by apply IH.
    + by intros [= <- _].
    + by intros [= <- _].
  - by intros [= <- _].
  - by intros [= <- _].
Qed.

Lemma buildProviderMap_loop_skip mc :
  forall fuel pm visited next,
    Forall (fun e => ent_to e ∈ visited) next ->
    (length next < fuel)%nat ->
    buildProviderMap_loop fuel mc pm visited next = Some (visited, Ok pm).
Proof.
  induction fuel as [|fuel IH]; intros pm visited next Hall Hfuel; [lia|].
  simpl. destruct next as [|curr next]; [done|].
  apply Forall_cons in Hall as [Hc Hall]. simpl in Hfuel.
  rewrite bool_decide_eq_true_2 by done. apply IH; [done|lia].
Qed.

Lemma buildProviderMap_total mc sets :
  exists r, buildProviderMap mc sets = Some r.
Proof.
  unfold buildProviderMap, buildProviderMap_run.
  destruct (buildProviderMap_loop_total mc (buildProviderMap_fuel mc sets)
              [] [] (rootEntries sets)) as [r ->]; [|eauto].
  unfold buildProviderMap_fuel, rootEntries, unvisitedWeight.
  rewrite length_map.
  assert (filter (fun rs : providerSetRef * providerSet => rs.1 ∉ [])
            (allSets mc) = allSets mc) as ->; [|lia].
  induction (allSets mc) as [|x l IH]; [done|].
  rewrite filter_cons. rewrite decide_True by apply not_elem_of_nil.
  by rewrite IH.
Qed.

(** C7.  The merge ends on every program and every list of roots, and it
    fetches no provider set twice; an entry for a set already visited is
    dropped without effect, so that a set that imports itself is merged as
    its own providers. *)
Theorem buildProviderMap_terminates mc sets :
  (exists visited r,
      buildProviderMap_run mc sets = Some (visited, r) /\ NoDup visited) /\
  (forall fuel pm visited curr next,
      ent_to curr ∈ visited ->
      buildProviderMap_loop (S fuel) mc pm visited (curr :: next) =
      buildProviderMap_loop fuel mc pm visited next) /\
  (forall ref mod_,
      get mc ref = Ok mod_ ->
      Forall (fun imp => import_ref imp = ref) (set_imports mod_) ->
      buildProviderMap mc [ref] =
        Some (addProviders
                {| ent_to := ref; ent_from := noRef; ent_pos := 0 |} []
                (set_providers mod_))).
Proof.
  split; [|split].
  - destruct (buildProviderMap_total mc sets) as [r Hr].
    unfold buildProviderMap in Hr.
    destruct (buildProviderMap_run mc sets) as [[visited r']|] eqn:E;
      [|done].
    exists visited, r'. split; [done|].
    eapply buildProviderMap_loop_NoDup; [|exact E]. constructor.
  - intros fuel pm visited curr next Hvis. simpl.
    by rewrite bool_decide_eq_true_2.
  - intros ref mod_ Hget Himps.
    unfold buildProviderMap, buildProviderMap_run, buildProviderMap_fuel.
    change (rootEntries [ref])
      with [{| ent_to := ref; ent_from := noRef; ent_pos := 0 |}].
    rewrite buildProviderMap_loop_cons.
    rewrite bool_decide_eq_false_2 by apply not_elem_of_nil.
    cbn [ent_to]. rewrite Hget.
    destruct (addProviders _ [] (set_providers mod_)) as [pm'| |]; try done.
    rewrite buildProviderMap_loop_skip; [done| |].
    + unfold importEntries. apply Forall_map. simpl.
      eapply Forall_impl; [exact Himps|]. simpl. intros imp ->. set_solver.
    + unfold importEntries. rewrite length_app, length_map.
      pose proof (importWeight_elem _ _ _ (get_allSets _ _ _ Hget)).
      simpl. lia.
Qed.

(** ** Termination of the resolution *)

Lemma visitArgs_total
    (f : list type -> solveState -> option (result solveState)) trail :
  (forall a st, exists r, f (trail ++ [a]) st = Some r) ->
  forall args st, exists r, visitArgs f trail args st = Some r.
Proof.
  intros Hf. induction args as [|a args IH]; intros st; simpl; [eauto|].
  destruct (Hf a st) as [[st1|e|msg] ->]; eauto.
Qed.

(** The trail above the type in hand consists of distinct types that have
    a provider, so its length is bounded by the size of the catalog. *)
Lemma visit_total providers ngiven :
  forall fuel trail st,
    NoDup (removelast trail) ->
    (forall t, t ∈ removelast trail -> t ∈ providers.*1) ->
    (length providers < fuel + length (removelast trail))%nat ->
    exists r, visit fuel providers ngiven trail st = Some r.
Proof.
  induction fuel as [|fuel IH]; intros trail st Hnd Hsub Hfuel.
  - apply NoDup_submseteq in Hsub; [|done].
    apply submseteq_length in Hsub. rewrite length_fmap in Hsub. lia.
  - simpl. destruct (last trail) as [typ|] eqn:Hlast; [|eauto].
    destruct (typeutil.At (st_index st) typ); [eauto|].
    destruct (existsb (Identical typ) (removelast trail)) eqn:Hcyc; [eauto|].
    destruct (typeutil.At providers typ) as [p|] eqn:Hp.
    2:{ case_bool_decide; [eauto|].
        destruct (trail !! (length trail - 2)%nat); eauto. }
    apply last_Some in Hlast as [init ->].
    rewrite removelast_last in *.
    apply existsb_Identical_false in Hcyc.
    destruct (visitArgs_total (visit fuel providers ngiven) (init ++ [typ]))
      with (args := provider_args p) (st := st) as [r ->].
    + intros a st'. apply IH; rewrite removelast_last.
      * apply NoDup_app. split; [done|]. split; [|apply NoDup_singleton].
        intros x Hx ->%list_elem_of_singleton. done.
      * intros t [Ht| ->%list_elem_of_singleton]%elem_of_app; [auto|].
        apply At_is_Some_key. by rewrite Hp.
      * rewrite length_app. simpl. lia.
    + destruct r as [st1|e|msg]; [|eauto..].
      destruct (argSlots (st_index st1) (provider_args p)); eauto.
Qed.

Lemma resolve_total providers given index0 out :
  exists r, resolve providers given index0 out = Some r.
Proof.
  unfold resolve.
  destruct (visit_total providers (Z.of_nat (length given))
              (S (length providers)) [out]
              {| st_index := index0; st_calls := [] |}) as [r ->].
  - constructor.
  - by intros t ?%elem_of_nil.
  - simpl. lia.
  - destruct r; eauto.
Qed.

(** [solve] ends, with a plan, an error or a panic, on every input. *)
Lemma solve_total mc out given sets :
  exists r, solve mc out given sets = Some r.
Proof.
  unfold solve. destruct (firstRepeated [] given); [eauto|].
  destruct (buildProviderMap_total mc sets) as [[providers|e|msg] ->];
    [|eauto..].
  destruct (seedIndex mc providers [] 0 given); [|eauto..].
  apply resolve_total.
Qed.

(** ** The checks of [inject] *)



Lemma no_Err_ret {A : Type} (a : A) : no_Err (ret a).
Proof. by intros g g' e. Qed.

Lemma no_Err_panic {A : Type} msg : no_Err (@panic A msg).
Proof. by intros g g' e. Qed.

Lemma no_Err_p s : no_Err (p s).
Proof. by intros g g' e. Qed.

Lemma no_Err_bind {A B : Type} (m : M A) (k : A -> M B) :
  no_Err m -> (forall a, no_Err (k a)) -> no_Err (bind m k).
Proof.
  intros Hm Hk g g' e. unfold bind.
  destruct (m g) as [g1 [a|e1|msg]] eqn:E.
  - apply Hk.
  - by apply Hm in E.
  - done.
Qed.

Lemma no_Err_qualifyImport path : no_Err (qualifyImport path).
Proof.
  intros g g' e. unfold qualifyImport.
  by repeat case_bool_decide.
Qed.

Create HintDb no_err.

#[local] Hint Resolve no_Err_ret no_Err_panic no_Err_p no_Err_bind
  no_Err_qualifyImport : no_err.

Lemma no_Err_if {A : Type} (b : bool) (m1 m2 : M A) :
  no_Err m1 -> no_Err m2 -> no_Err (if b then m1 else m2).
Proof. by destruct b. Qed.

#[local] Hint Resolve no_Err_if : no_err.

Lemma no_Err_qualifiedID path sym : no_Err (qualifiedID path sym).
Proof.
  unfold qualifiedID. apply no_Err_bind; [auto with no_err|].
  intros name. case_bool_decide; auto with no_err.
Qed.

Lemma no_Err_writePieces qf ps :
  (forall path, no_Err (qf path)) -> no_Err (writePieces qf ps).
Proof.
  intros Hqf. induction ps as [|[s|path] ps IH]; simpl; auto 10 with no_err.
Qed.

Lemma no_Err_TypeString_qf t : no_Err (TypeString_qf t qualifyPkg).
Proof. apply no_Err_writePieces. apply no_Err_qualifyImport. Qed.

#[local] Hint Resolve no_Err_qualifiedID no_Err_TypeString_qf : no_err.

Lemma no_Err_zeroValue t : no_Err (zeroValue t qualifyPkg).
Proof.
  unfold zeroValue.
  destruct (types.Underlying t); auto 10 with no_err.
Qed.

Lemma no_Err_emitParams params : forall i, no_Err (emitParams i params).
Proof.
  induction params as [|pi params IH]; intros i; simpl; auto 10 with no_err.
Qed.

Lemma no_Err_emitArgs params args : forall j, no_Err (emitArgs params j args).
Proof.
  induction args as [|a args IH]; intros j; simpl; [auto with no_err|].
  apply no_Err_bind; [auto with no_err|]. intros _.
  apply no_Err_bind; [|auto].
  repeat apply no_Err_if; auto with no_err.
  destruct (params !! Z.to_nat a); auto with no_err.
Qed.

#[local] Hint Resolve no_Err_zeroValue no_Err_emitParams no_Err_emitArgs
  : no_err.

Lemma no_Err_emitCalls params zv calls :
  forall i, no_Err (emitCalls params zv i calls).
Proof.
  induction calls as [|c calls IH]; intros i; simpl; auto 20 with no_err.
Qed.

Lemma no_Err_emitReturnGiven outType params :
  no_Err (emitReturnGiven outType params).
Proof.
  induction params as [|pi params IH]; simpl; auto with no_err.
Qed.

#[local] Hint Resolve no_Err_emitCalls no_Err_emitReturnGiven : no_err.

Lemma no_Err_emit name params outType returnsErr calls :
  no_Err (emit name params outType returnsErr calls).
Proof.
  unfold emit. repeat (apply no_Err_bind; [|intros ?]); auto with no_err.
  destruct calls; auto with no_err.
Qed.

Lemma checkCalls_first name calls :
  forall pre c post,
    calls = pre ++ c :: post ->
    Forall (fun c' => call_hasErr c' = false) pre ->
    call_hasErr c = true ->
    checkCalls name false calls =
      Err (ErrProviderReturnsError name (call_out c)).
Proof.
  intros pre c post -> Hpre Hc.
  induction Hpre as [|c' pre Hc' _ IH]; simpl.
  - by rewrite Hc.
  - by rewrite Hc'.
Qed.

(** C8.  When the signature has no error result and a scheduled call may
    fail, [inject] fails with the error that names the output type of the
    first such call, and the generator is left as it was; no error of
    [inject] comes with a change of the generator. *)
Theorem inject_rejects_failing_call mc name sig sets g :
  (forall r0 calls pre c post,
      sig_results sig = [r0] ->
      solve mc (var_type r0) (map var_type (sig_params sig)) sets =
        Some (Ok calls) ->
      calls = pre ++ c :: post ->
      Forall (fun c' => call_hasErr c' = false) pre ->
      call_hasErr c = true ->
      inject mc name sig sets g =
        Some (g, Err (ErrProviderReturnsError name (call_out c)))) /\
  (forall g' e, inject mc name sig sets g = Some (g', Err e) -> g' = g).
Proof.
  split.
  - intros r0 calls pre c post Hres Hsolve Hcalls Hpre Hc.
    unfold inject. rewrite Hres. simpl. rewrite Hsolve.
    by rewrite (checkCalls_first name calls pre c post).
  - intros g' e. unfold inject.
    destruct (checkResults name (sig_results sig)) as [returnsErr| |];
      [|by intros [= <- _]|done].
    destruct (sig_results sig) as [|r0 rs]; [done|].
    destruct (solve mc _ _ sets) as [[calls| |]|];
      [|by intros [= <- _]|done|done].
    destruct (checkCalls name returnsErr calls);
      [|by intros [= <- _]|done].
    intros [= H]. by apply no_Err_emit in H.
Qed.

(** ** What the emission reads of the generator *)

Lemma append_nil_r (s : string) : s +:+ EmptyString = s.
Proof.
  induction s as [|c s IH]; [done|].
  change (String c (s +:+ EmptyString) = String c s). by rewrite IH.
Qed.

Lemma append_assoc (s1 s2 s3 : string) :
  (s1 +:+ s2) +:+ s3 = s1 +:+ (s2 +:+ s3).
Proof.
  induction s1 as [|c s1 IH]; [done|].
  change (String c ((s1 +:+ s2) +:+ s3) = String c (s1 +:+ (s2 +:+ s3))).
  by rewrite IH.
Qed.

Lemma clearBuf_prependBuf s g : clearBuf (prependBuf s g) = clearBuf g.
Proof. done. Qed.

Lemma prependBuf_prependBuf s1 s2 g :
  prependBuf s1 (prependBuf s2 g) = prependBuf (s1 +:+ s2) g.
Proof.
  unfold prependBuf. cbn [gen_currPackage gen_buf gen_imports gen_n].
  by rewrite append_assoc.
Qed.

Lemma prependBuf_clearBuf g : prependBuf (gen_buf g) (clearBuf g) = g.
Proof.
  destruct g as [pkg b ims k]. unfold prependBuf, clearBuf.
  cbn [gen_currPackage gen_buf gen_imports gen_n].
  by rewrite append_nil_r.
Qed.

Lemma framed_ret {A : Type} (a : A) : framed (ret a).
Proof. intros g. unfold ret. simpl. by rewrite prependBuf_clearBuf. Qed.

Lemma framed_panic {A : Type} msg : framed (@panic A msg).
Proof. intros g. unfold panic. simpl. by rewrite prependBuf_clearBuf. Qed.

Lemma framed_p s : framed (p s).
Proof. intros g. done. Qed.

Lemma framed_bind {A B : Type} (m : M A) (k : A -> M B) :
  framed m -> (forall a, framed (k a)) -> framed (bind m k).
Proof.
  intros Hm Hk g. unfold bind. rewrite (Hm g).
  destruct (m (clearBuf g)) as [g1 [a|e|msg]]; simpl; [|done..].
  rewrite (Hk a (prependBuf _ g1)), (Hk a g1). simpl.
  by rewrite clearBuf_prependBuf, prependBuf_prependBuf.
Qed.

Lemma framed_qualifyImport path : framed (qualifyImport path).
Proof.
  intros g. unfold qualifyImport, importName. simpl.
  repeat case_bool_decide; simpl.
  - by rewrite prependBuf_clearBuf.
  - by rewrite prependBuf_clearBuf.
  - unfold prependBuf. cbn [gen_currPackage gen_buf gen_imports gen_n].
    by rewrite append_nil_r.
Qed.

Lemma framed_if {A : Type} (b : bool) (m1 m2 : M A) :
  framed m1 -> framed m2 -> framed (if b then m1 else m2).
Proof. by destruct b. Qed.

Create HintDb framed.

#[local] Hint Resolve framed_ret framed_panic framed_p framed_bind
  framed_qualifyImport framed_if : framed.

Lemma framed_qualifiedID path sym : framed (qualifiedID path sym).
Proof.
  unfold qualifiedID. apply framed_bind; [auto with framed|].
  intros name. case_bool_decide; auto with framed.
Qed.

Lemma framed_writePieces qf ps :
  (forall path, framed (qf path)) -> framed (writePieces qf ps).
Proof.
  intros Hqf. induction ps as [|[s|path] ps IH]; simpl; auto 10 with framed.
Qed.

Lemma framed_TypeString_qf t : framed (TypeString_qf t qualifyPkg).
Proof. apply framed_writePieces. apply framed_qualifyImport. Qed.

#[local] Hint Resolve framed_qualifiedID framed_TypeString_qf : framed.

Lemma framed_zeroValue t : framed (zeroValue t qualifyPkg).
Proof.
  unfold zeroValue.
  destruct (types.Underlying t); auto 10 with framed.
Qed.

Lemma framed_emitParams params : forall i, framed (emitParams i params).
Proof.
  induction params as [|pi params IH]; intros i; simpl; auto 10 with framed.
Qed.

Lemma framed_emitArgs params args : forall j, framed (emitArgs params j args).
Proof.
  induction args as [|a args IH]; intros j; simpl; [auto with framed|].
  apply framed_bind; [auto with framed|]. intros _.
  apply framed_bind; [|auto].
  repeat apply framed_if; auto with framed.
  destruct (params !! Z.to_nat a); auto with framed.
Qed.

#[local] Hint Resolve framed_zeroValue framed_emitParams framed_emitArgs
  : framed.

Lemma framed_emitCalls params zv calls :
  forall i, framed (emitCalls params zv i calls).
Proof.
  induction calls as [|c calls IH]; intros i; simpl; auto 20 with framed.
Qed.

Lemma framed_emitReturnGiven outType params :
  framed (emitReturnGiven outType params).
Proof.
  induction params as [|pi params IH]; simpl; auto with framed.
Qed.

#[local] Hint Resolve framed_emitCalls framed_emitReturnGiven : framed.



(** ** The alias table is shared by the injectors of a run *)

(** Runs a closed term and records its value. *)
Ltac evaluate t H :=
  let v := eval vm_compute in t in
  assert (t = v) as H by (vm_compute; reflexivity).

Tactic Notation "evaluate" constr(t) "as" ident(H) := evaluate t H.


(** ** The message of a conflict *)

Lemma addProviders_conflict curr pm p ps prev :
  typeutil.At pm (provider_out p) = Some prev ->
  addProviders curr pm (p :: ps) =
    if bool_decide (ref_importPath (ent_from curr) ≠ EmptyString)
    then Err (ErrBindingAddedByInjector (provider_pos p) (provider_out p)
                (provider_pos prev))
    else Err (ErrBindingImportedBy (provider_pos p) (provider_out p)
                (ent_from curr) (provider_pos prev)).
Proof. intros H. simpl. by rewrite H. Qed.

(** C2, on the code.  The second binding of [A] is found in a set the
    injector names: the error says it was imported, by the empty
    reference.  It is found in a set that the set [Imp] imports: the error
    says it was added by the injector. *)
Theorem conflict_message_is_swapped :
  buildProviderMap Example.mc [Example.ref "a" "Module"; Example.ref "c" "Dup"]
    = Some (Err (ErrBindingImportedBy 70 Example.tA noRef 10)) /\
  buildProviderMap Example.mc [Example.ref "c" "Imp"]
    = Some (Err (ErrBindingAddedByInjector 10 Example.tA 70)).
Proof. split; vm_compute; reflexivity. Qed.

(** ** zeroValue *)

(** The value [zeroValue] writes for each class of underlying type, and
    the types it panics on. *)
Lemma zeroValue_categories t qf :
  zeroValue t qf =
    match types.Underlying t with
    | types.Array _ _ | types.Struct _ =>
        let* s := TypeString_qf t qf in ret (s +:+ "{}")
    | types.Basic k =>
        match k with
        | types.Bool | types.UntypedBool => ret "false"
        | types.String_ | types.UntypedString => ret (dq +:+ dq)
        | types.Invalid | types.UnsafePointer | types.UntypedNil =>
            panic "unreachable"
        | _ => ret "0"
        end
    | types.Chan _ _ | types.Interface _ | types.Map _ _ | types.Pointer _
    | types.Signature _ _ _ | types.Slice _ => ret "nil"
    | types.Tuple _ | types.Named _ _ _ => panic "unreachable"
    end.
Proof.
  unfold zeroValue. destruct (types.Underlying t) as [k| | | | | | | | | |];
    try done.
  by destruct k.
Qed.

(** C9, on the code.  [unsafe.Pointer] is a basic type without any of the
    flags [zeroValue] tests, so it ends in the branch marked unreachable;
    an injector that returns it panics after its header is written. *)
Theorem zeroValue_panics_on_unsafe_pointer :
  (forall qf g,
      zeroValue (types.Basic types.UnsafePointer) qf g =
        (g, Panic "unreachable")) /\
  inject Example.mc (inj_name Example.keep) (inj_sig Example.keep)
    (inj_sets Example.keep) (newGen "main") =
    Some ({| gen_currPackage := "main";
             gen_buf := "func keep(p unsafe.Pointer) unsafe.Pointer {" +:+ nl;
             gen_imports := ∅;
             gen_n := 0 |}, Panic "unreachable").
Proof. split; [reflexivity|]. vm_compute. reflexivity. Qed.

(** ** The theorems at the example program *)

Lemma solve_topological_order_witness :
  solve Example.mc Example.tC [] [Example.ref "a" "Module"] =
    Some (Ok Example.planC) /\
  Example.planC !! 2%nat = Some (Example.callOf Example.NewC [1; 0]) /\
  Forall (fun a => 0 <= a < Z.of_nat (length (@nil type)) + Z.of_nat 2)
    (call_args (Example.callOf Example.NewC [1; 0])).
Proof.
  assert (solve Example.mc Example.tC [] [Example.ref "a" "Module"] =
            Some (Ok Example.planC)) as H by (vm_compute; reflexivity).
  split; [exact H|]. split; [reflexivity|].
  exact (solve_topological_order Example.mc Example.tC []
           [Example.ref "a" "Module"] Example.planC H 2%nat
           (Example.callOf Example.NewC [1; 0]) eq_refl).
Defined.

Lemma solve_materializes_once_witness :
  solve Example.mc Example.tC [] [Example.ref "a" "Module"] =
    Some (Ok Example.planC) /\
  buildProviderMap Example.mc [Example.ref "a" "Module"] =
    Some (Ok Example.catalog) /\
  NoDup (call_out <$> Example.planC) /\
  exists k, (call_out <$> Example.planC) !! k = Some Example.tA /\
            forall k', (call_out <$> Example.planC) !! k' = Some Example.tA ->
                       k' = k.
Proof.
  assert (solve Example.mc Example.tC [] [Example.ref "a" "Module"] =
            Some (Ok Example.planC)) as H by (vm_compute; reflexivity).
  assert (buildProviderMap Example.mc [Example.ref "a" "Module"] =
            Some (Ok Example.catalog)) as Hpm by (vm_compute; reflexivity).
  split; [exact H|]. split; [exact Hpm|].
  destruct (solve_materializes_once Example.mc Example.tC []
              [Example.ref "a" "Module"] Example.planC Example.catalog
              H Hpm) as [Hnd Honce].
  split; [exact Hnd|].
  apply Honce.
  - right. exists (Example.callOf Example.NewB [0]), Example.NewB.
    split; [|split].
    + apply list_elem_of_In. simpl. tauto.
    + reflexivity.
    + apply list_elem_of_In. simpl. tauto.
  - apply not_elem_of_nil.
Defined.

Lemma solve_checks_givens_witness :
  (exists g', g' ∈ [Example.tA; Example.tA] /\
              solve Example.mc Example.tC [Example.tA; Example.tA]
                [Example.ref "a" "Module"] =
                Some (Err (ErrMultipleInputs g'))) /\
  (buildProviderMap Example.mc [Example.ref "a" "Module"] =
     Some (Ok Example.catalog) /\
   exists g' pp,
     g' ∈ [Example.tA] /\ typeutil.At Example.catalog g' = Some pp /\
     solve Example.mc Example.tZ [Example.tA] [Example.ref "a" "Module"] =
       Some (Err (ErrInputConflicts g' (provider_funcName pp)
                    (provider_pos pp)))) /\
  (solve Example.mc Example.tZ [] [Example.ref "a" "Module"] =
     Some (Err (ErrNoProviderOutput Example.tZ)) /\
   resolution_error (ErrNoProviderOutput Example.tZ)).
Proof.
  assert (buildProviderMap Example.mc [Example.ref "a" "Module"] =
            Some (Ok Example.catalog)) as Hpm by (vm_compute; reflexivity).
  split; [|split].
  - apply (proj1 (solve_checks_givens Example.mc Example.tC
                    [Example.tA; Example.tA] [Example.ref "a" "Module"])
             0%nat 1%nat Example.tA); [lia|reflexivity|reflexivity].
  - split; [exact Hpm|].
    apply (proj1 (proj2 (solve_checks_givens Example.mc Example.tZ
                           [Example.tA] [Example.ref "a" "Module"]))
             Example.catalog Example.tA Hpm).
    + apply NoDup_singleton.
    + apply list_elem_of_In. simpl. tauto.
    + exists Example.NewA. reflexivity.
  - assert (solve Example.mc Example.tZ [] [Example.ref "a" "Module"] =
              Some (Err (ErrNoProviderOutput Example.tZ))) as H
      by (vm_compute; reflexivity).
    split; [exact H|].
    apply (proj2 (proj2 (solve_checks_givens Example.mc Example.tZ
                           [] [Example.ref "a" "Module"]))
             Example.catalog (ErrNoProviderOutput Example.tZ) Hpm).
    + apply NoDup_nil_2.
    + intros g Hg. apply elem_of_nil in Hg. destruct Hg.
    + exact H.
Defined.


Lemma buildProviderMap_terminates_witness :
  (exists visited r,
      buildProviderMap_run Example.mc [Example.ref "c" "Self"] =
        Some (visited, r) /\ NoDup visited) /\
  buildProviderMap_loop 1 Example.mc [] [Example.ref "c" "Self"]
    [{| ent_to := Example.ref "c" "Self";
        ent_from := Example.ref "c" "Self"; ent_pos := 61 |}] =
  buildProviderMap_loop 0 Example.mc [] [Example.ref "c" "Self"] [] /\
  buildProviderMap Example.mc [Example.ref "c" "Self"] =
    Some (Ok [(Example.tZ, Example.NewZ)]).
Proof.
  pose proof (buildProviderMap_terminates Example.mc
                [Example.ref "c" "Self"]) as (H1 & H2 & H3).
  split; [exact H1|]. split.
  - apply H2. apply list_elem_of_In. simpl. tauto.
  - apply (H3 (Example.ref "c" "Self")
             {| set_providers := [Example.NewZ];
                set_imports := [Example.import "c" "Self" 61] |}).
    + vm_compute. reflexivity.
    + repeat constructor.
Defined.

Lemma inject_rejects_failing_call_witness :
  inject Example.mc "mustC" (inj_sig Example.mustC)
    [Example.ref "a" "Module"] (newGen "main") =
    Some (newGen "main", Err (ErrProviderReturnsError "mustC" Example.tB)) /\
  newGen "main" = newGen "main".
Proof.
  assert (inject Example.mc "mustC" (inj_sig Example.mustC)
            [Example.ref "a" "Module"] (newGen "main") =
            Some (newGen "main",
                  Err (ErrProviderReturnsError "mustC" Example.tB))) as H;
    [|split;
      [exact H
      |exact (proj2 (inject_rejects_failing_call Example.mc "mustC"
                       (inj_sig Example.mustC) [Example.ref "a" "Module"]
                       (newGen "main")) _ _ H)]].
  apply (proj1 (inject_rejects_failing_call Example.mc "mustC"
                  (inj_sig Example.mustC) [Example.ref "a" "Module"]
                  (newGen "main"))
           (Example.result_ Example.tC) Example.planC
           [Example.callOf Example.NewA []]
           (Example.callOf Example.NewB [0])
           [Example.callOf Example.NewC [1; 0]]).
  - reflexivity.
  - vm_compute. reflexivity.
  - reflexivity.
  - repeat constructor.
  - reflexivity.
Defined.


(** * Further properties of the resolution *)

Lemma solve_Ok_visit mc out given sets calls :
  solve mc out given sets = Some (Ok calls) ->
  exists providers idx0 st,
    buildProviderMap mc sets = Some (Ok providers) /\
    NoDup given /\
    (forall g, g ∈ given -> typeutil.At providers g = None) /\
    inverse_of given idx0 /\
    visit (S (length providers)) providers (Z.of_nat (length given)) [out]
      {| st_index := idx0; st_calls := [] |} = Some (Ok st) /\
    st_calls st = calls.
Proof.
  unfold solve.
  destruct (firstRepeated [] given) eqn:Hrep; [done|].
  apply firstRepeated_NoDup in Hrep.
  destruct (buildProviderMap mc sets) as [[providers| |]|]; try done.
  destruct (seedIndex mc providers [] 0 given) as [idx0| |] eqn:Hseed;
    try done.
  pose proof (seedIndex_Ok_free _ _ _ _ _ _ Hseed) as Hfree.
  destruct (seedIndex_Ok mc providers given [] [] inverse_of_nil Hrep Hfree)
    as (idx' & Hseed' & Hinv).
  change (seedIndex mc providers [] 0 given = Ok idx') in Hseed'.
  change ([] ++ given) with given in Hinv.
  rewrite Hseed in Hseed'. injection Hseed' as <-.
  unfold resolve.
  destruct (visit _ providers _ [out] _) as [[st| |]|] eqn:Hvisit; try done.
  intros [= <-]. by exists providers, idx0, st.
Qed.

Lemma solve_checked mc out given sets providers :
  buildProviderMap mc sets = Some (Ok providers) ->
  NoDup given ->
  (forall g, g ∈ given -> typeutil.At providers g = None) ->
  exists idx0,
    inverse_of given idx0 /\
    solve mc out given sets = resolve providers given idx0 out.
Proof.
  intros Hpm Hnd Hfree. unfold solve.
  pose proof Hnd as Hrep. apply firstRepeated_NoDup in Hrep.
  rewrite Hrep, Hpm.
  destruct (seedIndex_Ok mc providers given [] [] inverse_of_nil Hnd Hfree)
    as (idx & Hseed & Hinv).
  change (seedIndex mc providers [] 0 given = Ok idx) in Hseed.
  change ([] ++ given) with given in Hinv.
  rewrite Hseed. by exists idx.
Qed.

Lemma inverse_of_Some l idx t :
  inverse_of l idx -> t ∈ l -> is_Some (typeutil.At idx t).
Proof.
  intros Hinv [i Hi]%list_elem_of_lookup_1. exists (Z.of_nat i).
  apply Hinv. split; [lia|]. by rewrite Nat2Z.id.
Qed.

(** X1.  A plan runs the providers of the catalog on the right slots: the
    call for a type is the call of the catalog's provider of that type, and
    each of its arguments is the slot, a given or the output of an earlier
    call, that holds the type of the provider's parameter at that
    position. *)
Theorem solve_plan_ok mc out given sets calls providers :
  solve mc out given sets = Some (Ok calls) ->
  buildProviderMap mc sets = Some (Ok providers) ->
  forall k c,
    calls !! k = Some c ->
    exists p,
      typeutil.At providers (call_out c) = Some p /\
      call_importPath c = provider_importPath p /\
      call_funcName c = provider_funcName p /\
      call_hasErr c = provider_hasErr p /\
      Forall2 (fun t a => slot given (take k calls) a = Some t)
        (provider_args p) (call_args c).
Proof.
  intros (providers' & st & Hpm & _ & _ & [_ Hplan] & <- & _)%solve_Ok Hpm'.
  rewrite Hpm in Hpm'. injection Hpm' as ->.
  exact Hplan.
Qed.

Lemma visit_Ok_cases fuel providers ngiven trail st st' typ :
  visit fuel providers ngiven trail st = Some (Ok st') ->
  last trail = Some typ ->
  (is_Some (typeutil.At (st_index st) typ) /\ st' = st) \/
  (typeutil.At (st_index st) typ = None /\
   exists c, last (st_calls st') = Some c /\ call_out c = typ).
Proof.
  destruct fuel as [|fuel]; simpl; [done|].
  intros H Hlast. rewrite Hlast in H.
  destruct (typeutil.At (st_index st) typ) as [a|] eqn:Hidx.
  { left. split; [eauto|]. by injection H. }
  right. split; [done|].
  destruct (existsb (Identical typ) (removelast trail)); [done|].
  destruct (typeutil.At providers typ) as [p|].
  2:{ case_bool_decide; [done|].
      by destruct (trail !! (length trail - 2)%nat). }
  destruct (visitArgs _ trail (provider_args p) st) as [[st1| |]|];
    try done.
  destruct (argSlots (st_index st1) (provider_args p)); try done.
  injection H as <-. simpl. eexists. by rewrite last_snoc.
Qed.

(** X2.  When the requested type is one of the givens the plan is empty;
    otherwise the plan is not empty and its last call is the one for the
    requested type. *)
Theorem solve_output mc out given sets calls :
  solve mc out given sets = Some (Ok calls) ->
  (out ∈ given -> calls = []) /\
  (out ∉ given ->
   exists c, last calls = Some c /\ call_out c = out).
Proof.
  intros (providers & idx0 & st & _ & _ & _ & Hinv & Hvisit & <-)
         %solve_Ok_visit.
  apply visit_Ok_cases with (typ := out) in Hvisit as [[Hs ->]|[Hn Hc]];
    [| |done]; simpl in *.
  - split; [done|]. intros Hout.
    destruct Hs as [a Ha]. apply Hinv in Ha as [_ Ha].
    by apply list_elem_of_lookup_2 in Ha.
  - split; [|done]. intros Hout.
    apply (inverse_of_Some _ _ _ Hinv) in Hout as [a Ha]. congruence.
Qed.

Lemma get_no_Panic mc ref msg : get mc ref <> Panic msg.
Proof.
  unfold get. destruct (mc_prog mc !! ref_importPath ref) as [[e|mods]|];
    try done.
  by destruct (mods !! ref_name ref).
Qed.

Lemma addProviders_no_Panic curr ps :
  forall pm msg, addProviders curr pm ps <> Panic msg.
Proof.
  induction ps as [|p ps IH]; intros pm msg; simpl; [done|].
  destruct (typeutil.At pm (provider_out p)); [|apply IH].
  by case_bool_decide.
Qed.

Lemma buildProviderMap_loop_no_Panic mc :
  forall fuel pm visited next visited' msg,
    buildProviderMap_loop fuel mc pm visited next <>
      Some (visited', Panic msg).
Proof.
  induction fuel as [|fuel IH]; intros pm visited next visited' msg;
    simpl; [done|].
  destruct next as [|curr next]; [done|].
  case_bool_decide; [apply IH|].
  destruct (get mc (ent_to curr)) as [mod_|e|msg'] eqn:Hget.
  - destruct (addProviders curr pm (set_providers mod_)) eqn:Hadd.
    + apply IH.
    + done.
    + by apply addProviders_no_Panic in Hadd.
  - by destruct (IsValid (ent_pos curr)).
  - by apply get_no_Panic in Hget.
Qed.

Lemma buildProviderMap_no_Panic mc sets msg :
  buildProviderMap mc sets <> Some (Panic msg).
Proof.
  unfold buildProviderMap, buildProviderMap_run.
  destruct (buildProviderMap_loop _ mc [] [] _) as [[visited r]|] eqn:E;
    [|done].
  simpl. intros [= ->]. by apply buildProviderMap_loop_no_Panic in E.
Qed.

Lemma seedIndex_no_Panic mc providers given :
  forall idx i msg, seedIndex mc providers idx i given <> Panic msg.
Proof.
  induction given as [|g given IH]; intros idx i msg; simpl; [done|].
  destruct (typeutil.At providers g); [done|apply IH].
Qed.

Lemma visitArgs_no_Panic providers given
    (f : list type -> solveState -> option (result solveState)) trail :
  (forall a st st',
      solve_inv providers given st -> f (trail ++ [a]) st = Some (Ok st') ->
      solve_inv providers given st') ->
  (forall a st msg,
      solve_inv providers given st -> f (trail ++ [a]) st <> Some (Panic msg)) ->
  forall args st msg,
    solve_inv providers given st ->
    visitArgs f trail args st <> Some (Panic msg).
Proof.
  intros Hpost Hf. induction args as [|a args IH]; intros st msg Hst; simpl.
  - done.
  - destruct (f (trail ++ [a]) st) as [[st1|e|msg']|] eqn:E; try done.
    + apply IH. by eapply Hpost.
    + by apply Hf in E.
Qed.

Lemma visit_no_Panic providers given fuel :
  forall trail st msg,
    solve_inv providers given st ->
    trail <> [] ->
    visit fuel providers (Z.of_nat (length given)) trail st <>
      Some (Panic msg).
Proof.
  induction fuel as [|fuel IH]; intros trail st msg Hst Hne; simpl; [done|].
  destruct (last trail) as [typ|] eqn:Hlast.
  2:{ apply last_None in Hlast. done. }
  destruct (typeutil.At (st_index st) typ); [done|].
  destruct (existsb (Identical typ) (removelast trail)); [done|].
  destruct (typeutil.At providers typ) as [p|].
  2:{ case_bool_decide as Hlen; [done|].
      destruct (trail !! (length trail - 2)%nat) eqn:Hl; [done|].
      apply lookup_ge_None in Hl. destruct trail; simpl in *; [done|lia]. }
  destruct (visitArgs _ trail (provider_args p) st) as [[st1|e|msg']|] eqn:E;
    try done.
  - destruct (visitArgs_post providers given _
                (visit_post_holds providers given fuel) _ _ _ _ Hst E)
      as (_ & _ & Hall & _).
    by destruct (argSlots_ok _ _ Hall) as (l & -> & _).
  - assert (visitArgs (visit fuel providers (Z.of_nat (length given))) trail
              (provider_args p) st <> Some (Panic msg')) as Hno; [|done].
    apply (visitArgs_no_Panic providers given); [| |done].
    + intros a st0 st' H0 H'.
      by apply (visit_post_holds providers given) in H' as [? _].
    + intros a st0 msg0 H0. apply IH; [done|]. by destruct trail.
Qed.

Lemma solve_no_Panic mc out given sets msg :
  solve mc out given sets <> Some (Panic msg).
Proof.
  unfold solve. destruct (firstRepeated [] given) eqn:Hrep; [done|].
  apply firstRepeated_NoDup in Hrep.
  destruct (buildProviderMap mc sets) as [[providers|e|msg']|] eqn:Hpm;
    try done.
  2:{ by apply buildProviderMap_no_Panic in Hpm. }
  destruct (seedIndex mc providers [] 0 given) as [idx0| |] eqn:Hseed;
    try done.
  2:{ by apply seedIndex_no_Panic in Hseed. }
  pose proof (seedIndex_Ok_free _ _ _ _ _ _ Hseed) as Hfree.
  destruct (seedIndex_Ok mc providers given [] [] inverse_of_nil Hrep Hfree)
    as (idx' & Hseed' & Hinv).
  change (seedIndex mc providers [] 0 given = Ok idx') in Hseed'.
  change ([] ++ given) with given in Hinv.
  rewrite Hseed in Hseed'. injection Hseed' as <-.
  unfold resolve.
  destruct (visit _ providers _ [out] _) as [[st|e|msg']|] eqn:Hvisit;
    try done.
  apply (visit_no_Panic providers given) in Hvisit; [done| |done].
  split; [by apply inverse_of_index_inv|]. by intros k c Hk.
Qed.

(** X3.  [solve] always ends, and it ends with a plan or with an error: it
    never panics, as the type assertion on the slot of an argument and the
    indexing of the trail cannot fail. *)
Theorem solve_never_panics mc out given sets :
  (exists calls, solve mc out given sets = Some (Ok calls)) \/
  (exists e, solve mc out given sets = Some (Err e)).
Proof.
  destruct (solve_total mc out given sets) as [[calls|e|msg] H].
  - left. by exists calls.
  - right. by exists e.
  - by apply solve_no_Panic in H.
Qed.

(** X4.  A requested type that is not given and has no provider is the
    error for the output of the injector; a first parameter of its provider
    that is not given and has no provider is the error that names the
    parameter type and the requested type. *)
Theorem solve_missing_provider mc out given sets providers :
  buildProviderMap mc sets = Some (Ok providers) ->
  NoDup given ->
  (forall g, g ∈ given -> typeutil.At providers g = None) ->
  out ∉ given ->
  (typeutil.At providers out = None ->
   solve mc out given sets = Some (Err (ErrNoProviderOutput out))) /\
  (forall p a rest,
      typeutil.At providers out = Some p ->
      provider_args p = a :: rest ->
      a ∉ given -> a <> out ->
      typeutil.At providers a = None ->
      solve mc out given sets = Some (Err (ErrNoProviderRequired a out))).
Proof.
  intros Hpm Hnd Hfree Hout.
  destruct (solve_checked mc out given sets providers Hpm Hnd Hfree)
    as (idx0 & Hinv & ->).
  unfold resolve.
  pose proof (inverse_of_None _ _ _ Hinv Hout) as Hnone.
  split.
  - intros Hp. simpl. by rewrite Hnone, Hp.
  - intros p a rest Hp Hargs Ha Hne Hpa.
    pose proof (inverse_of_None _ _ _ Hinv Ha) as Hnone_a.
    destruct (length providers) as [|n] eqn:Hlen.
    { apply one_key_length in Hp. lia. }
    rewrite (visit_descend _ _ _ [out] out _ p a rest) with
      (e := ErrNoProviderRequired a out); try done.
    + apply not_elem_of_nil.
    + simpl. rewrite Hnone_a, Hpa.
      rewrite (Identical_ne a out Hne). done.
Qed.

Lemma call_needed_app_l providers typ more more' k c :
  call_needed providers typ more k c ->
  call_needed providers typ (more ++ more') k c.
Proof.
  intros [H|(k' & c' & p' & Hk & Hc' & Hp' & Hin)]; [by left|].
  right. exists k', c', p'. split; [done|]. split; [|done].
  by apply lookup_app_l_Some.
Qed.

Lemma visitArgs_needed providers
    (f : list type -> solveState -> option (result solveState)) trail :
  (forall a st st',
      f (trail ++ [a]) st = Some (Ok st') ->
      exists more,
        st_calls st' = st_calls st ++ more /\
        forall k c, more !! k = Some c -> call_needed providers a more k c) ->
  forall args st st',
    visitArgs f trail args st = Some (Ok st') ->
    exists more,
      st_calls st' = st_calls st ++ more /\
      forall k c, more !! k = Some c ->
                  call_needed_by_args providers args more k c.
Proof.
  intros Hf. induction args as [|a args IH]; intros st st'; simpl.
  - intros [= <-]. exists []. split; [by rewrite app_nil_r|].
    by intros k c ?.
  - destruct (f (trail ++ [a]) st) as [[st1| |]|] eqn:E; try done.
    intros Hrest.
    destruct (Hf _ _ _ E) as (m1 & Hm1 & Hn1).
    destruct (IH _ _ Hrest) as (m2 & Hm2 & Hn2).
    exists (m1 ++ m2). split; [by rewrite Hm2, Hm1, app_assoc|].
    intros k c [Hk|[Hge Hk]]%lookup_app_Some.
    + destruct (Hn1 k c Hk) as [H|(k' & c' & p' & Hlt & Hc' & Hp' & Hin)].
      * left. rewrite H. left.
      * right. exists k', c', p'. split; [done|]. split; [|done].
        by apply lookup_app_l_Some.
    + destruct (Hn2 _ c Hk) as [H|(k' & c' & p' & Hlt & Hc' & Hp' & Hin)].
      * left. by right.
      * right. exists (length m1 + k')%nat, c', p'.
        split; [lia|]. split; [|done].
        by rewrite lookup_app_r, Nat.add_comm, Nat.add_sub by lia.
Qed.

Lemma visit_needed providers ngiven fuel :
  forall trail st st' typ,
    visit fuel providers ngiven trail st = Some (Ok st') ->
    last trail = Some typ ->
    exists more,
      st_calls st' = st_calls st ++ more /\
      forall k c, more !! k = Some c -> call_needed providers typ more k c.
Proof.
  induction fuel as [|fuel IH]; intros trail st st' typ; simpl; [done|].
  intros H Hlast. rewrite Hlast in H.
  destruct (typeutil.At (st_index st) typ).
  { injection H as <-. exists []. split; [by rewrite app_nil_r|].
    by intros k c ?. }
  destruct (existsb (Identical typ) (removelast trail)); [done|].
  destruct (typeutil.At providers typ) as [p|] eqn:Hp.
  2:{ case_bool_decide; [done|].
      by destruct (trail !! (length trail - 2)%nat). }
  destruct (visitArgs _ trail (provider_args p) st) as [[st1| |]|] eqn:E;
    try done.
  apply (visitArgs_needed providers) in E as (m & Hm & Hn).
  2:{ intros a st0 st0' H0. apply (IH _ _ _ a H0). by rewrite last_snoc. }
  destruct (argSlots (st_index st1) (provider_args p)) as [l| |]; try done.
  injection H as <-. simpl.
  eexists (m ++ [_]). split; [by rewrite Hm, app_assoc|].
  intros k c [Hk|[Hge Hk]]%lookup_app_Some.
  - destruct (Hn k c Hk) as [Hin|(k' & c' & p' & Hlt & Hc' & Hp' & Hin)].
    + right. eexists (length m), _, p. split.
      { apply lookup_lt_Some in Hk. lia. }
      split; [by rewrite lookup_app_r, Nat.sub_diag|]. by split.
    + right. exists k', c', p'. split; [done|]. split; [|done].
      by apply lookup_app_l_Some.
  - apply list_lookup_singleton_Some in Hk as [_ <-]. by left.
Qed.

(** X5.  A plan has no call that is not needed: every call is the call for
    the requested type, or a later call of the plan runs a provider that
    takes its output. *)
Theorem solve_calls_needed mc out given sets calls providers :
  solve mc out given sets = Some (Ok calls) ->
  buildProviderMap mc sets = Some (Ok providers) ->
  forall k c,
    calls !! k = Some c ->
    call_out c = out \/
    exists k' c' p',
      (k < k')%nat /\ calls !! k' = Some c' /\
      typeutil.At providers (call_out c') = Some p' /\
      call_out c ∈ provider_args p'.
Proof.
  intros (providers' & idx0 & st & Hpm & _ & _ & _ & Hvisit & <-)
         %solve_Ok_visit Hpm'.
  rewrite Hpm in Hpm'. injection Hpm' as ->.
  apply (visit_needed providers) with (typ := out) in Hvisit
    as (more & Hmore & Hn); [|done].
  simpl in Hmore. rewrite Hmore. exact Hn.
Qed.

(** * Further properties of the merge *)

Lemma Set'_fresh {V : Type} (m : typeutil.Map V) k (v : V) :
  typeutil.At m k = None -> typeutil.Set' m k v = m ++ [(k, v)].
Proof.
  induction m as [|[k0 v0] m IH]; simpl; [done|].
  destruct (Identical k k0); [done|]. intros H. by rewrite IH.
Qed.

Lemma bindings_keys ps : (bindings ps).*1 = provider_out <$> ps.
Proof. unfold bindings. induction ps; simpl; [done|]. by f_equal. Qed.

Lemma bindings_app ps qs : bindings (ps ++ qs) = bindings ps ++ bindings qs.
Proof. unfold bindings. apply map_app. Qed.

Lemma At_bindings ps t p :
  NoDup (provider_out <$> ps) ->
  typeutil.At (bindings ps) t = Some p <-> p ∈ ps /\ provider_out p = t.
Proof.
  induction ps as [|q ps IH]; simpl.
  - intros _. split; [done|]. by intros [?%elem_of_nil _].
  - intros [Hq Hnd]%NoDup_cons. specialize (IH Hnd).
    destruct (Identical t (provider_out q)) eqn:E.
    + apply Identical_spec in E. subst t. split.
      * intros [= ->]. split; [left|done].
      * intros [[->|Hin]%elem_of_cons Hout]; [done|].
        destruct Hq. rewrite <- Hout. by apply list_elem_of_fmap_2.
    + rewrite IH. split.
      * intros [Hin Hout]. split; [by right|done].
      * intros [[->|Hin]%elem_of_cons Hout]; [|done].
        subst t. by rewrite Identical_refl in E.
Qed.

Lemma addProviders_Ok curr ps :
  forall l pm',
    NoDup (provider_out <$> l) ->
    addProviders curr (bindings l) ps = Ok pm' ->
    pm' = bindings (l ++ ps) /\ NoDup (provider_out <$> l ++ ps).
Proof.
  induction ps as [|p ps IH]; intros l pm' Hnd; simpl.
  - intros [= <-]. by rewrite app_nil_r.
  - destruct (typeutil.At (bindings l) (provider_out p)) eqn:E.
    { by case_bool_decide. }
    rewrite (Set'_fresh _ _ _ E).
    change [(provider_out p, p)] with (bindings [p]).
    rewrite <- bindings_app. intros H.
    apply IH in H.
    + by rewrite <- app_assoc in H.
    + rewrite fmap_app. apply NoDup_app. split; [done|].
      split; [|apply NoDup_singleton].
      intros x Hx ->%list_elem_of_singleton.
      apply At_None_not_key in E. by rewrite bindings_keys in E.
Qed.

Lemma providersOf_Ok mc ref mod_ :
  get mc ref = Ok mod_ -> providersOf mc ref = set_providers mod_.
Proof. unfold providersOf. by intros ->. Qed.

Lemma buildProviderMap_loop_inv mc sets :
  forall fuel pm visited next visited' pm',
    merge_inv mc sets pm visited next ->
    buildProviderMap_loop fuel mc pm visited next = Some (visited', Ok pm') ->
    merge_inv mc sets pm' visited' [].
Proof.
  induction fuel as [|fuel IH]; intros pm visited next visited' pm' Hinv;
    simpl; [done|].
  destruct Hinv as (Hpm & Hnd & Hvis & Hnext & Hroots & Hclosed & Hget).
  destruct next as [|curr next].
  { intros [= <- <-]. by repeat split. }
  case_bool_decide as Hseen.
  - apply IH. repeat split; try done.
    + intros e He. apply Hnext. by right.
    + intros r Hr. destruct (Hroots r Hr) as [|[->|H]%elem_of_cons]; auto.
    + intros r mod_ imp Hr Hg Hi.
      destruct (Hclosed r mod_ imp Hr Hg Hi) as [|[->|H]%elem_of_cons]; auto.
  - destruct (get mc (ent_to curr)) as [mod_|e|msg] eqn:Hcurr.
    2:{ by destruct (IsValid (ent_pos curr)). }
    2:{ done. }
    destruct (addProviders curr pm (set_providers mod_)) as [pm1| |] eqn:Hadd;
      try done.
    rewrite Hpm in Hadd. apply addProviders_Ok in Hadd as [Hpm1 Hnd1];
      [|done].
    assert (reachable mc sets (ent_to curr)) as Hreach.
    { apply Hnext. left. }
    assert (flat_map (providersOf mc) (visited ++ [ent_to curr]) =
            flat_map (providersOf mc) visited ++ set_providers mod_) as Hflat.
    { rewrite flat_map_app. simpl.
      by rewrite (providersOf_Ok _ _ _ Hcurr), app_nil_r. }
    apply IH. unfold merge_inv. rewrite Hflat.
    split; [done|]. split; [done|]. split; [|split; [|split; [|split]]].
    + intros r [Hr| ->%list_elem_of_singleton]%elem_of_app; auto.
    + intros e [He|He]%elem_of_app.
      * apply Hnext. by right.
      * unfold importEntries in He.
        apply list_elem_of_fmap in He as (imp & -> & Himp). simpl.
        by eapply reachable_import.
    + intros r Hr. rewrite elem_of_app, fmap_app, elem_of_app.
      destruct (Hroots r Hr) as [|[->|H]%elem_of_cons]; auto.
      left. right. left.
    + intros r m imp [Hr| ->%list_elem_of_singleton]%elem_of_app Hg Hi.
      * rewrite elem_of_app, fmap_app, elem_of_app.
        destruct (Hclosed r m imp Hr Hg Hi) as [|[->|H]%elem_of_cons]; auto.
        left. right. left.
      * rewrite Hcurr in Hg. injection Hg as <-.
        right. rewrite fmap_app, elem_of_app. right.
        apply list_elem_of_fmap.
        exists {| ent_to := import_ref imp; ent_from := ent_to curr;
                  ent_pos := import_pos imp |}.
        split; [done|]. unfold importEntries.
        apply list_elem_of_In,
          (in_map (fun imp0 => {| ent_to := import_ref imp0;
                                  ent_from := ent_to curr;
                                  ent_pos := import_pos imp0 |})),
          list_elem_of_In.
        done.
    + intros r [Hr| ->%list_elem_of_singleton]%elem_of_app; eauto.
Qed.

Lemma merge_inv_init mc sets : merge_inv mc sets [] [] (rootEntries sets).
Proof.
  unfold merge_inv, rootEntries. simpl.
  split; [done|]. split; [constructor|].
  split; [by intros r ?%elem_of_nil|].
  split; [|split; [|split]].
  - intros e (r & -> & Hr)%list_elem_of_fmap. simpl. by constructor.
  - intros r Hr. right. apply list_elem_of_fmap.
    exists {| ent_to := r; ent_from := noRef; ent_pos := 0 |}.
    split; [done|].
    apply list_elem_of_In,
      (in_map (fun ref => {| ent_to := ref; ent_from := noRef;
                             ent_pos := 0 |})), list_elem_of_In.
    done.
  - by intros r m imp ?%elem_of_nil.
  - by intros r ?%elem_of_nil.
Qed.

Lemma merge_inv_final mc sets pm visited :
  merge_inv mc sets pm visited [] ->
  forall r, reachable mc sets r -> r ∈ visited.
Proof.
  intros (_ & _ & _ & _ & Hroots & Hclosed & _) r Hr.
  induction Hr as [r Hr|r m imp _ IH Hg Hi].
  - destruct (Hroots r Hr) as [|?%elem_of_nil]; done.
  - destruct (Hclosed r m imp IH Hg Hi) as [|?%elem_of_nil]; done.
Qed.

(** X6.  A successful merge visits exactly the sets the roots lead to along
    the imports, every one of them can be fetched, and the catalog binds a
    type to a provider exactly when the provider has this output type and
    belongs to one of these sets; it lists the providers in the order of
    the visits. *)
Theorem buildProviderMap_catalog mc sets visited pm :
  buildProviderMap_run mc sets = Some (visited, Ok pm) ->
  (forall r, r ∈ visited <-> reachable mc sets r) /\
  (forall r, reachable mc sets r -> exists mod_, get mc r = Ok mod_) /\
  pm = bindings (flat_map (providersOf mc) visited) /\
  (forall t p,
      typeutil.At pm t = Some p <->
      provider_out p = t /\
      exists r mod_,
        reachable mc sets r /\ get mc r = Ok mod_ /\
        p ∈ set_providers mod_).
Proof.
  intros H. unfold buildProviderMap_run in H.
  apply (buildProviderMap_loop_inv mc sets) in H; [|apply merge_inv_init].
  pose proof (merge_inv_final _ _ _ _ H) as Hall.
  destruct H as (Hpm & Hnd & Hvis & _ & _ & _ & Hget).
  split; [|split; [|split]].
  - intros r. split; auto.
  - intros r Hr. auto.
  - done.
  - intros t p. rewrite Hpm, (At_bindings _ _ _ Hnd). split.
    + intros [Hin Hout]. split; [done|].
      apply list_elem_of_In, in_flat_map in Hin as (r & Hr & Hp).
      apply list_elem_of_In in Hr, Hp.
      destruct (Hget r Hr) as [m Hm].
      rewrite (providersOf_Ok _ _ _ Hm) in Hp.
      exists r, m. auto.
    + intros [Hout (r & m & Hr & Hm & Hp)]. split; [|done].
      apply list_elem_of_In, in_flat_map. exists r.
      split; apply list_elem_of_In; [auto|].
      by rewrite (providersOf_Ok _ _ _ Hm).
Qed.

Lemma buildProviderMap_Ok_run mc sets pm :
  buildProviderMap mc sets = Some (Ok pm) ->
  exists visited, buildProviderMap_run mc sets = Some (visited, Ok pm).
Proof.
  unfold buildProviderMap.
  destruct (buildProviderMap_run mc sets) as [[visited r]|]; [|done].
  simpl. intros [= ->]. by exists visited.
Qed.

Lemma buildProviderMap_not_Ok mc sets :
  (forall pm, buildProviderMap mc sets <> Some (Ok pm)) ->
  exists e, buildProviderMap mc sets = Some (Err e).
Proof.
  intros H. destruct (buildProviderMap_total mc sets) as [[pm|e|msg] Hr].
  - by apply H in Hr.
  - by exists e.
  - by apply buildProviderMap_no_Panic in Hr.
Qed.

Lemma buildProviderMap_Ok_inv mc sets pm :
  buildProviderMap mc sets = Some (Ok pm) ->
  exists visited, merge_inv mc sets pm visited [].
Proof.
  intros [visited H]%buildProviderMap_Ok_run. exists visited.
  unfold buildProviderMap_run in H.
  apply (buildProviderMap_loop_inv mc sets) in H; [done|].
  apply merge_inv_init.
Qed.

Lemma merge_inv_lookup mc sets pm visited r mod_ p :
  merge_inv mc sets pm visited [] ->
  reachable mc sets r -> get mc r = Ok mod_ -> p ∈ set_providers mod_ ->
  typeutil.At pm (provider_out p) = Some p.
Proof.
  intros Hinv Hr Hm Hp.
  pose proof (merge_inv_final _ _ _ _ Hinv r Hr) as Hvis.
  destruct Hinv as (-> & Hnd & _).
  apply At_bindings; [done|]. split; [|done].
  apply list_elem_of_In, in_flat_map. exists r.
  split; apply list_elem_of_In; [done|].
  by rewrite (providersOf_Ok _ _ _ Hm).
Qed.

(** X7.  Two different providers of one type in sets the roots lead to make
    the merge fail, in whatever order the sets are visited. *)
Theorem buildProviderMap_conflict mc sets r1 r2 mod1 mod2 p1 p2 :
  reachable mc sets r1 -> get mc r1 = Ok mod1 -> p1 ∈ set_providers mod1 ->
  reachable mc sets r2 -> get mc r2 = Ok mod2 -> p2 ∈ set_providers mod2 ->
  provider_out p1 = provider_out p2 ->
  p1 <> p2 ->
  exists e, buildProviderMap mc sets = Some (Err e).
Proof.
  intros Hr1 Hg1 Hp1 Hr2 Hg2 Hp2 Hout Hne.
  apply buildProviderMap_not_Ok. intros pm [visited H]%buildProviderMap_Ok_inv.
  pose proof (merge_inv_lookup _ _ _ _ _ _ _ H Hr1 Hg1 Hp1) as H1.
  pose proof (merge_inv_lookup _ _ _ _ _ _ _ H Hr2 Hg2 Hp2) as H2.
  rewrite Hout in H1. congruence.
Qed.

(** X8.  A set the roots lead to that cannot be fetched makes the merge
    fail. *)
Theorem buildProviderMap_unresolved mc sets r e :
  reachable mc sets r -> get mc r = Err e ->
  exists e', buildProviderMap mc sets = Some (Err e').
Proof.
  intros Hr Hg.
  apply buildProviderMap_not_Ok. intros pm [visited H]%buildProviderMap_Ok_inv.
  pose proof (merge_inv_final _ _ _ _ H r Hr) as Hvis.
  destruct H as (_ & _ & _ & _ & _ & _ & Hget).
  destruct (Hget r Hvis) as [m Hm]. congruence.
Qed.

(** * Further properties of the generator *)

Lemma itoa_inj a b : itoa a = itoa b -> a = b.
Proof.
  unfold itoa. intros H.
  assert (forall z, NilZero.int_of_string (NilZero.string_of_int (Z.to_int z))
                    = Some (Z.to_int z)) as Hisi.
  { intros z. apply NilZero.isi; destruct z; simpl; try done.
    - intros [= E]. by apply DecimalPos.Unsigned.to_uint_nonnil in E.
    - intros [= E]. by apply DecimalPos.Unsigned.to_uint_nonnil in E. }
  pose proof (Hisi a) as Ha. rewrite H, Hisi in Ha. injection Ha as Ha.
  by rewrite <- (DecimalZ.of_to a), <- (DecimalZ.of_to b), Ha.
Qed.

Lemma pkg_alias_inj a b : "pkg" +:+ itoa a = "pkg" +:+ itoa b -> a = b.
Proof. intros [= H]. by apply itoa_inj. Qed.

Lemma alias_step_refl g : alias_step g g.
Proof. unfold alias_step. split; [done|]. split; [lia|]. by split. Qed.

Lemma alias_step_trans g1 g2 g3 :
  alias_step g1 g2 -> alias_step g2 g3 -> alias_step g1 g3.
Proof.
  intros (Hp1 & Hn1 & Hk1 & Ho1) (Hp2 & Hn2 & Hk2 & Ho2).
  unfold alias_step. split; [congruence|]. split; [lia|]. split; auto.
Qed.

Lemma alias_steps_ret {A : Type} (a : A) : alias_steps (ret a).
Proof. intros g g' r [= <- _]. apply alias_step_refl. Qed.

Lemma alias_steps_panic {A : Type} msg : alias_steps (@panic A msg).
Proof. intros g g' r [= <- _]. apply alias_step_refl. Qed.

Lemma alias_steps_p s : alias_steps (p s).
Proof.
  intros g g' r [= <- _]. unfold alias_step, alias_ok. simpl.
  split; [done|]. split; [lia|]. by split.
Qed.

Lemma alias_steps_bind {A B : Type} (m : M A) (k : A -> M B) :
  alias_steps m -> (forall a, alias_steps (k a)) -> alias_steps (bind m k).
Proof.
  intros Hm Hk g g' r. unfold bind.
  destruct (m g) as [g1 [a|e|msg]] eqn:E.
  - intros H. eapply alias_step_trans; [by eapply Hm|by eapply Hk].
  - intros [= <- _]. by eapply Hm.
  - intros [= <- _]. by eapply Hm.
Qed.

Lemma alias_steps_if {A : Type} (b : bool) (m1 m2 : M A) :
  alias_steps m1 -> alias_steps m2 -> alias_steps (if b then m1 else m2).
Proof. by destruct b. Qed.

Lemma alias_steps_qualifyImport path : alias_steps (qualifyImport path).
Proof.
  intros g g' r. unfold qualifyImport.
  case_bool_decide as Hcur; [intros [= <- _]; apply alias_step_refl|].
  case_bool_decide as Hname; [intros [= <- _]; apply alias_step_refl|].
  intros [= <- _]. unfold alias_step. simpl.
  assert (Hold : forall name, gen_imports g !! path = Some name ->
                              name = EmptyString).
  { intros name Hl. unfold importName in Hname. rewrite Hl in Hname.
    simpl in Hname. by destruct (decide (name = EmptyString)). }
  split; [done|]. split; [lia|]. split.
  - intros q name Hq Hne. destruct (decide (path = q)) as [<-|Hpq].
    + by apply Hold in Hq.
    + by rewrite lookup_insert_ne.
  - intros (Hn & Hform & Hinj & Hown). unfold alias_ok. simpl.
    assert (Hnone : gen_imports g !! path = None).
    { apply eq_None_not_Some. intros [name Hl].
      destruct (Hform _ _ Hl) as (k & _ & Hk).
      apply Hold in Hl. by subst name. }
    split; [lia|]. split; [|split].
    + intros q name. destruct (decide (path = q)) as [<-|Hpq].
      * rewrite lookup_insert_eq. intros [= <-]. exists (gen_n g).
        split; [lia|done].
      * rewrite lookup_insert_ne by done. intros Hq.
        destruct (Hform _ _ Hq) as (k & Hk & ->). exists k. split; [lia|done].
    + intros p1 p2 name.
      destruct (decide (path = p1)) as [<-|H1];
        destruct (decide (path = p2)) as [<-|H2]; try done.
      * rewrite lookup_insert_eq, lookup_insert_ne by done.
        intros [= <-] H. destruct (Hform _ _ H) as (k & Hk & Heq).
        apply pkg_alias_inj in Heq. lia.
      * rewrite lookup_insert_eq, lookup_insert_ne by done.
        intros H [= <-]. destruct (Hform _ _ H) as (k & Hk & Heq).
        apply pkg_alias_inj in Heq. lia.
      * rewrite !lookup_insert_ne by done. apply Hinj.
    + rewrite lookup_insert_ne by done. done.
Qed.

Create HintDb alias.

#[local] Hint Resolve alias_steps_ret alias_steps_panic alias_steps_p
  alias_steps_bind alias_steps_if alias_steps_qualifyImport : alias.

Lemma alias_steps_qualifiedID path sym : alias_steps (qualifiedID path sym).
Proof.
  unfold qualifiedID. apply alias_steps_bind; [auto with alias|].
  intros name. case_bool_decide; auto with alias.
Qed.

Lemma alias_steps_writePieces qf ps :
  (forall path, alias_steps (qf path)) -> alias_steps (writePieces qf ps).
Proof.
  intros Hqf. induction ps as [|[s|path] ps IH]; simpl; auto 10 with alias.
Qed.

Lemma alias_steps_TypeString_qf t : alias_steps (TypeString_qf t qualifyPkg).
Proof. apply alias_steps_writePieces. apply alias_steps_qualifyImport. Qed.

#[local] Hint Resolve alias_steps_qualifiedID alias_steps_TypeString_qf
  : alias.

Lemma alias_steps_zeroValue t : alias_steps (zeroValue t qualifyPkg).
Proof.
  unfold zeroValue. destruct (types.Underlying t); auto 10 with alias.
Qed.

Lemma alias_steps_emitParams params :
  forall i, alias_steps (emitParams i params).
Proof.
  induction params as [|pi params IH]; intros i; simpl; auto 10 with alias.
Qed.

Lemma alias_steps_emitArgs params args :
  forall j, alias_steps (emitArgs params j args).
Proof.
  induction args as [|a args IH]; intros j; simpl; [auto with alias|].
  apply alias_steps_bind; [auto with alias|]. intros _.
  apply alias_steps_bind; [|auto].
  repeat apply alias_steps_if; auto with alias.
  destruct (params !! Z.to_nat a); auto with alias.
Qed.

#[local] Hint Resolve alias_steps_zeroValue alias_steps_emitParams
  alias_steps_emitArgs : alias.

Lemma alias_steps_emitCalls params zv calls :
  forall i, alias_steps (emitCalls params zv i calls).
Proof.
  induction calls as [|c calls IH]; intros i; simpl; auto 20 with alias.
Qed.

Lemma alias_steps_emitReturnGiven outType params :
  alias_steps (emitReturnGiven outType params).
Proof.
  induction params as [|pi params IH]; simpl; auto with alias.
Qed.

#[local] Hint Resolve alias_steps_emitCalls alias_steps_emitReturnGiven
  : alias.

Lemma alias_steps_emit name params outType returnsErr calls :
  alias_steps (emit name params outType returnsErr calls).
Proof.
  unfold emit. repeat (apply alias_steps_bind; [|intros ?]); auto with alias.
  destruct calls; auto with alias.
Qed.

Lemma inject_alias_step mc name sig sets g g' r :
  inject mc name sig sets g = Some (g', r) -> alias_step g g'.
Proof.
  unfold inject.
  destruct (checkResults name (sig_results sig)) as [returnsErr| |];
    try (intros [= <- _]; apply alias_step_refl).
  destruct (sig_results sig) as [|r0 rs];
    try (intros [= <- _]; apply alias_step_refl).
  destruct (solve mc _ _ sets) as [[calls| |]|]; try done;
    try (intros [= <- _]; apply alias_step_refl).
  destruct (checkCalls name returnsErr calls);
    try (intros [= <- _]; apply alias_step_refl).
  intros [= H]. by apply alias_steps_emit in H.
Qed.

Lemma Generate_loop_alias_step mc fns :
  forall g g' r, Generate_loop mc fns g = Some (g', r) -> alias_step g g'.
Proof.
  induction fns as [|fn fns IH]; intros g g' r; simpl.
  - intros [= <- _]. apply alias_step_refl.
  - destruct (inject mc _ _ _ g) as [[g1 [[]|e|msg]]|] eqn:E; try done.
    + intros H. eapply alias_step_trans; [by eapply inject_alias_step|].
      by eapply IH.
    + intros [= <- _]. by eapply inject_alias_step.
    + intros [= <- _]. by eapply inject_alias_step.
Qed.

Lemma alias_ok_newGen pkg : alias_ok (newGen pkg).
Proof.
  unfold alias_ok, newGen. simpl. split; [lia|].
  split; [|split]; try done.
Qed.

(** X9.  In every run of [Generate] the alias table stays in order: two
    different import paths never get the same alias, the package of the
    generated file gets none, and every alias is [pkg] followed by a number
    below the counter. *)
Theorem Generate_aliases_distinct mc pkg fns g r :
  Generate_loop mc fns (newGen pkg) = Some (g, r) ->
  (forall p1 p2 name,
      gen_imports g !! p1 = Some name -> gen_imports g !! p2 = Some name ->
      p1 = p2) /\
  gen_imports g !! pkg = None /\
  (forall path name,
      gen_imports g !! path = Some name ->
      exists k, 0 <= k < gen_n g /\ name = "pkg" +:+ itoa k).
Proof.
  intros (Hpkg & _ & _ & Hok)%Generate_loop_alias_step.
  destruct (Hok (alias_ok_newGen pkg)) as (_ & Hform & Hinj & Hown).
  rewrite Hpkg in Hown. by repeat split.
Qed.

(** X10.  An alias, once given to an import path, is kept by every later
    injector of the run, and the counter is never lowered. *)
Theorem inject_keeps_aliases mc name sig sets g g' r :
  inject mc name sig sets g = Some (g', r) ->
  gen_n g <= gen_n g' /\
  forall path alias,
    gen_imports g !! path = Some alias -> alias <> EmptyString ->
    gen_imports g' !! path = Some alias /\
    qualifyImport path g' =
      (g', Ok (if bool_decide (path = gen_currPackage g') then EmptyString
               else alias)).
Proof.
  intros (Hpkg & Hn & Hkeep & _)%inject_alias_step. split; [done|].
  intros path alias Hl Hne. pose proof (Hkeep _ _ Hl Hne) as Hl'.
  split; [done|]. unfold qualifyImport, importName. rewrite Hl'. simpl.
  case_bool_decide; [done|]. by rewrite bool_decide_eq_true_2.
Qed.

Lemma panic_free_ret {A : Type} (a : A) : panic_free (ret a).
Proof. by intros g g' msg. Qed.

Lemma panic_free_p s : panic_free (p s).
Proof. by intros g g' msg. Qed.

Lemma panic_free_bind {A B : Type} (m : M A) (k : A -> M B) :
  panic_free m -> (forall a, panic_free (k a)) -> panic_free (bind m k).
Proof.
  intros Hm Hk g g' msg. unfold bind.
  destruct (m g) as [g1 [a|e1|msg1]] eqn:E.
  - apply Hk.
  - done.
  - by apply Hm in E.
Qed.

Lemma panic_free_if {A : Type} (b : bool) (m1 m2 : M A) :
  panic_free m1 -> panic_free m2 -> panic_free (if b then m1 else m2).
Proof. by destruct b. Qed.

Lemma panic_free_qualifyImport path : panic_free (qualifyImport path).
Proof.
  intros g g' msg. unfold qualifyImport. by repeat case_bool_decide.
Qed.

Create HintDb nopanic.

#[local] Hint Resolve panic_free_ret panic_free_p panic_free_bind
  panic_free_if panic_free_qualifyImport : nopanic.

Lemma panic_free_qualifiedID path sym : panic_free (qualifiedID path sym).
Proof.
  unfold qualifiedID. apply panic_free_bind; [auto with nopanic|].
  intros name. case_bool_decide; auto with nopanic.
Qed.

Lemma panic_free_writePieces qf ps :
  (forall path, panic_free (qf path)) -> panic_free (writePieces qf ps).
Proof.
  intros Hqf. induction ps as [|[s|path] ps IH]; simpl; auto 10 with nopanic.
Qed.

Lemma panic_free_TypeString_qf t : panic_free (TypeString_qf t qualifyPkg).
Proof. apply panic_free_writePieces. apply panic_free_qualifyImport. Qed.

#[local] Hint Resolve panic_free_qualifiedID panic_free_TypeString_qf
  : nopanic.

Lemma panic_free_zeroValue t :
  zeroValue_supported t -> panic_free (zeroValue t qualifyPkg).
Proof.
  unfold zeroValue_supported. rewrite zeroValue_categories.
  destruct (types.Underlying t) as [k| | | | | | | | | |];
    try done; auto with nopanic.
  destruct k; try done; auto with nopanic.
Qed.

Lemma panic_free_emitParams params :
  forall i, panic_free (emitParams i params).
Proof.
  induction params as [|pi params IH]; intros i; simpl; auto 10 with nopanic.
Qed.

Lemma panic_free_emitReturnGiven outType params :
  panic_free (emitReturnGiven outType params).
Proof.
  induction params as [|pi params IH]; simpl; auto with nopanic.
Qed.

Lemma panic_free_emitArgs params args :
  Forall (fun a => 0 <= a) args ->
  forall j, panic_free (emitArgs params j args).
Proof.
  induction 1 as [|a args Ha _ IH]; intros j; simpl; [auto with nopanic|].
  apply panic_free_bind; [auto with nopanic|]. intros _.
  apply panic_free_bind; [|auto].
  destruct (Z.ltb_spec a (Z.of_nat (length params))) as [Hlt|];
    [|auto with nopanic].
  destruct (Z.ltb_spec a 0); [lia|].
  destruct (params !! Z.to_nat a) eqn:Hl; [auto with nopanic|].
  apply lookup_ge_None in Hl. lia.
Qed.

#[local] Hint Resolve panic_free_emitParams panic_free_emitReturnGiven
  panic_free_emitArgs : nopanic.

Lemma panic_free_emitCalls params zv calls :
  Forall (fun c => Forall (fun a => 0 <= a) (call_args c)) calls ->
  forall i, panic_free (emitCalls params zv i calls).
Proof.
  induction 1 as [|c calls Hc _ IH]; intros i; simpl; auto 20 with nopanic.
Qed.

Lemma panic_free_emit name params outType returnsErr calls :
  zeroValue_supported outType ->
  Forall (fun c => Forall (fun a => 0 <= a) (call_args c)) calls ->
  panic_free (emit name params outType returnsErr calls).
Proof.
  intros Hsup Hargs. unfold emit.
  repeat (apply panic_free_bind; [|intros ?]); auto with nopanic.
  - by apply panic_free_zeroValue.
  - by apply panic_free_emitCalls.
  - destruct calls; auto with nopanic.
Qed.

Lemma solve_Ok_args_nonneg mc out given sets calls :
  solve mc out given sets = Some (Ok calls) ->
  Forall (fun c => Forall (fun a => 0 <= a) (call_args c)) calls.
Proof.
  intros (providers & st & _ & _ & _ & [_ Hplan] & <- & _)%solve_Ok.
  apply Forall_lookup. intros k c Hk.
  destruct (Hplan k c Hk) as (p & _ & _ & _ & _ & HF).
  induction HF as [|t a ts l Ha _ IH]; constructor; [|done].
  apply slot_Some_range in Ha. lia.
Qed.

Lemma checkCalls_no_Panic name returnsErr calls msg :
  checkCalls name returnsErr calls <> Panic msg.
Proof.
  induction calls as [|c calls IH]; simpl; [done|].
  by destruct (call_hasErr c && negb returnsErr).
Qed.

Lemma inject_no_Panic mc name sig sets g :
  (forall r0, sig_results sig !! 0%nat = Some r0 ->
              zeroValue_supported (var_type r0)) ->
  forall g' msg, inject mc name sig sets g <> Some (g', Panic msg).
Proof.
  intros Hsup g' msg. unfold inject.
  destruct (sig_results sig) as [|r0 rs] eqn:Hres; [done|].
  specialize (Hsup r0 eq_refl).
  destruct (checkResults name (r0 :: rs)) as [returnsErr| |] eqn:Hcheck;
    [|done|].
  2:{ by destruct rs as [|r1 [|r2 rs]]; simpl in Hcheck;
        try destruct (Identical (var_type r1) types.errorType). }
  destruct (solve mc _ _ sets) as [[calls|e|msg']|] eqn:Hsolve; try done.
  2:{ by apply solve_no_Panic in Hsolve. }
  destruct (checkCalls name returnsErr calls) eqn:Hcalls; [|done|].
  2:{ by apply checkCalls_no_Panic in Hcalls. }
  intros [= H]. revert H. apply panic_free_emit; [done|].
  by eapply solve_Ok_args_nonneg.
Qed.

(** X11.  The one panic of [inject] is the one of [zeroValue]: for an
    output type that [zeroValue] has a value for, [inject] ends with a
    function or with an error; no argument of a call is out of the range
    of the parameters. *)
Theorem inject_panics_only_in_zeroValue mc name sig sets g :
  (forall r0, sig_results sig !! 0%nat = Some r0 ->
              zeroValue_supported (var_type r0)) ->
  forall g' msg, inject mc name sig sets g <> Some (g', Panic msg).
Proof. apply inject_no_Panic. Qed.

(** X12.  [zeroValue] panics exactly on the types whose underlying type is
    the invalid type, [unsafe.Pointer], the untyped nil or a tuple. *)
Theorem zeroValue_panics_iff t g :
  (exists g' msg, zeroValue t qualifyPkg g = (g', Panic msg)) <->
  ~ zeroValue_supported t.
Proof.
  split.
  - intros (g' & msg & H) Hsup. by apply panic_free_zeroValue in H.
  - unfold zeroValue_supported. rewrite zeroValue_categories.
    destruct (types.Underlying t) as [k| | | | | | | | | |];
      try (by intros []); try (intros _; by exists g, "unreachable").
    destruct k; try (by intros []); intros _; by exists g, "unreachable".
Qed.

(** ** The further properties at the example programs *)

Lemma solve_plan_ok_witness :
  exists p,
    typeutil.At Example.catalog
      (call_out (Example.callOf Example.NewC [1; 0])) = Some p /\
    call_importPath (Example.callOf Example.NewC [1; 0]) =
      provider_importPath p /\
    call_funcName (Example.callOf Example.NewC [1; 0]) =
      provider_funcName p /\
    call_hasErr (Example.callOf Example.NewC [1; 0]) = provider_hasErr p /\
    Forall2 (fun t a => slot [] (take 2 Example.planC) a = Some t)
      (provider_args p) (call_args (Example.callOf Example.NewC [1; 0])).
Proof.
  apply (solve_plan_ok Example.mc Example.tC [] [Example.ref "a" "Module"]
           Example.planC Example.catalog).
  - vm_compute. reflexivity.
  - vm_compute. reflexivity.
  - reflexivity.
Defined.

Lemma solve_output_witness :
  (Example.tA ∈ [Example.tA] -> @nil call = []) /\
  (Example.tC ∉ @nil type ->
   exists c, last Example.planC = Some c /\ call_out c = Example.tC).
Proof.
  split.
  - apply (proj1 (solve_output Example.mc Example.tA [Example.tA] [] []
                    ltac:(vm_compute; reflexivity))).
  - apply (proj2 (solve_output Example.mc Example.tC []
                    [Example.ref "a" "Module"] Example.planC
                    ltac:(vm_compute; reflexivity))).
Defined.

Lemma solve_missing_provider_witness :
  solve Example.mc Example.tZ [] [Example.ref "a" "Module"] =
    Some (Err (ErrNoProviderOutput Example.tZ)) /\
  solve Example2.mc Example.tC [] [Example.ref "d" "Needs"] =
    Some (Err (ErrNoProviderRequired Example.tB Example.tC)).
Proof.
  split.
  - apply (solve_missing_provider Example.mc Example.tZ []
             [Example.ref "a" "Module"] Example.catalog).
    + vm_compute. reflexivity.
    + apply NoDup_nil_2.
    + intros g Hg. apply elem_of_nil in Hg. destruct Hg.
    + apply not_elem_of_nil.
    + reflexivity.
  - apply (proj2 (solve_missing_provider Example2.mc Example.tC []
                    [Example.ref "d" "Needs"] Example2.catalog
                    ltac:(vm_compute; reflexivity) ltac:(apply NoDup_nil_2)
                    ltac:(intros g Hg; apply elem_of_nil in Hg; destruct Hg)
                    ltac:(apply not_elem_of_nil))
             Example2.NewC Example.tB [Example.tA]).
    + reflexivity.
    + reflexivity.
    + apply not_elem_of_nil.
    + discriminate.
    + reflexivity.
Defined.

Lemma solve_calls_needed_witness :
  call_out (Example.callOf Example.NewA []) = Example.tC \/
  exists k' c' p',
    (0 < k')%nat /\ Example.planC !! k' = Some c' /\
    typeutil.At Example.catalog (call_out c') = Some p' /\
    call_out (Example.callOf Example.NewA []) ∈ provider_args p'.
Proof.
  apply (solve_calls_needed Example.mc Example.tC []
           [Example.ref "a" "Module"] Example.planC Example.catalog).
  - vm_compute. reflexivity.
  - vm_compute. reflexivity.
  - reflexivity.
Defined.

Lemma buildProviderMap_catalog_witness :
  (forall r, r ∈ [Example.ref "a" "Module"; Example.ref "b" "Module"] <->
             reachable Example.mc [Example.ref "a" "Module"] r) /\
  (forall r, reachable Example.mc [Example.ref "a" "Module"] r ->
             exists mod_, get Example.mc r = Ok mod_) /\
  Example.catalog =
    bindings (flat_map (providersOf Example.mc)
                [Example.ref "a" "Module"; Example.ref "b" "Module"]) /\
  (forall t p,
      typeutil.At Example.catalog t = Some p <->
      provider_out p = t /\
      exists r mod_,
        reachable Example.mc [Example.ref "a" "Module"] r /\
        get Example.mc r = Ok mod_ /\ p ∈ set_providers mod_).
Proof.
  apply (buildProviderMap_catalog Example.mc [Example.ref "a" "Module"]).
  vm_compute. reflexivity.
Defined.

Lemma buildProviderMap_conflict_witness :
  exists e, buildProviderMap Example.mc [Example.ref "c" "Imp"] = Some (Err e).
Proof.
  apply (buildProviderMap_conflict Example.mc [Example.ref "c" "Imp"]
           (Example.ref "c" "Imp") (Example.ref "a" "Module")
           {| set_providers := [Example.OtherA];
              set_imports := [Example.import "a" "Module" 71] |}
           {| set_providers := [Example.NewA; Example.NewC];
              set_imports := [Example.import "b" "Module" 11] |}
           Example.OtherA Example.NewA).
  - apply reachable_root. apply list_elem_of_In. simpl. tauto.
  - vm_compute. reflexivity.
  - apply list_elem_of_In. simpl. tauto.
  - apply (reachable_import Example.mc [Example.ref "c" "Imp"]
             (Example.ref "c" "Imp")
             {| set_providers := [Example.OtherA];
                set_imports := [Example.import "a" "Module" 71] |}
             (Example.import "a" "Module" 71)).
    + apply reachable_root. apply list_elem_of_In. simpl. tauto.
    + vm_compute. reflexivity.
    + apply list_elem_of_In. simpl. tauto.
  - vm_compute. reflexivity.
  - apply list_elem_of_In. simpl. tauto.
  - reflexivity.
  - discriminate.
Defined.

Lemma buildProviderMap_unresolved_witness :
  exists e', buildProviderMap Example.mc [Example.ref "z" "Missing"] =
               Some (Err e').
Proof.
  apply (buildProviderMap_unresolved Example.mc [Example.ref "z" "Missing"]
           (Example.ref "z" "Missing")
           (ErrAnalyzePackage (ErrPackageNotFound "z"))).
  - apply reachable_root. apply list_elem_of_In. simpl. tauto.
  - vm_compute. reflexivity.
Defined.

Lemma Generate_aliases_distinct_witness :
  Generate_loop Example.mc [Example.injectA; Example.injectC]
    (newGen "main") =
    Some ({| gen_currPackage := "main";
             gen_buf :=
               default EmptyString
                 (emitted Example.mc "main"
                    [Example.injectA; Example.injectC]);
             gen_imports := {[ "a" := "pkg0"; "b" := "pkg1" ]};
             gen_n := 2 |}, Ok tt) /\
  ({[ "a" := "pkg0"; "b" := "pkg1" ]} : gmap string string) !! "main" = None.
Proof.
  assert (Generate_loop Example.mc [Example.injectA; Example.injectC]
            (newGen "main") =
          Some ({| gen_currPackage := "main";
                   gen_buf :=
                     default EmptyString
                       (emitted Example.mc "main"
                          [Example.injectA; Example.injectC]);
                   gen_imports := {[ "a" := "pkg0"; "b" := "pkg1" ]};
                   gen_n := 2 |}, Ok tt)) as H
    by (vm_compute; reflexivity).
  split; [exact H|].
  exact (proj1 (proj2 (Generate_aliases_distinct Example.mc "main"
                         [Example.injectA; Example.injectC] _ _ H))).
Defined.

Lemma inject_keeps_aliases_witness :
  exists g' r,
    inject Example.mc "injectZ" (inj_sig Example.injectZ)
      [Example.ref "c" "Self"]
      {| gen_currPackage := "main"; gen_buf := EmptyString;
         gen_imports := {[ "a" := "pkg0" ]}; gen_n := 1 |} = Some (g', r) /\
    gen_imports g' !! "a" = Some "pkg0" /\
    qualifyImport "a" g' = (g', Ok "pkg0").
Proof.
  evaluate (inject Example.mc "injectZ" (inj_sig Example.injectZ)
              [Example.ref "c" "Self"]
              {| gen_currPackage := "main"; gen_buf := EmptyString;
                 gen_imports := {[ "a" := "pkg0" ]}; gen_n := 1 |}) as H.
  eexists. eexists. split; [exact H|].
  apply (proj2 (inject_keeps_aliases _ _ _ _ _ _ _ H) "a" "pkg0").
  - reflexivity.
  - discriminate.
Defined.

Lemma inject_panics_only_in_zeroValue_witness :
  inject Example.mc "injectC" (inj_sig Example.injectC)
    [Example.ref "a" "Module"] (newGen "main") <>
    Some (newGen "main", Panic "unreachable").
Proof.
  apply (inject_panics_only_in_zeroValue Example.mc "injectC"
           (inj_sig Example.injectC) [Example.ref "a" "Module"]
           (newGen "main")).
  intros r0 H. injection H as <-. exact I.
Defined.

(** * The front end *)

(** ** Strings *)

Lemma IndexByte_lt s c i :
  Strings.IndexByte s c = Some i -> (i < String.length s)%nat.
Proof.
  revert i. induction s as [|a s IH]; intros i; simpl; [done|].
  destruct (Ascii.eqb a c); [intros [= <-]; lia|].
  destruct (Strings.IndexByte s c) as [j|]; [|done].
  intros [= <-]. specialize (IH j eq_refl). lia.
Qed.

Lemma IndexByte_take s c i :
  Strings.IndexByte s c = Some i ->
  Strings.IndexByte (Strings.take i s) c = None.
Proof.
  revert i. induction s as [|a s IH]; intros i; simpl; [done|].
  destruct (Ascii.eqb a c) eqn:E; [by intros [= <-]|].
  destruct (Strings.IndexByte s c) as [j|]; [|done].
  intros [= <-]. simpl. rewrite E. by rewrite (IH j).
Qed.

Lemma IndexByte_None_take s c n :
  Strings.IndexByte s c = None ->
  Strings.IndexByte (Strings.take n s) c = None.
Proof.
  revert n. induction s as [|a s IH]; intros n; simpl.
  - by destruct n.
  - destruct (Ascii.eqb a c) eqn:E; [done|].
    destruct (Strings.IndexByte s c) eqn:Hs; [done|]. intros _.
    destruct n; simpl; [done|]. rewrite E. by rewrite IH.
Qed.

Lemma IndexByte_None_drop s c n :
  Strings.IndexByte s c = None ->
  Strings.IndexByte (Strings.drop n s) c = None.
Proof.
  revert n. induction s as [|a s IH]; intros n; simpl.
  - by destruct n.
  - destruct (Ascii.eqb a c) eqn:E; [done|].
    destruct (Strings.IndexByte s c) eqn:Hs; [done|]. intros _.
    destruct n; simpl; [|by apply IH]. by rewrite E, Hs.
Qed.

Lemma drop_length s n :
  String.length (Strings.drop n s) = (String.length s - n)%nat.
Proof.
  revert n. induction s as [|a s IH]; intros [|n]; simpl; auto.
Qed.

Lemma take_drop s n : Strings.take n s +:+ Strings.drop n s = s.
Proof.
  revert n. induction s as [|a s IH]; intros [|n]; try done.
  change (String a (Strings.take n s +:+ Strings.drop n s) = String a s).
  by rewrite IH.
Qed.

Lemma TrimLeft_length s cutset :
  (String.length (Strings.TrimLeft s cutset) <= String.length s)%nat.
Proof.
  induction s as [|a s IH]; simpl; [done|].
  destruct (Strings.IndexByte cutset a); simpl; lia.
Qed.

Lemma prefix_length p s :
  String.prefix p s = true -> (String.length p <= String.length s)%nat.
Proof.
  revert s. induction p as [|a p IH]; intros s; simpl; [lia|].
  destruct s as [|b s]; simpl; [done|].
  destruct (ascii_dec a b); [|done]. intros H%IH. lia.
Qed.

(** ** extractDirectives *)

Lemma extractDirectives_loop_S TrimSpace fuel d text pos :
  extractDirectives_loop TrimSpace (S fuel) d text pos =
  if bool_decide (text = EmptyString) then Some d
  else
    let text' := Strings.TrimLeft text blanks in
    if negb (Strings.HasPrefix text' directivePrefix) then Some d
    else
      let line0 := Strings.drop (String.length directivePrefix) text' in
      let line :=
        match Strings.IndexByte line0 newline with
        | Some i => Strings.take i line0
        | None => line0
        end in
      let rest :=
        match Strings.IndexByte line0 newline with
        | Some i => Strings.drop (i + 1) line0
        | None => EmptyString
        end in
      extractDirectives_loop TrimSpace fuel
        (d ++ [match Strings.IndexByte line space with
               | Some i =>
                   {| dir_pos := pos;
                      dir_kind := Strings.take i line;
                      dir_line := TrimSpace (Strings.drop (i + 1) line) |}
               | None =>
                   {| dir_pos := pos; dir_kind := line;
                      dir_line := EmptyString |}
               end]) rest pos.
Proof.
  cbn [extractDirectives_loop]. case_bool_decide; [done|].
  destruct (negb _); [done|]. cbv zeta.
  destruct (Strings.IndexByte (Strings.drop _ _) newline);
    by destruct (Strings.IndexByte _ space).
Qed.

Lemma extractDirectives_loop_spec TrimSpace pos :
  forall fuel d text,
    (String.length text < fuel)%nat ->
    exists more,
      extractDirectives_loop TrimSpace fuel d text pos = Some (d ++ more) /\
      Forall (directive_ok pos) more.
Proof.
  induction fuel as [|fuel IH]; intros d text Hfuel; [lia|].
  rewrite extractDirectives_loop_S. case_bool_decide as Hempty.
  { exists []. by rewrite app_nil_r. }
  cbv zeta. set (text' := Strings.TrimLeft text blanks).
  destruct (Strings.HasPrefix text' directivePrefix) eqn:Hprefix;
    cbn [negb].
  2:{ exists []. by rewrite app_nil_r. }
  pose proof (TrimLeft_length text blanks) as Htrim. fold text' in Htrim.
  apply prefix_length in Hprefix.
  set (line0 := Strings.drop (String.length directivePrefix) text').
  assert (String.length line0 < String.length text)%nat as Hline0.
  { unfold line0. rewrite drop_length.
    change (String.length directivePrefix) with 6%nat in *. lia. }
  set (line := match Strings.IndexByte line0 newline with
               | Some i => Strings.take i line0
               | None => line0
               end).
  set (rest := match Strings.IndexByte line0 newline with
               | Some i => Strings.drop (i + 1) line0
               | None => EmptyString
               end).
  set (dnew := match Strings.IndexByte line space with
               | Some i => _
               | None => _
               end).
  assert (String.length rest < fuel)%nat as Hrest.
  { unfold rest. destruct (Strings.IndexByte line0 newline).
    - rewrite drop_length. lia.
    - simpl. lia. }
  assert (Strings.IndexByte line newline = None) as Hline.
  { unfold line. destruct (Strings.IndexByte line0 newline) eqn:E; [|done].
    by apply IndexByte_take. }
  assert (directive_ok pos dnew) as Hnew.
  { unfold dnew. destruct (Strings.IndexByte line space) eqn:E.
    - split; [done|]. simpl.
      split; [by apply IndexByte_take|by apply IndexByte_None_take].
    - by split. }
  destruct (IH (d ++ [dnew]) rest Hrest) as (more & -> & Hmore).
  exists (dnew :: more). rewrite <- app_assoc. split; [done|].
  by constructor.
Qed.

(** X13.  [extractDirectives] ends on every text; it keeps the directives
    it was given and appends directives that carry the position of the
    comment group and whose kind has no space and no newline in it. *)
Theorem extractDirectives_appends TrimSpace d cg :
  exists more,
    extractDirectives TrimSpace d cg = Some (d ++ more) /\
    Forall (fun dr =>
              dir_pos dr = cg_pos cg /\
              Strings.IndexByte (dir_kind dr) space = None /\
              Strings.IndexByte (dir_kind dr) newline = None) more.
Proof.
  unfold extractDirectives.
  destruct (extractDirectives_loop_spec TrimSpace (cg_pos cg)
              (S (String.length (cg_text cg))) d (cg_text cg))
    as (more & H & Hok); [lia|].
  by exists more.
Qed.

(** ** parseProviderSetRef *)

Lemma LastIndexByte_None s c :
  Strings.LastIndexByte s c = None <-> Strings.IndexByte s c = None.
Proof.
  induction s as [|a s IH]; simpl; [done|].
  destruct (Strings.LastIndexByte s c) as [i|] eqn:E.
  - split; [done|]. destruct (Ascii.eqb a c); [done|].
    destruct (Strings.IndexByte s c); [done|]. intros _.
    by pose proof (proj2 IH eq_refl).
  - destruct (Ascii.eqb a c); [done|]. by rewrite (proj1 IH).
Qed.

Lemma LastIndexByte_Some s c i :
  Strings.LastIndexByte s c = Some i ->
  s = Strings.take i s +:+ String c (Strings.drop (i + 1) s) /\
  Strings.IndexByte (Strings.drop (i + 1) s) c = None.
Proof.
  revert i. induction s as [|a s IH]; intros i; simpl; [done|].
  destruct (Strings.LastIndexByte s c) as [j|] eqn:E.
  - intros [= <-]. destruct (IH j eq_refl) as [Hs Hn]. simpl.
    split; [|done].
    change (String a s = String a (Strings.take j s +:+
                                   String c (Strings.drop (j + 1) s))).
    by rewrite <- Hs.
  - destruct (Ascii.eqb_spec a c) as [->|]; [|done]. intros [= <-]. simpl.
    split; [done|]. by apply LastIndexByte_None.
Qed.

Lemma LastIndexByte_app q c name :
  Strings.IndexByte name c = None ->
  Strings.LastIndexByte (q +:+ String c name) c = Some (String.length q).
Proof.
  intros Hname. induction q as [|a q IH].
  - change (Strings.LastIndexByte (String c name) c = Some 0%nat). simpl.
    apply LastIndexByte_None in Hname. rewrite Hname.
    by rewrite Ascii.eqb_refl.
  - change (Strings.LastIndexByte (String a (q +:+ String c name)) c =
            Some (S (String.length q))).
    simpl. by rewrite IH.
Qed.

Lemma IndexByte_app_Some q c t :
  Strings.IndexByte (q +:+ String c t) c <> None.
Proof.
  induction q as [|a q IH].
  - change (Strings.IndexByte (String c t) c <> None). simpl.
    by rewrite Ascii.eqb_refl.
  - change (Strings.IndexByte (String a (q +:+ String c t)) c <> None).
    simpl. destruct (Ascii.eqb a c); [done|].
    by destruct (Strings.IndexByte (q +:+ String c t) c).
Qed.

Lemma take_app_length q s : Strings.take (String.length q) (q +:+ s) = q.
Proof.
  induction q as [|a q IH]; [by destruct s|].
  change (String a (Strings.take (String.length q) (q +:+ s)) = String a q).
  by rewrite IH.
Qed.

Lemma drop_app_length q s : Strings.drop (String.length q) (q +:+ s) = s.
Proof. induction q as [|a q IH]; [done|]. exact IH. Qed.

(** X14.  A reference [parseProviderSetRef] accepts has a name without a
    dot: a text without a dot is the set of that name in the package at
    hand, and any other text is an import part, the last dot and the name,
    where the import part is a quoted path that [Unquote] accepts or an
    identifier that the scope resolves to an imported package. *)
Theorem parseProviderSetRef_shape Unquote ref s pkg pos r :
  parseProviderSetRef Unquote ref s pkg pos = FOk r ->
  Strings.IndexByte (ref_name r) dot = None /\
  (Strings.IndexByte ref dot = None ->
   r = {| ref_importPath := pkg; ref_name := ref |}) /\
  (is_Some (Strings.IndexByte ref dot) ->
   exists imp,
     ref = imp +:+ String dot (ref_name r) /\
     if Strings.HasPrefix imp dq
     then Unquote imp = Some (ref_importPath r)
     else LookupParent s imp pos = Some (PkgName (ref_importPath r))).
Proof.
  unfold parseProviderSetRef.
  destruct (Strings.LastIndexByte ref dot) as [i|] eqn:Hlast.
  - apply LastIndexByte_Some in Hlast as [Href Hname].
    assert (Strings.IndexByte ref dot <> None) as Hdot.
    { rewrite Href. apply IndexByte_app_Some. }
    destruct (Strings.HasPrefix (Strings.take i ref) dq) eqn:Hq.
    + destruct (Unquote (Strings.take i ref)) as [path|] eqn:Hun; [|done].
      intros [= <-]. simpl. split; [done|]. split; [done|].
      intros _. exists (Strings.take i ref). by rewrite Hq.
    + destruct (LookupParent s (Strings.take i ref) pos) as [[path|]|] eqn:Hl;
        try done.
      intros [= <-]. simpl. split; [done|]. split; [done|].
      intros _. exists (Strings.take i ref). by rewrite Hq.
  - apply LastIndexByte_None in Hlast. intros [= <-]. simpl.
    split; [done|]. split; [done|]. rewrite Hlast. by intros [? ?].
Qed.

(** X15.  The text [String] gives for a reference whose name has no dot is
    parsed back to the reference, whenever [Unquote] undoes [Quote] on the
    import path and the quoted path starts with a quote. *)
Theorem parseProviderSetRef_String Quote Unquote r s pkg pos :
  Unquote (Quote (ref_importPath r)) = Some (ref_importPath r) ->
  Strings.HasPrefix (Quote (ref_importPath r)) dq = true ->
  Strings.IndexByte (ref_name r) dot = None ->
  parseProviderSetRef Unquote (refString Quote r) s pkg pos = FOk r.
Proof.
  intros Hun Hq Hname. unfold parseProviderSetRef, refString.
  change ("." +:+ ref_name r) with (String dot (ref_name r)).
  rewrite (LastIndexByte_app _ _ _ Hname).
  rewrite take_app_length, Hq, Hun.
  rewrite Nat.add_1_r.
  assert (forall q c t, Strings.drop (S (String.length q)) (q +:+ String c t)
                        = t) as Hdrop.
  { intros q c t. induction q as [|a q IH]; [done|]. exact IH. }
  rewrite Hdrop. by destruct r.
Qed.

(** ** findProviderSets *)

Lemma forEach_inv {A S : Type} (P : S -> Prop) (f : S -> A -> front S) l :
  (forall s x s', x ∈ l -> P s -> f s x = Some (FOk s') -> P s') ->
  forall s s', P s -> forEach f l s = Some (FOk s') -> P s'.
Proof.
  induction l as [|x l IH]; intros Hf s s' Hs; simpl.
  - by intros [= <-].
  - destruct (f s x) as [[s1|e|msg]|] eqn:E; simpl; try done.
    apply IH.
    + intros s0 y s0' Hy. apply Hf. by right.
    + eapply Hf; [left|done..].
Qed.

Lemma forEach_ends {A S : Type} (P : S -> Prop) (f : S -> A -> front S) l :
  (forall s x s', P s -> f s x = Some (FOk s') -> P s') ->
  (forall s x, P s ->
               (exists s', f s x = Some (FOk s')) \/
               (exists e, f s x = Some (FErr e))) ->
  forall s, P s ->
    (exists s', forEach f l s = Some (FOk s')) \/
    (exists e, forEach f l s = Some (FErr e)).
Proof.
  intros Hinv Hf. induction l as [|x l IH]; intros s Hs; simpl.
  - left. by exists s.
  - destruct (Hf s x Hs) as [[s1 E]|[e E]]; rewrite E; simpl.
    + apply IH. by eapply Hinv.
    + right. by exists e.
Qed.

Lemma repeatedParam_firstRepeated earlier rest :
  repeatedParam earlier rest = None <-> firstRepeated earlier rest = None.
Proof.
  revert earlier. induction rest as [|g rest IH]; intros earlier; simpl.
  - done.
  - destruct (find (fun h => Identical g h) earlier) as [h|] eqn:E.
    + apply find_some in E as [Hin Hid].
      assert (existsb (Identical g) earlier = true) as ->; [|done].
      apply existsb_exists. by exists h.
    + assert (existsb (Identical g) earlier = false) as ->; [|apply IH].
      apply not_true_is_false. intros (h & Hin & Hid)%existsb_exists.
      by rewrite (find_none _ _ E h Hin) in Hid.
Qed.

Lemma providerOf_Ok pkg fn p :
  providerOf pkg fn = FOk p ->
  NoDup (provider_args p) /\ provider_importPath p = pkg_path pkg.
Proof.
  unfold providerOf.
  destruct (sig_results (fn_sig fn)) as [|r0 [|r1 [|r2 rs]]]; try done.
  - destruct (repeatedParam [] _) eqn:E; [done|].
    intros [= <-]. simpl. split; [|done].
    by apply repeatedParam_firstRepeated, firstRepeated_NoDup in E.
  - destruct (Identical (var_type r1) types.errorType); [|done].
    destruct (repeatedParam [] _) eqn:E; [done|].
    intros [= <-]. simpl. split; [|done].
    by apply repeatedParam_firstRepeated, firstRepeated_NoDup in E.
Qed.

Lemma sets_ok_insert pkg sets name mod_ :
  sets_ok pkg sets -> set_ok pkg mod_ -> sets_ok pkg (<[name := mod_]> sets).
Proof.
  intros Hsets Hmod n m. destruct (decide (name = n)) as [<-|Hne].
  - rewrite lookup_insert_eq. by intros [= <-].
  - rewrite lookup_insert_ne by done. apply Hsets.
Qed.

Lemma importDirective_ok Unquote pkg f sets d sets' :
  sets_ok pkg sets ->
  importDirective Unquote pkg f sets d = FOk sets' ->
  sets_ok pkg sets'.
Proof.
  intros Hsets. unfold importDirective.
  destruct (file_scope f); [|done].
  destruct (if Strings.HasPrefix (dir_line d) dq then _ else _)
    as [name spec].
  destruct (parseProviderSetRef Unquote spec _ _ _) as [ref| |]; try done.
  destruct (bool_decide (ref_importPath ref ≠ pkg_path pkg) && _) eqn:Himp;
    [done|].
  assert (ref_importPath ref = pkg_path pkg \/
          ref_importPath ref ∈ pkg_imports pkg) as Hpath.
  { apply andb_false_iff in Himp as [H|H].
    - apply bool_decide_eq_false in H. left.
      by destruct (decide (ref_importPath ref = pkg_path pkg)).
    - apply negb_false_iff, bool_decide_eq_true in H. by right. }
  destruct (sets !! name) as [mod_|] eqn:Hl.
  - destruct (bool_decide (ref ∈ import_ref <$> set_imports mod_)) eqn:Hin;
      [intros ?; by simplify_eq|].
    apply bool_decide_eq_false in Hin.
    intros ?; simplify_eq. apply sets_ok_insert; [done|].
    destruct (Hsets _ _ Hl) as (Hp & Hi & Hps & Hims & _).
    unfold set_ok. simpl. split; [done|]. split; [|split; [done|split]].
    + rewrite fmap_app. apply NoDup_app. split; [done|].
      split; [|apply NoDup_singleton].
      intros x Hx ->%list_elem_of_singleton. done.
    + apply Forall_app. split; [done|]. by constructor.
    + right. by destruct (set_imports mod_).
  - intros ?; simplify_eq. apply sets_ok_insert; [done|].
    unfold set_ok. simpl. split; [constructor|].
    split; [apply NoDup_singleton|]. split; [constructor|].
    split; [by constructor|]. by right.
Qed.

Lemma fileComment_ok TrimSpace Unquote pkg f sets c sets' :
  sets_ok pkg sets ->
  fileComment TrimSpace Unquote pkg f sets c = Some (FOk sets') ->
  sets_ok pkg sets'.
Proof.
  intros Hsets. unfold fileComment.
  destruct (extractDirectives TrimSpace [] c) as [ds|]; [|done].
  apply forEach_inv; [|done].
  intros s d s' _ Hs. unfold fileDirective.
  destruct (_ || _); [intros ?; by simplify_eq|].
  case_bool_decide; [|done].
  intros [= Himp]. by eapply importDirective_ok.
Qed.

Lemma find_out_None (t : type) ps :
  find (fun other => Identical (provider_out other) t) ps = None ->
  t ∉ provider_out <$> ps.
Proof.
  intros H (p & -> & Hp)%list_elem_of_fmap.
  apply list_elem_of_In in Hp.
  pose proof (find_none _ _ H p Hp) as Hid. simpl in Hid.
  by rewrite Identical_refl in Hid.
Qed.

Lemma addProvider_ok pkg sets name p sets' :
  sets_ok pkg sets ->
  provider_declared pkg p -> NoDup (provider_args p) ->
  provider_importPath p = pkg_path pkg ->
  addProvider sets name p = FOk sets' ->
  sets_ok pkg sets'.
Proof.
  intros Hsets Hdecl Hargs Hpath. unfold addProvider.
  destruct (sets !! name) as [mod_|] eqn:Hl.
  - destruct (find _ (set_providers mod_)) eqn:Hfind; [done|].
    intros ?; simplify_eq. apply sets_ok_insert; [done|].
    destruct (Hsets _ _ Hl) as (Hp & Hi & Hps & Hims & _).
    unfold set_ok. simpl. split; [|split; [done|split; [|split; [done|]]]].
    + rewrite fmap_app. apply NoDup_app. split; [done|].
      split; [|apply NoDup_singleton].
      intros x Hx ->%list_elem_of_singleton.
      by apply find_out_None in Hfind.
    + apply Forall_app. split; [done|]. by constructor.
    + left. by destruct (set_providers mod_).
  - intros ?; simplify_eq. apply sets_ok_insert; [done|].
    unfold set_ok. simpl. split; [apply NoDup_singleton|].
    split; [constructor|]. split; [by constructor|].
    split; [constructor|]. by left.
Qed.

Lemma fileDecl_ok TrimSpace pkg f sets dc sets' :
  f ∈ pkg_files pkg -> dc ∈ file_decls f ->
  sets_ok pkg sets ->
  fileDecl TrimSpace pkg sets dc = Some (FOk sets') ->
  sets_ok pkg sets'.
Proof.
  intros Hf Hdc Hsets. unfold fileDecl.
  destruct (extractAll TrimSpace [] (decl_comments dc)) as [ds|]; [|done].
  destruct (forEach _ ds EmptyString) as [[name|e|msg]|]; simpl; try done.
  case_bool_decide; [intros ?; by simplify_eq|].
  destruct (decl_func dc) as [fn|] eqn:Hfn; [|done].
  destruct (providerOf pkg fn) as [p| |] eqn:Hp; try done.
  intros [= Hadd].
  destruct (providerOf_Ok _ _ _ Hp) as [Hargs Hpath].
  eapply addProvider_ok; eauto. by exists f, dc, fn.
Qed.

Lemma findProviderSets_inv TrimSpace Unquote pkg sets :
  findProviderSets TrimSpace Unquote pkg = Some (FOk sets) ->
  sets_ok pkg sets.
Proof.
  unfold findProviderSets. intros H.
  apply (forEach_inv (sets_ok pkg)) in H; [exact H| |].
  - intros s f s' Hf Hs. unfold fileSets.
    destruct (forEach _ (file_comments f) s) as [[s1|e|msg]|] eqn:E;
      simpl; try done.
    apply (forEach_inv (sets_ok pkg)) in E; [|by intros; eapply fileComment_ok|done].
    apply forEach_inv; [|done].
    intros s0 dc s0' Hdc Hs0. by eapply fileDecl_ok.
  - intros name mod_. by rewrite lookup_empty.
Qed.

(** X16.  The provider sets [findProviderSets] gives for a package are
    well formed: in each set no two providers have the same output type
    and no set is imported twice; every provider is declared by a function
    of the package, has parameters of distinct types and carries the path
    of the package; every import is of the package itself or of a package
    it imports; and no set is empty. *)
Theorem findProviderSets_sets_ok TrimSpace Unquote pkg sets :
  findProviderSets TrimSpace Unquote pkg = Some (FOk sets) ->
  forall name mod_,
    sets !! name = Some mod_ ->
    NoDup (provider_out <$> set_providers mod_) /\
    NoDup (import_ref <$> set_imports mod_) /\
    Forall (fun p =>
              provider_declared pkg p /\ NoDup (provider_args p) /\
              provider_importPath p = pkg_path pkg)
      (set_providers mod_) /\
    Forall (fun imp =>
              ref_importPath (import_ref imp) = pkg_path pkg \/
              ref_importPath (import_ref imp) ∈ pkg_imports pkg)
      (set_imports mod_) /\
    (set_providers mod_ <> [] \/ set_imports mod_ <> []).
Proof.
  intros H name mod_ Hl.
  exact (findProviderSets_inv TrimSpace Unquote pkg sets H name mod_ Hl).
Qed.

Lemma ends_FOk {A : Type} (a : A) : ends (Some (FOk a)).
Proof. left. by exists a. Qed.

Lemma ends_FErr {A : Type} e : ends (@Some (fresult A) (FErr e)).
Proof. right. by exists e. Qed.

Lemma forEach_ends_inv {A S : Type} (P : S -> Prop)
    (f : S -> A -> front S) l :
  (forall s x s', P s -> f s x = Some (FOk s') -> P s') ->
  (forall s x, P s -> ends (f s x)) ->
  forall s, P s -> ends (forEach f l s).
Proof. apply forEach_ends. Qed.

Lemma extractAll_total TrimSpace cgs :
  forall d, exists ds, extractAll TrimSpace d cgs = Some ds.
Proof.
  induction cgs as [|cg cgs IH]; intros d; simpl; [eauto|].
  destruct (extractDirectives_loop_spec TrimSpace (cg_pos cg)
              (S (String.length (cg_text cg))) d (cg_text cg))
    as (more & H & _); [lia|].
  unfold extractDirectives. rewrite H. apply IH.
Qed.

Lemma parseProviderSetRef_no_FPanic Unquote ref s pkg pos msg :
  parseProviderSetRef Unquote ref s pkg pos <> FPanic msg.
Proof.
  unfold parseProviderSetRef.
  destruct (Strings.LastIndexByte ref dot); [|done].
  destruct (Strings.HasPrefix _ dq).
  - by destruct (Unquote _).
  - by destruct (LookupParent s _ pos) as [[]|].
Qed.

Lemma importDirective_ends Unquote pkg f sets d :
  ends (Some (importDirective Unquote pkg f sets d)).
Proof.
  unfold importDirective.
  destruct (file_scope f); [|apply ends_FErr].
  destruct (if Strings.HasPrefix (dir_line d) dq then _ else _)
    as [name spec].
  destruct (parseProviderSetRef Unquote spec _ _ _) as [ref|e|msg] eqn:E.
  - destruct (_ && _); [apply ends_FErr|].
    destruct (sets !! name); [|apply ends_FOk].
    destruct (bool_decide _); apply ends_FOk.
  - apply ends_FErr.
  - by apply parseProviderSetRef_no_FPanic in E.
Qed.

Lemma fileComment_ends TrimSpace Unquote pkg f sets c :
  ends (fileComment TrimSpace Unquote pkg f sets c).
Proof.
  unfold fileComment.
  destruct (extractDirectives_loop_spec TrimSpace (cg_pos c)
              (S (String.length (cg_text c))) [] (cg_text c))
    as (ds & H & _); [lia|].
  unfold extractDirectives. rewrite H.
  apply (forEach_ends_inv (fun _ => True)); [done| |done].
  intros s d _. unfold fileDirective.
  destruct (_ || _); [apply ends_FOk|].
  case_bool_decide; [apply importDirective_ends|apply ends_FErr].
Qed.

Lemma provideDirective_function fn name d name' :
  (name <> EmptyString -> is_Some fn) ->
  provideDirective fn name d = Some (FOk name') ->
  name' <> EmptyString -> is_Some fn.
Proof.
  intros Hname. unfold provideDirective.
  destruct (negb (bool_decide (dir_kind d = "provide")));
    [by intros [= <-]|].
  destruct (negb (bool_decide (name = EmptyString))); [by destruct fn|].
  destruct fn; [eauto|done].
Qed.

Lemma provideDirective_ends fn name d :
  (name <> EmptyString -> is_Some fn) ->
  ends (provideDirective fn name d).
Proof.
  intros Hname. unfold provideDirective.
  destruct (negb (bool_decide (dir_kind d = "provide")));
    [apply ends_FOk|].
  case_bool_decide as Hn; simpl.
  - destruct fn; [|apply ends_FErr].
    destruct (bool_decide _); apply ends_FOk.
  - destruct (Hname Hn) as [fd ->]. apply ends_FErr.
Qed.

Lemma providerOf_no_FPanic pkg fn msg : providerOf pkg fn <> FPanic msg.
Proof.
  unfold providerOf.
  destruct (sig_results (fn_sig fn)) as [|r0 [|r1 [|r2 rs]]]; try done.
  - by destruct (repeatedParam [] _).
  - destruct (Identical (var_type r1) types.errorType); [|done].
    by destruct (repeatedParam [] _).
Qed.

Lemma fileDecl_ends TrimSpace pkg sets dc :
  ends (fileDecl TrimSpace pkg sets dc).
Proof.
  unfold fileDecl.
  destruct (extractAll_total TrimSpace (decl_comments dc) []) as [ds ->].
  pose proof (forEach_ends_inv
                (fun name => name <> EmptyString -> is_Some (decl_func dc))
                (provideDirective (decl_func dc)) ds) as Hends.
  destruct (Hends) with (s := EmptyString) as [[name E]|[e E]].
  - intros s d s'. apply provideDirective_function.
  - intros s d. apply provideDirective_ends.
  - done.
  - rewrite E. simpl.
    case_bool_decide as Hn; [apply ends_FOk|].
    assert (Hfn : name <> EmptyString -> is_Some (decl_func dc)).
    { revert E.
      apply (forEach_inv
               (fun name => name <> EmptyString -> is_Some (decl_func dc))
               (provideDirective (decl_func dc)) ds); [|done].
      intros s d s' _. apply provideDirective_function. }
    destruct (Hfn Hn) as [fn ->].
    destruct (providerOf pkg fn) as [p|e|msg] eqn:Hp.
    + unfold addProvider. destruct (sets !! name); [|apply ends_FOk].
      destruct (find _ _); [apply ends_FErr|apply ends_FOk].
    + apply ends_FErr.
    + by apply providerOf_no_FPanic in Hp.
  - rewrite E. apply ends_FErr.
Qed.

(** X17.  [findProviderSets] ends on every package, with the provider sets
    or with an error: it does not panic, although the error for a second
    [provide] directive reads the name of the function before the
    declaration is known to be one. *)
Theorem findProviderSets_ends TrimSpace Unquote pkg :
  (exists sets, findProviderSets TrimSpace Unquote pkg = Some (FOk sets)) \/
  (exists e, findProviderSets TrimSpace Unquote pkg = Some (FErr e)).
Proof.
  unfold findProviderSets.
  apply (forEach_ends_inv (fun _ => True)); [done| |done].
  intros sets f _. unfold fileSets.
  destruct (forEach_ends_inv (fun _ => True)
              (fileComment TrimSpace Unquote pkg f) (file_comments f))
    with (s := sets) as [[sets1 E]|[e E]]; try done.
  - intros s c _. apply fileComment_ends.
  - rewrite E. simpl.
    apply (forEach_ends_inv (fun _ => True)); [done| |done].
    intros s dc _. apply fileDecl_ends.
  - rewrite E. apply ends_FErr.
Qed.

(** ** From the declarations to the plan *)

Lemma get_Ok_cache TrimSpace Unquote prog mc r mod_ :
  cache_of TrimSpace Unquote prog mc ->
  get mc r = Ok mod_ ->
  exists pkg,
    pkg ∈ prog /\ pkg_path pkg = ref_importPath r /\ set_ok pkg mod_.
Proof.
  intros Hc. unfold get.
  destruct (mc_prog mc !! ref_importPath r) as [[e|mods]|] eqn:Hp; try done.
  destruct (mods !! ref_name r) as [m|] eqn:Hm; [|done].
  intros [= ->].
  destruct (Hc _ _ Hp) as (pkg & Hin & Hpath & Hfind).
  exists pkg. split; [done|]. split; [done|].
  by apply (findProviderSets_inv _ _ _ _ Hfind (ref_name r)).
Qed.

Lemma catalog_provider_source mc sets pm t p :
  buildProviderMap mc sets = Some (Ok pm) ->
  typeutil.At pm t = Some p ->
  exists r mod_, get mc r = Ok mod_ /\ p ∈ set_providers mod_.
Proof.
  intros [visited (-> & Hnd & _)]%buildProviderMap_Ok_inv.
  intros [Hin _]%At_bindings; [|done].
  apply list_elem_of_In, in_flat_map in Hin as (r & _ & Hp).
  apply list_elem_of_In in Hp. exists r. unfold providersOf in Hp.
  destruct (get mc r) as [mod_| |]; [by exists mod_|..];
    by apply elem_of_nil in Hp.
Qed.

Lemma providerOf_FOk pkg fn p :
  providerOf pkg fn = FOk p ->
  provider_funcName p = fn_name fn /\
  provider_args p = map var_type (sig_params (fn_sig fn)) /\
  (exists r0, head (sig_results (fn_sig fn)) = Some r0 /\
              var_type r0 = provider_out p) /\
  length (sig_results (fn_sig fn)) = (if provider_hasErr p then 2 else 1)%nat.
Proof.
  unfold providerOf.
  destruct (sig_results (fn_sig fn)) as [|r0 [|r1 [|r2 rs]]]; try done.
  - destruct (repeatedParam [] _); [done|].
    intros [= <-]. simpl. repeat (split; [done|]). split; [eauto|done].
  - destruct (Identical (var_type r1) types.errorType); [|done].
    destruct (repeatedParam [] _); [done|].
    intros [= <-]. simpl. repeat (split; [done|]). split; [eauto|done].
Qed.

Lemma plan_call_provider TrimSpace Unquote prog mc out given sets calls k c :
  cache_of TrimSpace Unquote prog mc ->
  solve mc out given sets = Some (Ok calls) ->
  calls !! k = Some c ->
  exists pkg fn p,
    pkg ∈ prog /\ declares pkg fn /\ providerOf pkg fn = FOk p /\
    NoDup (provider_args p) /\
    provider_importPath p = pkg_path pkg /\
    call_importPath c = provider_importPath p /\
    call_funcName c = provider_funcName p /\
    call_hasErr c = provider_hasErr p /\
    call_out c = provider_out p /\
    Forall2 (fun t a => slot given (take k calls) a = Some t)
      (provider_args p) (call_args c).
Proof.
  intros Hc (providers & st & Hpm & _ & _ & [_ Hplan] & <- & _)%solve_Ok Hk.
  destruct (Hplan k c Hk) as (p & Hp & Hpath & Hname & Herr & Hargs).
  destruct (catalog_provider_source _ _ _ _ _ Hpm Hp) as (r & mod_ & Hg & Hin).
  destruct (get_Ok_cache _ _ _ _ _ _ Hc Hg)
    as (pkg & Hpkg & _ & _ & _ & Hps & _).
  rewrite Forall_forall in Hps.
  destruct (Hps p Hin) as ((f & dc & fn & Hf & Hdc & Hfn & Hof) & Hnd & Hpp).
  exists pkg, fn, p. repeat (split; [done|]).
  split; [by exists f, dc|]. repeat (split; [done|]).
  split; [|done].
  apply At_Some_elem in Hp.
  destruct (buildProviderMap_Ok_inv _ _ _ Hpm) as [visited (-> & _)].
  unfold bindings in Hp. apply list_elem_of_In, in_map_iff in Hp.
  destruct Hp as (q & Heq & _). injection Heq as H1 H2. congruence.
Qed.


(** X18.  When the index holds what [findProviderSets] gives for the
    packages of a program, every call of a plan fits a function that a
    package of the program declares: the call names the package and the
    function, each argument is a slot that holds a value of the type of the
    parameter at its position, the call stands for the type of the first
    result, and it handles an error exactly when the function has a second
    result. *)
Theorem plan_calls_declared_functions TrimSpace Unquote prog mc out given
    sets calls :
  cache_of TrimSpace Unquote prog mc ->
  solve mc out given sets = Some (Ok calls) ->
  forall k c,
    calls !! k = Some c ->
    exists pkg fn,
      pkg ∈ prog /\ pkg_path pkg = call_importPath c /\
      declares pkg fn /\ call_matches given (take k calls) c fn.
Proof.
  intros Hc Hs k c Hk.
  destruct (plan_call_provider _ _ _ _ _ _ _ _ _ _ Hc Hs Hk)
    as (pkg & fn & p & Hpkg & Hdecl & Hof & _ & Hpath & Hcp & Hcn & Hce &
        Hco & Hargs).
  destruct (providerOf_FOk _ _ _ Hof) as (Hn & Ha & (r0 & Hr0 & Ho) & Hlen).
  exists pkg, fn. split; [done|]. split; [congruence|]. split; [done|].
  unfold call_matches. split; [congruence|]. split.
  - rewrite Ha in Hargs. by apply Forall2_fmap_l in Hargs.
  - split; [exists r0; split; congruence|]. by rewrite Hce.
Qed.


(** ** Generate *)

Lemma bind_Ok {A B : Type} (m : M A) (k : A -> M B) g g' b :
  bind m k g = (g', Ok b) ->
  exists g1 a, m g = (g1, Ok a) /\ k a g1 = (g', Ok b).
Proof.
  unfold bind. destruct (m g) as [g1 [a|e|msg]]; try done. eauto.
Qed.

Lemma append_not_empty s1 s2 :
  s2 <> EmptyString -> s1 +:+ s2 <> EmptyString.
Proof. by destruct s1. Qed.

Lemma emit_Ok_buf name params outType returnsErr calls g g' u :
  emit name params outType returnsErr calls g = (g', Ok u) ->
  gen_buf g' <> EmptyString.
Proof.
  unfold emit. intros H.
  repeat (apply bind_Ok in H as (? & ? & _ & H); cbv beta in H).
  injection H as <- _. simpl. by apply append_not_empty.
Qed.

Lemma inject_Ok_buf mc name sig sets g g' u :
  inject mc name sig sets g = Some (g', Ok u) ->
  gen_buf g' <> EmptyString.
Proof.
  unfold inject.
  destruct (checkResults name (sig_results sig)) as [returnsErr| |];
    try done.
  destruct (sig_results sig) as [|r0 rs]; try done.
  destruct (solve mc _ _ sets) as [[calls| |]|]; try done.
  destruct (checkCalls name returnsErr calls); try done.
  intros [= H]. by apply emit_Ok_buf in H.
Qed.

Lemma forEach_useDirective Unquote currPackage fileScope ds :
  forall acc refs,
    forEach (useDirective Unquote currPackage fileScope) ds acc =
      Some (FOk refs) ->
    Forall (fun d =>
              dir_kind d = "use" /\
              exists ref,
                parseProviderSetRef Unquote (dir_line d) fileScope
                  currPackage (dir_pos d) = FOk ref) ds.
Proof.
  induction ds as [|d ds IH]; intros acc refs; simpl; [by constructor|].
  unfold useDirective at 1.
  case_bool_decide as Hk; simpl; [|done].
  destruct (parseProviderSetRef _ _ _ _ _) as [ref| |] eqn:E; simpl;
    try done.
  intros H. constructor; [eauto|]. by eapply IH.
Qed.

Lemma Generate_decl_Ok TrimSpace Unquote mc f g dc g' :
  Generate_decl TrimSpace Unquote mc f g dc = Some (GOk g') ->
  match decl_func dc with
  | None => g' = g
  | Some fn =>
      gen_currPackage g' = gen_currPackage g /\
      gen_buf g' <> EmptyString /\
      exists inj,
        injectorOf TrimSpace Unquote (gen_currPackage g) f dc fn =
          Some (FOk inj)
  end.
Proof.
  unfold Generate_decl. destruct (decl_func dc) as [fn|]; [|by intros [= <-]].
  destruct (injectorOf _ _ _ f dc fn) as [[inj| |]|]; try done.
  destruct (inject mc _ _ _ g) as [[g1 [[]| |]]|] eqn:E; try done.
  intros [= <-]. split; [by apply inject_alias_step in E as [? _]|].
  split; [by apply inject_Ok_buf in E|]. by exists inj.
Qed.

Lemma Generate_decls_Ok TrimSpace Unquote mc f dcs :
  forall g g',
    Generate_decls TrimSpace Unquote mc f dcs g = Some (GOk g') ->
    gen_currPackage g' = gen_currPackage g /\
    Forall (fun '(f, dc, fn) =>
              exists inj,
                injectorOf TrimSpace Unquote (gen_currPackage g) f dc fn =
                  Some (FOk inj)) (funcDecls f dcs) /\
    (gen_buf g' = EmptyString <->
     gen_buf g = EmptyString /\ funcDecls f dcs = []).
Proof.
  induction dcs as [|dc dcs IH]; intros g g'; simpl.
  { intros [= <-]. split; [done|]. split; [constructor|].
    split; [done|by intros [? _]]. }
  destruct (Generate_decl _ _ mc f g dc) as [[g1| |]|] eqn:E; try done.
  apply Generate_decl_Ok in E. intros (Hp & Hall & Hbuf)%IH.
  destruct (decl_func dc) as [fn|]; simpl.
  - destruct E as (Hp1 & Hb1 & Hinj). rewrite Hp1 in Hp, Hall.
    split; [done|]. split; [by constructor|].
    split; [|by intros [_ ?]]. intros Hb. by apply Hbuf in Hb as [? _].
  - by subst g1.
Qed.

Lemma Generate_files_Ok TrimSpace Unquote mc fs :
  forall g g',
    Generate_files TrimSpace Unquote mc fs g = Some (GOk g') ->
    gen_currPackage g' = gen_currPackage g /\
    Forall (fun '(f, dc, fn) =>
              exists inj,
                injectorOf TrimSpace Unquote (gen_currPackage g) f dc fn =
                  Some (FOk inj)) (injectorDecls fs) /\
    (gen_buf g' = EmptyString <->
     gen_buf g = EmptyString /\ injectorDecls fs = []).
Proof.
  induction fs as [|f fs IH]; intros g g'; simpl.
  { intros [= <-]. split; [done|]. split; [constructor|].
    split; [done|by intros [? _]]. }
  destruct (isInjectFile f); simpl; [|apply IH].
  destruct (Generate_decls _ _ mc f (file_decls f) g) as [[g1| |]|] eqn:E;
    try done.
  apply Generate_decls_Ok in E as (Hp1 & Hall1 & Hb1).
  intros (Hp & Hall & Hbuf)%IH. rewrite Hp1 in Hp, Hall.
  split; [done|]. split; [by apply Forall_app|].
  rewrite Hbuf, Hb1. split.
  - intros [[? ->] ->]. done.
  - intros [? [? ?]%app_eq_nil]. done.
Qed.

(** X20.  [Generate] gives no source exactly when no file with the
    [gooseinject] build tag declares a function: every injector that is
    accepted writes to the buffer, and [frame] answers nothing only for an
    empty buffer. *)
Theorem Generate_source_iff TrimSpace Unquote Quote mc pkg src :
  Generate TrimSpace Unquote Quote mc pkg = Some (GOk src) ->
  src = None <-> injectorDecls (pkg_files pkg) = [].
Proof.
  unfold Generate.
  destruct (Generate_files _ _ mc _ _) as [[g| |]|] eqn:E; try done.
  apply Generate_files_Ok in E as (_ & _ & Hbuf). simpl in Hbuf.
  intros [= <-]. unfold frame. case_bool_decide as Hb.
  - split; [|done]. intros _. by apply Hbuf.
  - split; [done|]. intros Hd. destruct Hb. by apply Hbuf.
Qed.

(** X21.  [Generate] succeeds only when every directive on every function
    of the files with the [gooseinject] build tag is a [use] directive that
    names a provider set: a [provide] or an [import] directive on such a
    function, or a reference that does not parse, is an error. *)
Theorem Generate_accepts_use_only TrimSpace Unquote Quote mc pkg src :
  Generate TrimSpace Unquote Quote mc pkg = Some (GOk src) ->
  Forall (fun '(f, dc, fn) =>
            exists ds,
              extractAll TrimSpace [] (decl_comments dc) = Some ds /\
              Forall (fun d =>
                        dir_kind d = "use" /\
                        exists ref,
                          parseProviderSetRef Unquote (dir_line d)
                            (file_scope f) (pkg_path pkg) (dir_pos d) =
                            FOk ref) ds)
    (injectorDecls (pkg_files pkg)).
Proof.
  unfold Generate.
  destruct (Generate_files _ _ mc _ _) as [[g| |]|] eqn:E; try done.
  apply Generate_files_Ok in E as (_ & Hall & _). simpl in Hall.
  intros _. eapply Forall_impl; [exact Hall|].
  intros [[f dc] fn] [inj Hinj]. unfold injectorOf in Hinj.
  destruct (extractAll TrimSpace [] (decl_comments dc)) as [ds|]; [|done].
  exists ds. split; [done|].
  destruct (forEach _ ds []) as [[refs| |]|] eqn:E; try done.
  by apply forEach_useDirective in E.
Qed.





(** ** The import block *)

#[local] Instance string_le_total : Total string_le.
Proof. intros s1 s2. apply String.leb_total. Qed.

Lemma framePaths_Permutation g :
  framePaths g ≡ₚ (map_to_list (gen_imports g)).*1.
Proof. apply merge_sort_Permutation. Qed.

Lemma elem_of_framePaths g path :
  path ∈ framePaths g <-> is_Some (gen_imports g !! path).
Proof.
  rewrite framePaths_Permutation, list_elem_of_fmap. split.
  - intros ([k v] & -> & H%elem_of_map_to_list). by exists v.
  - intros [v H]. exists (path, v). by rewrite elem_of_map_to_list.
Qed.

Lemma Generate_decls_alias_step TrimSpace Unquote mc f dcs :
  forall g g',
    Generate_decls TrimSpace Unquote mc f dcs g = Some (GOk g') ->
    alias_step g g'.
Proof.
  induction dcs as [|dc dcs IH]; intros g g'; simpl.
  { intros [= <-]. apply alias_step_refl. }
  destruct (Generate_decl _ _ mc f g dc) as [[g1| |]|] eqn:E; try done.
  intros H%IH. eapply alias_step_trans; [|done].
  unfold Generate_decl in E.
  destruct (decl_func dc) as [fn|];
    [|injection E as <-; apply alias_step_refl].
  destruct (injectorOf _ _ _ f dc fn) as [[inj| |]|]; try done.
  destruct (inject mc _ _ _ g) as [[g2 [[]| |]]|] eqn:Ei; try done.
  injection E as <-. by apply inject_alias_step in Ei.
Qed.

Lemma Generate_files_alias_step TrimSpace Unquote mc fs :
  forall g g',
    Generate_files TrimSpace Unquote mc fs g = Some (GOk g') ->
    alias_step g g'.
Proof.
  induction fs as [|f fs IH]; intros g g'; simpl.
  { intros [= <-]. apply alias_step_refl. }
  destruct (isInjectFile f); simpl; [|apply IH].
  destruct (Generate_decls _ _ mc f (file_decls f) g) as [[g1| |]|] eqn:E;
    try done.
  intros H%IH. eapply alias_step_trans; [|done].
  by apply Generate_decls_alias_step in E.
Qed.

(** X23.  The import block of the source [Generate] frames lists the import
    paths of the alias table in ascending order, each of them once, never
    the path of the package itself, and no two of them under the same
    alias. *)
Theorem Generate_import_block TrimSpace Unquote mc pkg g :
  Generate_files TrimSpace Unquote mc (pkg_files pkg)
    (newGen (pkg_path pkg)) = Some (GOk g) ->
  Sorted string_le (framePaths g) /\
  NoDup (framePaths g) /\
  (forall path, path ∈ framePaths g <-> is_Some (gen_imports g !! path)) /\
  (pkg_path pkg ∉ framePaths g) /\
  NoDup (importName g <$> framePaths g).
Proof.
  intros (Hpkg & _ & _ & Hok)%Generate_files_alias_step.
  destruct (Hok (alias_ok_newGen _)) as (_ & _ & Hinj & Hown).
  rewrite Hpkg in Hown. simpl in Hown.
  assert (Hnd : NoDup (framePaths g)).
  { rewrite framePaths_Permutation. apply NoDup_fst_map_to_list. }
  split; [apply Sorted_merge_sort; apply _|]. split; [done|].
  split; [apply elem_of_framePaths|]. split.
  - rewrite elem_of_framePaths, Hown. by intros [? ?].
  - apply NoDup_fmap_2_strong; [|done].
    intros p1 p2 [n1 H1]%elem_of_framePaths [n2 H2]%elem_of_framePaths.
    unfold importName. rewrite H1, H2. simpl. intros <-. by eapply Hinj.
Qed.

(** ** The front end on the example package *)

Lemma parseProviderSetRef_shape_witness :
  Strings.IndexByte (ref_name Example3.setRef) dot = None /\
  (Strings.IndexByte Example3.setText dot = None ->
   Example3.setRef =
     {| ref_importPath := "main"; ref_name := Example3.setText |}) /\
  (is_Some (Strings.IndexByte Example3.setText dot) ->
   exists imp,
     Example3.setText = imp +:+ String dot (ref_name Example3.setRef) /\
     if Strings.HasPrefix imp dq
     then Example3.unquote imp = Some (ref_importPath Example3.setRef)
     else LookupParent None imp 0 =
            Some (PkgName (ref_importPath Example3.setRef))).
Proof.
  apply (parseProviderSetRef_shape Example3.unquote Example3.setText None
           "main" 0 Example3.setRef).
  vm_compute. reflexivity.
Defined.

Lemma parseProviderSetRef_String_witness :
  parseProviderSetRef Example3.unquote
    (refString Example3.quote Example3.setRef) None "main" 0 =
  FOk Example3.setRef.
Proof.
  apply (parseProviderSetRef_String Example3.quote Example3.unquote
           Example3.setRef None "main" 0).
  - vm_compute. reflexivity.
  - vm_compute. reflexivity.
  - vm_compute. reflexivity.
Defined.

Lemma findProviderSets_sets_ok_witness :
  NoDup (provider_out <$> set_providers Example3.module_) /\
  NoDup (import_ref <$> set_imports Example3.module_) /\
  Forall (fun p =>
            provider_declared Example3.pkg p /\ NoDup (provider_args p) /\
            provider_importPath p = pkg_path Example3.pkg)
    (set_providers Example3.module_) /\
  Forall (fun imp =>
            ref_importPath (import_ref imp) = pkg_path Example3.pkg \/
            ref_importPath (import_ref imp) ∈ pkg_imports Example3.pkg)
    (set_imports Example3.module_) /\
  (set_providers Example3.module_ <> [] \/
   set_imports Example3.module_ <> []).
Proof.
  apply (findProviderSets_sets_ok Example3.trimSpace Example3.unquote
           Example3.pkg Example3.sets ltac:(vm_compute; reflexivity)
           "Module" Example3.module_).
  vm_compute. reflexivity.
Defined.

Lemma cache_of_example :
  cache_of Example3.trimSpace Example3.unquote [Example3.pkg] Example3.mc.
Proof.
  intros path sets H. cbn [mc_prog Example3.mc] in H.
  apply lookup_singleton_Some in H as [<- [= <-]].
  exists Example3.pkg. split; [left|]. split; [done|].
  vm_compute. reflexivity.
Defined.

Lemma plan_calls_declared_functions_witness :
  exists pkg fn,
    pkg ∈ [Example3.pkg] /\
    pkg_path pkg = call_importPath (Example.callOf Example3.providerBar [0]) /\
    declares pkg fn /\
    call_matches [] (take 1 Example3.planBar)
      (Example.callOf Example3.providerBar [0]) fn.
Proof.
  apply (plan_calls_declared_functions Example3.trimSpace Example3.unquote
           [Example3.pkg] Example3.mc Example3.tBar []
           [Example.ref "main" "Module"] Example3.planBar cache_of_example
           ltac:(vm_compute; reflexivity) 1%nat).
  reflexivity.
Defined.


Lemma Generate_source_iff_witness :
  Example4.source = None <-> injectorDecls (pkg_files Example4.pkg) = [].
Proof.
  apply (Generate_source_iff Example3.trimSpace Example3.unquote
           Example3.quote Example.mc Example4.pkg Example4.source).
  vm_compute. reflexivity.
Defined.

Lemma Generate_accepts_use_only_witness :
  Forall (fun '(f, dc, fn) =>
            exists ds,
              extractAll Example3.trimSpace [] (decl_comments dc) = Some ds /\
              Forall (fun d =>
                        dir_kind d = "use" /\
                        exists ref,
                          parseProviderSetRef Example3.unquote (dir_line d)
                            (file_scope f) (pkg_path Example4.pkg)
                            (dir_pos d) = FOk ref) ds)
    (injectorDecls (pkg_files Example4.pkg)).
Proof.
  apply (Generate_accepts_use_only Example3.trimSpace Example3.unquote
           Example3.quote Example.mc Example4.pkg Example4.source).
  vm_compute. reflexivity.
Defined.


Lemma Generate_import_block_witness :
  Sorted string_le (framePaths Example4.generator) /\
  NoDup (framePaths Example4.generator) /\
  (forall path,
      path ∈ framePaths Example4.generator <->
      is_Some (gen_imports Example4.generator !! path)) /\
  (pkg_path Example4.pkg ∉ framePaths Example4.generator) /\
  NoDup (importName Example4.generator <$> framePaths Example4.generator).
Proof.
  apply (Generate_import_block Example3.trimSpace Example3.unquote
           Example.mc Example4.pkg Example4.generator).
  vm_compute. reflexivity.
Defined.

(** ** No directive is lost *)

Lemma grows_refl sets : grows sets sets.
Proof. intros name mod_ H. by exists mod_. Qed.

Lemma grows_trans s1 s2 s3 : grows s1 s2 -> grows s2 s3 -> grows s1 s3.
Proof.
  intros H12 H23 name m1 H1.
  destruct (H12 _ _ H1) as (m2 & H2 & Hp2 & Hi2).
  destruct (H23 _ _ H2) as (m3 & H3 & Hp3 & Hi3).
  exists m3. split; [done|]. split; by etrans.
Qed.

Lemma grows_insert sets name mod' :
  (forall mod_, sets !! name = Some mod_ ->
                set_providers mod_ ⊆ set_providers mod' /\
                set_imports mod_ ⊆ set_imports mod') ->
  grows sets (<[name := mod']> sets).
Proof.
  intros H n m Hn. destruct (decide (n = name)) as [->|Hne].
  - exists mod'. rewrite lookup_insert_eq. split; [done|]. by apply H.
  - exists m. by rewrite lookup_insert_ne.
Qed.

Lemma forEach_grows {A S : Type} (R : S -> S -> Prop)
    (f : S -> A -> front S) l :
  (forall s, R s s) -> (forall s1 s2 s3, R s1 s2 -> R s2 s3 -> R s1 s3) ->
  (forall s x s', x ∈ l -> f s x = Some (FOk s') -> R s s') ->
  forall s s', forEach f l s = Some (FOk s') -> R s s'.
Proof.
  intros Hrefl Htrans. induction l as [|x l IH]; intros Hf s s'; simpl.
  - by intros [= <-].
  - destruct (f s x) as [[s1|e|msg]|] eqn:E; simpl; try done.
    intros H. apply (Htrans _ s1); [apply (Hf s x); [left|done]|].
    apply IH; [|done]. intros s0 y s0' Hy. apply Hf. by right.
Qed.

Lemma forEach_elem {A S : Type} (R : S -> S -> Prop)
    (f : S -> A -> front S) l x :
  (forall s, R s s) -> (forall s1 s2 s3, R s1 s2 -> R s2 s3 -> R s1 s3) ->
  (forall s y s', y ∈ l -> f s y = Some (FOk s') -> R s s') ->
  x ∈ l ->
  forall s s',
    forEach f l s = Some (FOk s') ->
    exists s1 s2, R s s1 /\ f s1 x = Some (FOk s2) /\ R s2 s'.
Proof.
  intros Hrefl Htrans. induction l as [|y l IH]; intros Hf Hx s s'; simpl.
  { by apply elem_of_nil in Hx. }
  destruct (f s y) as [[s1|e|msg]|] eqn:E; simpl; try done.
  intros H. apply elem_of_cons in Hx as [->|Hx].
  - exists s, s1. split; [done|]. split; [done|].
    revert H. apply forEach_grows; try done.
    intros s0 z s0' Hz. apply Hf. by right.
  - assert (Hf' : forall s0 z s0',
               z ∈ l -> f s0 z = Some (FOk s0') -> R s0 s0').
    { intros s0 z s0' Hz. apply Hf. by right. }
    destruct (IH Hf' Hx s1 s' H) as (t1 & t2 & H1 & H2 & H3).
    exists t1, t2. split; [|done].
    apply (Htrans _ s1); [|done]. apply (Hf s y); [left|done].
Qed.

Lemma importDirective_grows Unquote pkg f sets d sets' :
  importDirective Unquote pkg f sets d = FOk sets' -> grows sets sets'.
Proof.
  unfold importDirective.
  destruct (file_scope f); [|done].
  destruct (if Strings.HasPrefix (dir_line d) dq then _ else _)
    as [name spec].
  destruct (parseProviderSetRef Unquote spec _ _ _) as [ref| |]; try done.
  destruct (_ && _); [done|].
  destruct (sets !! name) as [mod_|] eqn:Hl.
  - destruct (bool_decide _); intros ?; simplify_eq; [apply grows_refl|].
    apply grows_insert. intros m ?; simplify_eq. simpl. split; [done|].
    intros x Hx. apply elem_of_app. by left.
  - intros ?; simplify_eq. apply grows_insert. intros m ?; simplify_eq.
Qed.

Lemma fileDirective_grows Unquote pkg f sets d sets' :
  fileDirective Unquote pkg f sets d = Some (FOk sets') -> grows sets sets'.
Proof.
  unfold fileDirective.
  destruct (_ || _); [intros ?; simplify_eq; apply grows_refl|].
  case_bool_decide; [|done].
  intros ?; simplify_eq. by eapply importDirective_grows.
Qed.

Lemma fileComment_grows TrimSpace Unquote pkg f sets c sets' :
  fileComment TrimSpace Unquote pkg f sets c = Some (FOk sets') ->
  grows sets sets'.
Proof.
  unfold fileComment.
  destruct (extractDirectives TrimSpace [] c) as [ds|]; [|done].
  apply forEach_grows; [apply grows_refl|apply grows_trans|].
  intros s d s' _. apply fileDirective_grows.
Qed.

Lemma addProvider_adds sets name p sets' :
  addProvider sets name p = FOk sets' ->
  grows sets sets' /\
  exists mod', sets' !! name = Some mod' /\ p ∈ set_providers mod'.
Proof.
  unfold addProvider. destruct (sets !! name) as [mod_|] eqn:Hl.
  - destruct (find _ _); [done|]. intros ?; simplify_eq. split.
    + apply grows_insert. intros m ?; simplify_eq. simpl. split; [|done].
      intros x Hx. apply elem_of_app. by left.
    + eexists. rewrite lookup_insert_eq. split; [done|]. simpl.
      apply elem_of_app. right. left.
  - intros ?; simplify_eq. split.
    + apply grows_insert. intros m ?; simplify_eq.
    + eexists. rewrite lookup_insert_eq. split; [done|]. left.
Qed.

Lemma fileDecl_grows TrimSpace pkg sets dc sets' :
  fileDecl TrimSpace pkg sets dc = Some (FOk sets') -> grows sets sets'.
Proof.
  unfold fileDecl.
  destruct (extractAll TrimSpace [] (decl_comments dc)) as [ds|]; [|done].
  destruct (forEach _ ds EmptyString) as [[name|e|msg]|]; simpl; try done.
  case_bool_decide; [intros ?; simplify_eq; apply grows_refl|].
  destruct (decl_func dc) as [fn|]; [|done].
  destruct (providerOf pkg fn) as [p| |]; try done.
  intros [= Hadd]. by apply addProvider_adds in Hadd as [? _].
Qed.

Lemma fileSets_grows TrimSpace Unquote pkg sets f sets' :
  fileSets TrimSpace Unquote pkg sets f = Some (FOk sets') ->
  grows sets sets'.
Proof.
  unfold fileSets.
  destruct (forEach _ (file_comments f) sets) as [[s1|e|msg]|] eqn:E;
    simpl; try done.
  intros H. apply (grows_trans _ s1).
  - revert E. apply forEach_grows; [apply grows_refl|apply grows_trans|].
    intros s c s' _. apply fileComment_grows.
  - revert H. apply forEach_grows; [apply grows_refl|apply grows_trans|].
    intros s dc s' _. apply fileDecl_grows.
Qed.

Lemma providerSetName_not_empty d : providerSetName d <> EmptyString.
Proof. unfold providerSetName. by case_bool_decide. Qed.

Lemma forEach_provide_named fn ds :
  forall name0 name,
    name0 <> EmptyString ->
    forEach (provideDirective fn) ds name0 = Some (FOk name) ->
    name = name0 /\ Forall (fun d => dir_kind d <> "provide") ds.
Proof.
  induction ds as [|d ds IH]; intros name0 name Hne; simpl.
  { by intros [= <-]. }
  unfold provideDirective at 1.
  case_bool_decide as Hk; simpl.
  - case_bool_decide; [done|]. simpl. by destruct fn.
  - intros [-> HF]%IH; [|done]. split; [done|]. by constructor.
Qed.

Lemma forEach_provide fn ds :
  forall name d,
    forEach (provideDirective fn) ds EmptyString = Some (FOk name) ->
    d ∈ ds -> dir_kind d = "provide" ->
    name = providerSetName d.
Proof.
  induction ds as [|d' ds IH]; intros name d; simpl.
  { by intros _ ?%elem_of_nil. }
  unfold provideDirective at 1.
  case_bool_decide as Hk; simpl.
  - destruct fn as [fd|]; [|done]. simpl. intros H.
    assert (Hn : forEach (provideDirective (Some fd)) ds (providerSetName d')
                 = Some (FOk name)).
    { unfold providerSetName.
      by destruct (bool_decide (dir_line d' = EmptyString)). }
    clear H. revert Hn.
    intros [-> HF]%forEach_provide_named;
      [|apply providerSetName_not_empty].
    intros [->|Hd]%elem_of_cons Hkind; [done|].
    rewrite Forall_forall in HF. by destruct (HF d Hd).
  - intros H [->|Hd]%elem_of_cons Hkind; [done|]. by eapply IH.
Qed.

(** X24.  [findProviderSets] loses no provider: when it succeeds, a
    [provide] directive on a declaration means that the declaration is a
    function, that the function is a provider, and that the set the
    directive names holds this provider. *)
Theorem findProviderSets_keeps_providers TrimSpace Unquote pkg sets f dc ds
    d :
  findProviderSets TrimSpace Unquote pkg = Some (FOk sets) ->
  f ∈ pkg_files pkg -> dc ∈ file_decls f ->
  extractAll TrimSpace [] (decl_comments dc) = Some ds ->
  d ∈ ds -> dir_kind d = "provide" ->
  exists fn p mod_,
    decl_func dc = Some fn /\ providerOf pkg fn = FOk p /\
    sets !! providerSetName d = Some mod_ /\ p ∈ set_providers mod_.
Proof.
  intros Hfind Hf Hdc Hds Hd Hkind. unfold findProviderSets in Hfind.
  apply (forEach_elem grows _ _ f) in Hfind
    as (s1 & s2 & _ & Hfile & Hs2);
    [|apply grows_refl|apply grows_trans
     |intros ? ? ? _; apply fileSets_grows|done].
  unfold fileSets in Hfile.
  destruct (forEach _ (file_comments f) s1) as [[s1'|e|msg]|]; try done.
  simpl in Hfile.
  apply (forEach_elem grows _ _ dc) in Hfile
    as (t1 & t2 & _ & Hdecl & Ht2);
    [|apply grows_refl|apply grows_trans
     |intros ? ? ? _; apply fileDecl_grows|done].
  unfold fileDecl in Hdecl. rewrite Hds in Hdecl.
  destruct (forEach _ ds EmptyString) as [[name|e|msg]|] eqn:Hname;
    simpl in Hdecl; try done.
  apply forEach_provide with (d := d) in Hname as ->; [|done..].
  rewrite bool_decide_eq_false_2 in Hdecl
    by apply providerSetName_not_empty.
  destruct (decl_func dc) as [fn|]; [|done].
  destruct (providerOf pkg fn) as [p| |] eqn:Hp; try done.
  injection Hdecl as Hadd.
  apply addProvider_adds in Hadd as (_ & m2 & Hm2 & Hin).
  destruct (Ht2 _ _ Hm2) as (m3 & Hm3 & Hp3 & _).
  destruct (Hs2 _ _ Hm3) as (m4 & Hm4 & Hp4 & _).
  exists fn, p, m4. repeat split; try done. by apply Hp4, Hp3.
Qed.

Lemma importDirective_adds Unquote pkg f sets d sets' :
  importDirective Unquote pkg f sets d = FOk sets' ->
  exists ref mod_,
    parseProviderSetRef Unquote (importSpec d).2 (file_scope f)
      (pkg_path pkg) (dir_pos d) = FOk ref /\
    sets' !! (importSpec d).1 = Some mod_ /\
    ref ∈ import_ref <$> set_imports mod_.
Proof.
  unfold importDirective, importSpec.
  destruct (file_scope f) as [sc|]; [|done].
  destruct (if Strings.HasPrefix (dir_line d) dq then _ else _)
    as [name spec].
  destruct (parseProviderSetRef Unquote spec _ _ _) as [ref| |] eqn:Hparse;
    try done.
  destruct (_ && _); [done|]. simpl.
  destruct (sets !! name) as [mod_|] eqn:Hl.
  - case_bool_decide as Hin; intros ?; simplify_eq; exists ref.
    + by exists mod_.
    + eexists. rewrite lookup_insert_eq. split; [done|]. split; [done|].
      simpl. rewrite fmap_app. apply elem_of_app. right. left.
  - intros ?; simplify_eq. exists ref.
    eexists. rewrite lookup_insert_eq. split; [done|]. split; [done|]. left.
Qed.

(** X25.  [findProviderSets] loses no import either: when it succeeds,
    the reference of an [import] directive of a comment of a file parses,
    and the set the directive names imports the set it refers to. *)
Theorem findProviderSets_keeps_imports TrimSpace Unquote pkg sets f c ds d :
  findProviderSets TrimSpace Unquote pkg = Some (FOk sets) ->
  f ∈ pkg_files pkg -> c ∈ file_comments f ->
  extractDirectives TrimSpace [] c = Some ds ->
  d ∈ ds -> dir_kind d = "import" ->
  exists ref mod_,
    parseProviderSetRef Unquote (importSpec d).2 (file_scope f)
      (pkg_path pkg) (dir_pos d) = FOk ref /\
    sets !! (importSpec d).1 = Some mod_ /\
    ref ∈ import_ref <$> set_imports mod_.
Proof.
  intros Hfind Hf Hc Hds Hd Hkind. unfold findProviderSets in Hfind.
  apply (forEach_elem grows _ _ f) in Hfind
    as (s1 & s2 & _ & Hfile & Hs2);
    [|apply grows_refl|apply grows_trans
     |intros ? ? ? _; apply fileSets_grows|done].
  unfold fileSets in Hfile.
  destruct (forEach _ (file_comments f) s1) as [[s1'|e|msg]|] eqn:Hcs;
    try done.
  simpl in Hfile.
  apply (forEach_grows grows) in Hfile;
    [|apply grows_refl|apply grows_trans
     |intros ? ? ? _; apply fileDecl_grows].
  apply (forEach_elem grows _ _ c) in Hcs
    as (t1 & t2 & _ & Hcom & Ht2);
    [|apply grows_refl|apply grows_trans
     |intros ? ? ? _; apply fileComment_grows|done].
  unfold fileComment in Hcom. rewrite Hds in Hcom.
  apply (forEach_elem grows _ _ d) in Hcom
    as (u1 & u2 & _ & Hdir & Hu2);
    [|apply grows_refl|apply grows_trans
     |intros ? ? ? _; apply fileDirective_grows|done].
  unfold fileDirective in Hdir. rewrite Hkind in Hdir. simpl in Hdir.
  injection Hdir as Hdir.
  apply importDirective_adds in Hdir as (ref & m1 & Hparse & Hm1 & Hin).
  exists ref.
  destruct (Hu2 _ _ Hm1) as (m2 & Hm2 & _ & Hi2).
  destruct (Ht2 _ _ Hm2) as (m3 & Hm3 & _ & Hi3).
  destruct (Hfile _ _ Hm3) as (m4 & Hm4 & _ & Hi4).
  destruct (Hs2 _ _ Hm4) as (m5 & Hm5 & _ & Hi5).
  exists m5. split; [done|]. split; [done|].
  apply list_elem_of_fmap in Hin as (imp & -> & Himp).
  apply list_elem_of_fmap. exists imp. split; [done|].
  by apply Hi5, Hi4, Hi3, Hi2.
Qed.

Lemma findProviderSets_keeps_providers_witness :
  exists fn p mod_,
    decl_func Example3.declBar = Some fn /\
    providerOf Example3.pkg fn = FOk p /\
    Example3.sets !! providerSetName Example3.provideBar = Some mod_ /\
    p ∈ set_providers mod_.
Proof.
  apply (findProviderSets_keeps_providers Example3.trimSpace Example3.unquote
           Example3.pkg Example3.sets Example3.providersFile Example3.declBar
           [Example3.provideBar] Example3.provideBar).
  - vm_compute. reflexivity.
  - apply (list_elem_of_lookup_2 _ 0%nat). reflexivity.
  - apply (list_elem_of_lookup_2 _ 1%nat). reflexivity.
  - vm_compute. reflexivity.
  - apply (list_elem_of_lookup_2 _ 0%nat). reflexivity.
  - reflexivity.
Defined.

Lemma findProviderSets_keeps_imports_witness :
  exists ref mod_,
    parseProviderSetRef Example3.unquote (importSpec Example4.importDir).2
      (file_scope Example4.otherFile) (pkg_path Example4.pkg)
      (dir_pos Example4.importDir) = FOk ref /\
    Example4.sets !! (importSpec Example4.importDir).1 = Some mod_ /\
    ref ∈ import_ref <$> set_imports mod_.
Proof.
  apply (findProviderSets_keeps_imports Example3.trimSpace Example3.unquote
           Example4.pkg Example4.sets Example4.otherFile Example4.importA
           [Example4.importDir] Example4.importDir).
  - vm_compute. reflexivity.
  - apply (list_elem_of_lookup_2 _ 0%nat). reflexivity.
  - apply (list_elem_of_lookup_2 _ 0%nat). reflexivity.
  - vm_compute. reflexivity.
  - apply (list_elem_of_lookup_2 _ 0%nat). reflexivity.
  - reflexivity.
Defined.

(** ** Generate ends *)

Lemma inject_total mc name sig sets g :
  exists g' r, inject mc name sig sets g = Some (g', r).
Proof.
  unfold inject.
  destruct (checkResults name (sig_results sig)) as [returnsErr| |];
    [|eauto..].
  destruct (sig_results sig) as [|r0 rs]; [eauto|].
  destruct (solve_total mc (var_type r0) (map var_type (sig_params sig)) sets)
    as [[calls| |] ->]; [|eauto..].
  destruct (checkCalls name returnsErr calls); [|eauto..].
  destruct (emit name (sig_params sig) (var_type r0) returnsErr calls g)
    as [g' r]. eauto.
Qed.

Lemma useDirective_ends Unquote currPackage fileScope refs d :
  ends (useDirective Unquote currPackage fileScope refs d).
Proof.
  unfold useDirective.
  destruct (negb _); [apply ends_FErr|].
  destruct (parseProviderSetRef _ _ _ _ _) as [ref|e|msg] eqn:E.
  - apply ends_FOk.
  - apply ends_FErr.
  - by apply parseProviderSetRef_no_FPanic in E.
Qed.

Lemma injectorOf_ends TrimSpace Unquote currPackage f dc fn :
  (exists inj,
      injectorOf TrimSpace Unquote currPackage f dc fn = Some (FOk inj) /\
      inj_sig inj = fn_sig fn) \/
  (exists e, injectorOf TrimSpace Unquote currPackage f dc fn = Some (FErr e)).
Proof.
  unfold injectorOf.
  destruct (extractAll_total TrimSpace (decl_comments dc) []) as [ds ->].
  destruct (forEach_ends_inv (fun _ => True)
              (useDirective Unquote currPackage (file_scope f)) ds)
    with (s := @nil providerSetRef) as [[refs ->]|[e ->]]; try done.
  - intros s d _. apply useDirective_ends.
  - left. by eexists.
  - right. by eexists.
Qed.

Lemma Generate_decls_ends TrimSpace Unquote mc f dcs :
  forall g,
    Forall (fun '(f, dc, fn) =>
              forall r0, sig_results (fn_sig fn) !! 0%nat = Some r0 ->
                         zeroValue_supported (var_type r0))
      (funcDecls f dcs) ->
    Generate_ended (Generate_decls TrimSpace Unquote mc f dcs g).
Proof.
  induction dcs as [|dc dcs IH]; intros g; simpl.
  { intros _. left. by exists g. }
  unfold Generate_decl. destruct (decl_func dc) as [fn|]; simpl; [|apply IH].
  intros [Hfn Hrest]%Forall_cons.
  destruct (injectorOf_ends TrimSpace Unquote (gen_currPackage g) f dc fn)
    as [(inj & -> & Hsig)|[e ->]]; [|right; by eexists].
  destruct (inject_total mc (inj_name inj) (inj_sig inj) (inj_sets inj) g)
    as (g' & r & E).
  rewrite E. destruct r as [[]|e|msg].
  - by apply IH.
  - right. by eexists.
  - rewrite Hsig in E. by apply inject_no_Panic in E.
Qed.

Lemma Generate_files_ends TrimSpace Unquote mc fs :
  forall g,
    Forall (fun '(f, dc, fn) =>
              forall r0, sig_results (fn_sig fn) !! 0%nat = Some r0 ->
                         zeroValue_supported (var_type r0))
      (injectorDecls fs) ->
    Generate_ended (Generate_files TrimSpace Unquote mc fs g).
Proof.
  induction fs as [|f fs IH]; intros g; simpl.
  { intros _. left. by exists g. }
  destruct (isInjectFile f); simpl; [|apply IH].
  intros [Hf Hrest]%Forall_app.
  destruct (Generate_decls_ends TrimSpace Unquote mc f (file_decls f) g Hf)
    as [[g' ->]|[e ->]]; [by apply IH|].
  right. by eexists.
Qed.

(** X26.  [Generate] ends with a source or with an error when the first
    result of every injector function is of a type [zeroValue] has a value
    for: reading the directives never panics, the resolution never runs
    short, and the one panic of [inject] is the one of [zeroValue]. *)
Theorem Generate_ends TrimSpace Unquote Quote mc pkg :
  Forall (fun '(f, dc, fn) =>
            forall r0, sig_results (fn_sig fn) !! 0%nat = Some r0 ->
                       zeroValue_supported (var_type r0))
    (injectorDecls (pkg_files pkg)) ->
  (exists src, Generate TrimSpace Unquote Quote mc pkg = Some (GOk src)) \/
  (exists e, Generate TrimSpace Unquote Quote mc pkg = Some (GErr e)).
Proof.
  intros H. unfold Generate.
  destruct (Generate_files_ends TrimSpace Unquote mc (pkg_files pkg)
              (newGen (pkg_path pkg)) H) as [[g ->]|[e ->]].
  - left. by eexists.
  - right. by eexists.
Qed.

Lemma Generate_ends_witness :
  (exists src,
      Generate Example3.trimSpace Example3.unquote Example3.quote Example.mc
        Example4.pkg = Some (GOk src)) \/
  (exists e,
      Generate Example3.trimSpace Example3.unquote Example3.quote Example.mc
        Example4.pkg = Some (GErr e)).
Proof.
  apply (Generate_ends Example3.trimSpace Example3.unquote Example3.quote
           Example.mc Example4.pkg).
  vm_compute.
  repeat (constructor; [intros r0 [= <-]; exact I|]). constructor.
Defined.
